(** * gb-flamegraph: the profiling core, embedded and verified

    A shallow embedding of the profiling engine of gb-flamegraph:
    - [src/core/speedscope.js]   the trace emitter and [finalizeTrace];
    - [src/core/noi-parser.js]   [parseNoi] and [generateFunctionRegions];
    - the benchmark runner       the call-stack engine of [BenchmarkRunner].

    Conventions.  Cycle counts, addresses and banks are [Z].  A JS array
    used as a stack ([push]/[pop] at the end) is a [list] whose HEAD is
    the top of the stack, that is the LAST element of the JS array.  A JS
    object used as a dictionary is a [gmap]; a JS [Map] whose iteration
    order is observable is an association list.  Text is a [string] of
    code units below 256. *)

From Stdlib Require Import ZArith Lia Ascii String.
From stdpp Require Import base option list sorting gmap strings.

Local Open Scope string_scope.
Local Open Scope list_scope.
Local Open Scope Z_scope.

(** ** Part I.  The trace emitter ([speedscope.js]) *)

(** [event.type]: the emitter only ever writes ["O"] and ["C"], so the
    branch of the filter loop for an unknown type has no counterpart. *)
Inductive EventType := TypeO | TypeC.

#[global] Instance EventType_eq_dec : EqDecision EventType.
Proof. solve_decision. Defined.

(** An event [{ type, at, frame }]; close events carry [start] as well.
    [event.frame] is [noiIndex[symbol]], a number or the one value that
    is not a number: [undefined] for a symbol without an index, or, for
    the symbol ["__proto__"] alone, the object [Object.prototype] that
    the plain object [noiIndex] yields for that key.  [None] stands for
    that value; a run meets one of the two at most, since ["__proto__"]
    comes from a NOI text and a symbol without an index is met only
    without one. *)
Record Event := mkEvent {
  e_type : EventType;
  e_at : Z;
  e_frame : option nat;
  e_start : option Z
}.

#[global] Instance Event_eq_dec : EqDecision Event.
Proof. solve_decision. Defined.

Record Capture := mkCapture {
  c_src : string;
  c_at : Z;
  c_frameNumber : Z
}.

(** The trace object: [shared.frames], [profiles[0].events],
    [profiles[0].endValue] and [captures]. *)
Record Trace := mkTrace {
  frames : list string;
  events : list Event;
  endValue : Z;
  captures : list Capture
}.

Definition createSpeedscopeTrace (symbols : list string) : Trace :=
  {| frames := symbols; events := []; endValue := 0; captures := [] |}.

Definition withEvents (trace : Trace) (evs : list Event) : Trace :=
  {| frames := frames trace; events := evs;
     endValue := endValue trace; captures := captures trace |}.

(** [addOpenEvent(trace, frameIndex, at)] *)
Definition addOpenEvent (trace : Trace) (frameIndex : option nat) (at_ : Z) : Trace :=
  withEvents trace (events trace ++ [mkEvent TypeO at_ frameIndex None]).

(** [addCloseEvent(trace, frameIndex, at, start)] *)
Definition addCloseEvent (trace : Trace) (frameIndex : option nat) (at_ start : Z) : Trace :=
  withEvents trace (events trace ++ [mkEvent TypeC at_ frameIndex (Some start)]).

(** [addCapture(trace, src, at, frameNumber)] *)
Definition addCapture (trace : Trace) (src : string) (at_ frameNumber : Z) : Trace :=
  {| frames := frames trace; events := events trace; endValue := endValue trace;
     captures := captures trace ++ [mkCapture src at_ frameNumber] |}.

(** *** Sorting

    The comparator handed to [events.sort]. *)
Definition compareEvents (a b : Event) : Z :=
  if decide (e_at a ≠ e_at b) then e_at a - e_at b
  else if decide (e_type a = e_type b) then 0
  else match e_type a with TypeO => -1 | TypeC => 1 end.

(** [Array.prototype.sort] is a stable sort; with a consistent comparator
    its result is the one of any stable sorting algorithm.  Insertion from
    the right keeps an element before the equal ones that followed it. *)
Fixpoint insertEvent (x : Event) (l : list Event) : list Event :=
  match l with
  | [] => [x]
  | y :: l' =>
      if decide (compareEvents x y ≤ 0) then x :: y :: l'
      else y :: insertEvent x l'
  end.

Definition sortEvents (l : list Event) : list Event :=
  foldr insertEvent [] l.

(** *** The capture-start filter *)

(** The loop state: the [include] array and the [stackByFrame] map. *)
Record FilterState := mkFilterState {
  include : list bool;
  stackByFrame : gmap (option nat) (list nat)
}.

(** One iteration of [for (let i = 0; i < events.length; i++)]. *)
Definition filterStep (captureStartTime : Z) (i : nat) (event : Event)
    (st : FilterState) : FilterState :=
  match e_type event with
  | TypeO =>
      let stack := default [] (stackByFrame st !! e_frame event) in
      mkFilterState (include st) (<[e_frame event := i :: stack]> (stackByFrame st))
  | TypeC =>
      match stackByFrame st !! e_frame event with
      | Some (openIndex :: stack) =>
          mkFilterState
            (if decide (captureStartTime ≤ e_at event)
             then <[i := true]> (<[openIndex := true]> (include st))
             else include st)
            (<[e_frame event := stack]> (stackByFrame st))
      | _ => st
      end
  end.

Fixpoint filterLoop (captureStartTime : Z) (i : nat) (evs : list Event)
    (st : FilterState) : FilterState :=
  match evs with
  | [] => st
  | event :: rest =>
      filterLoop captureStartTime (S i) rest (filterStep captureStartTime i event st)
  end.

(** The open indices still on some stack. *)
Definition remainingOpens (stacks : gmap (option nat) (list nat)) : list nat :=
  concat (snd <$> map_to_list stacks).

(** "Include any remaining opens that were never closed."  Every turn
    sets one flag, so the order in which the stacks are visited does not
    show in the result. *)
Definition includeRemaining (st : FilterState) : list bool :=
  foldr (λ openIndex inc, <[openIndex := true]> inc) (include st)
        (remainingOpens (stackByFrame st)).

(** The [include] array once both loops have run over [evs]. *)
Definition includeFlags (captureStartTime : Z) (evs : list Event) : list bool :=
  includeRemaining
    (filterLoop captureStartTime 0 evs
       (mkFilterState (replicate (length evs) false) ∅)).

(** [events.filter((_, idx) => include[idx])], for [include] as long as
    [events]. *)
Fixpoint keepIncluded (evs : list Event) (inc : list bool) : list Event :=
  match evs, inc with
  | e :: evs', b :: inc' =>
      if b then e :: keepIncluded evs' inc' else keepIncluded evs' inc'
  | _, _ => []
  end.

(** The event list after the sort and the filter; [captureStartTime] is
    [None] for [null]/[undefined]. *)
Definition finalizeEvents (evs : list Event) (captureStartTime : option Z) : list Event :=
  let sorted := sortEvents evs in
  match captureStartTime with
  | Some t => keepIncluded sorted (includeFlags t sorted)
  | None => sorted
  end.

(** [Math.max(...includedEvents.map((e) => e.at))] on a non-empty list. *)
Fixpoint maxAt (first : Event) (rest : list Event) : Z :=
  match rest with
  | [] => e_at first
  | e :: rest' => Z.max (e_at first) (maxAt e rest')
  end.

(** [finalizeTrace(trace, captureStartTime)] *)
Definition finalizeTrace (trace : Trace) (captureStartTime : option Z) : Trace :=
  let includedEvents := finalizeEvents (events trace) captureStartTime in
  {| frames := frames trace;
     events := includedEvents;
     endValue := match includedEvents with
                 | [] => endValue trace
                 | e :: rest => maxAt e rest
                 end;
     captures := captures trace |}.

(** *** Matching, stated on its own

    The walk of the specification, apart from the [include] array: a
    list of events is walked in order with one LIFO of open indices per
    frame index.  Every close is reported with the open it pops, or with
    [None] when its LIFO is empty; the LIFOs left at the end hold the
    opens that were never closed. *)
Definition stackStep (i : nat) (event : Event)
    (stacks : gmap (option nat) (list nat)) : gmap (option nat) (list nat) :=
  match e_type event with
  | TypeO => <[e_frame event := i :: default [] (stacks !! e_frame event)]> stacks
  | TypeC => match stacks !! e_frame event with
         | Some (_ :: stack) => <[e_frame event := stack]> stacks
         | _ => stacks
         end
  end.

Definition poppedOpen (event : Event)
    (stacks : gmap (option nat) (list nat)) : option nat :=
  match stacks !! e_frame event with
  | Some (openIndex :: _) => Some openIndex
  | _ => None
  end.

Fixpoint matchWalk (i : nat) (evs : list Event)
    (stacks : gmap (option nat) (list nat))
    : list (nat * option nat) * gmap (option nat) (list nat) :=
  match evs with
  | [] => ([], stacks)
  | event :: rest =>
      let '(closes, final) := matchWalk (S i) rest (stackStep i event stacks) in
      match e_type event with
      | TypeO => (closes, final)
      | TypeC => ((i, poppedOpen event stacks) :: closes, final)
      end
  end.

(** [(c, Some o)] for every close at index [c] that pops the open at
    index [o], [(c, None)] for every close that pops nothing. *)
Definition closesOf (evs : list Event) : list (nat * option nat) :=
  fst (matchWalk 0 evs ∅).

(** The open indices left unmatched at the end of the walk. *)
Definition unmatchedOpens (evs : list Event) : list nat :=
  remainingOpens (snd (matchWalk 0 evs ∅)).

(** ** Part II.  The symbol map and the region table ([noi-parser.js]) *)

(** *** Strings, as far as [parseNoi] needs them *)

Definition codeOf (c : ascii) : Z := Z.of_N (Ascii.N_of_ascii c).

(** White space of [\s] and of [trim], among the code units below 256. *)
Definition isWhiteSpace (c : ascii) : bool :=
  let n := codeOf c in
  bool_decide (n = 9 ∨ n = 10 ∨ n = 11 ∨ n = 12 ∨ n = 13 ∨ n = 32 ∨ n = 160).

(** The characters the pattern [.] does not match. *)
Definition isLineTerminator (c : ascii) : bool :=
  let n := codeOf c in bool_decide (n = 10 ∨ n = 13).

Fixpoint startsWith (p s : string) : bool :=
  match p, s with
  | EmptyString, _ => true
  | String a p', String b s' => bool_decide (a = b) && startsWith p' s'
  | String _ _, EmptyString => false
  end.

(** The rest of [s] after the prefix [p]. *)
Fixpoint dropPrefix (p s : string) : option string :=
  match p, s with
  | EmptyString, _ => Some s
  | String a p', String b s' => if decide (a = b) then dropPrefix p' s' else None
  | String _ _, EmptyString => None
  end.

(** [/p/.test(s)] for a literal [p]: [p] occurs somewhere in [s]. *)
Fixpoint includes (p s : string) : bool :=
  startsWith p s ||
  match s with
  | EmptyString => false
  | String _ s' => includes p s'
  end.

(** [.*p] anchored at the start of [s]. *)
Fixpoint dotStarThen (p s : string) : bool :=
  startsWith p s ||
  match s with
  | EmptyString => false
  | String c s' => negb (isLineTerminator c) && dotStarThen p s'
  end.

(** [text.split("\n")] *)
Fixpoint splitLines (text : string) : list string :=
  match text with
  | EmptyString => [EmptyString]
  | String c rest =>
      if decide (codeOf c = 10) then EmptyString :: splitLines rest
      else match splitLines rest with
           | [] => [String c EmptyString]
           | line :: lines => String c line :: lines
           end
  end.

(** [line.trim().split(/\s+/)] for a line with a character that is not
    white space: its maximal runs of such characters. *)
Fixpoint tokens (s : string) : list string :=
  match s with
  | EmptyString => []
  | String c rest =>
      if isWhiteSpace c then tokens rest
      else match rest with
           | EmptyString => [String c EmptyString]
           | String d _ =>
               if isWhiteSpace d then String c EmptyString :: tokens rest
               else match tokens rest with
                    | [] => [String c EmptyString]
                    | t :: ts => String c t :: ts
                    end
           end
  end.

Definition hexDigit (c : ascii) : option Z :=
  let n := codeOf c in
  if decide (48 ≤ n ≤ 57) then Some (n - 48)
  else if decide (65 ≤ n ≤ 70) then Some (n - 55)
  else if decide (97 ≤ n ≤ 102) then Some (n - 87)
  else None.

(** The value of the longest prefix of hexadecimal digits, and how many
    digits it has. *)
Fixpoint hexPrefix (acc : Z) (count : nat) (s : string) : Z * nat :=
  match s with
  | EmptyString => (acc, count)
  | String c rest =>
      match hexDigit c with
      | Some d => hexPrefix (16 * acc + d) (S count) rest
      | None => (acc, count)
      end
  end.

(** The Number value of a non-negative integer: exact below [2^53],
    rounded to 53 significant bits (ties to even) above; [None] when the
    rounding overflows to [Infinity]. *)
Definition roundToDouble (n : Z) : option Z :=
  if decide (n < 2 ^ 53) then Some n
  else
    let k := Z.log2 n - 52 in
    let q := Z.shiftr n k in
    let r := n - Z.shiftl q k in
    let half := Z.shiftl 1 (k - 1) in
    let q' := if decide (half < r ∨ (r = half ∧ Z.odd q = true)) then q + 1 else q in
    let v := Z.shiftl q' k in
    if decide (v < 2 ^ 1024) then Some v else None.

(** [parseInt(addrStr, 16)]; [None] stands for [NaN] and the infinities,
    which all become [0] under [&] and [>>].  [addrStr] is a token, so it
    has no leading white space to skip. *)
Definition parseInt16 (addrStr : string) : option Z :=
  let '(negative, s1) :=
    match addrStr with
    | String "-"%char rest => (true, rest)
    | String "+"%char rest => (false, rest)
    | _ => (false, addrStr)
    end in
  let s2 :=
    match s1 with
    | String "0"%char (String "x"%char rest) => rest
    | String "0"%char (String "X"%char rest) => rest
    | _ => s1
    end in
  let '(value, count) := hexPrefix 0 0 s2 in
  match count with
  | 0%nat => None
  | _ => (λ v, if negative then - v else v) <$> roundToDouble value
  end.

(** [symbol.replace(/^F([^$]+)\$/, "")]: an ["F"], at least one character
    other than ["$"], then the first ["$"]. *)
Fixpoint afterFirstDollar (count : nat) (s : string) : option string :=
  match s with
  | EmptyString => None
  | String "$"%char rest => match count with 0%nat => None | _ => Some rest end
  | String _ rest => afterFirstDollar (S count) rest
  end.

Definition stripFPrefix (symbol : string) : string :=
  match symbol with
  | String "F"%char rest => default symbol (afterFirstDollar 0 rest)
  | _ => symbol
  end.

(** [.replace(/\$.*/, "")] on a token: cut at the first ["$"]. *)
Fixpoint cutAtDollar (s : string) : string :=
  match s with
  | EmptyString => EmptyString
  | String "$"%char _ => EmptyString
  | String c rest => String c (cutAtDollar rest)
  end.

(** *** Symbols and regions *)

Record Interrupt := mkInterrupt {
  i_addr : Z;
  i_name : string;
  i_symbol : string
}.

Definition INTERRUPTS : list Interrupt :=
  [ mkInterrupt 0x40 "VBL" "[INTERRUPT] VBL";
    mkInterrupt 0x48 "LCD" "[INTERRUPT] LCD";
    mkInterrupt 0x50 "TIM" "[INTERRUPT] TIM";
    mkInterrupt 0x58 "SIO" "[INTERRUPT] SIO";
    mkInterrupt 0x60 "JOY" "[INTERRUPT] JOY" ].

(** An entry [{ symbol, addr, bank }] of [noiLookup]. *)
Record NoiSymbol := mkNoiSymbol {
  s_symbol : string;
  s_addr : Z;
  s_bank : Z
}.

(** A region [{ symbol, addr, bank, end }]. *)
Record Region := mkRegion {
  r_symbol : string;
  r_addr : Z;
  r_bank : Z;
  r_end : Z
}.

#[global] Instance NoiSymbol_eq_dec : EqDecision NoiSymbol.
Proof. solve_decision. Defined.

#[global] Instance Region_eq_dec : EqDecision Region.
Proof. solve_decision. Defined.

#[global] Instance Interrupt_eq_dec : EqDecision Interrupt.
Proof. solve_decision. Defined.

(** The two tests at the head of the loop body: the [DEF] pattern and the
    eight rejected substrings. *)
Definition isDefLine (line : string) : bool :=
  match dropPrefix "DEF " line with
  | None => false
  | Some rest =>
      startsWith "_" rest || startsWith "F" rest ||
      match dropPrefix "." rest with
      | None => false
      | Some t =>
          dotStarThen "ISR" t || startsWith "remove_" t || startsWith "add_" t ||
          startsWith "mod" t || startsWith "div" t
      end
  end.

Definition isRejected (line : string) : bool :=
  includes "_REG" line || includes "_rRAM" line || includes "_rROM" line ||
  includes "_rMBC" line || includes "__start_save" line ||
  includes "___bank_" line || includes "___func_" line ||
  includes "___mute_mask_" line.

(** The entry an accepted line stands for. *)
Definition parseLine (line : string) : option NoiSymbol :=
  if negb (isDefLine line) then None
  else if isRejected line then None
  else
    let toks := tokens line in
    let symbol := default "" (toks !! 1%nat) in
    let addrStr := default "undefined" (toks !! 2%nat) in
    let fullAddr := default 0 (parseInt16 addrStr) in
    let addr := Z.land fullAddr 0xffff in
    let bank := if decide (addr < 0x4000) then 0
                else Z.land (Z.shiftr fullAddr 16) 0xff in
    Some (mkNoiSymbol (cutAtDollar (stripFPrefix symbol)) addr bank).

(** The loop over the lines; [usedAddr] holds the keys [b<bank>_<addr>],
    here the pairs [(bank, addr)]. *)
Fixpoint parseLines (lines : list string) (usedAddr : gset (Z * Z))
    (result : list NoiSymbol) : list NoiSymbol :=
  match lines with
  | [] => result
  | line :: rest =>
      match parseLine line with
      | None => parseLines rest usedAddr result
      | Some entry =>
          let key := (s_bank entry, s_addr entry) in
          if decide (key ∈ usedAddr) then parseLines rest usedAddr result
          else parseLines rest ({[ key ]} ∪ usedAddr) (result ++ [entry])
      end
  end.

Definition interruptSymbols : list NoiSymbol :=
  (λ interrupt, mkNoiSymbol (i_symbol interrupt) (i_addr interrupt) 0) <$> INTERRUPTS.

(** [parseNoi(text)] *)
Definition parseNoi (text : string) : list NoiSymbol :=
  parseLines (splitLines text) ∅ interruptSymbols.

(** [bankGroups]: a [Map] in insertion order. *)
Fixpoint groupPush (fn : NoiSymbol) (bankGroups : list (Z * list NoiSymbol))
    : list (Z * list NoiSymbol) :=
  match bankGroups with
  | [] => [(s_bank fn, [fn])]
  | (bank, symbols) :: rest =>
      if decide (bank = s_bank fn) then (bank, symbols ++ [fn]) :: rest
      else (bank, symbols) :: groupPush fn rest
  end.

Definition groupByBank (noiLookup : list NoiSymbol) : list (Z * list NoiSymbol) :=
  foldl (λ bankGroups fn, groupPush fn bankGroups) [] noiLookup.

(** [symbols.sort((a, b) => a.addr - b.addr)], stable. *)
Fixpoint insertByAddr (x : NoiSymbol) (l : list NoiSymbol) : list NoiSymbol :=
  match l with
  | [] => [x]
  | y :: l' =>
      if decide (s_addr x - s_addr y ≤ 0) then x :: y :: l'
      else y :: insertByAddr x l'
  end.

Definition sortByAddr (l : list NoiSymbol) : list NoiSymbol :=
  foldr insertByAddr [] l.

Definition withEnd (fn : NoiSymbol) (end_ : Z) : Region :=
  mkRegion (s_symbol fn) (s_addr fn) (s_bank fn) end_.

(** The two assignments of [end] over a sorted group. *)
Fixpoint assignEnds (addrMax : Z) (sorted : list NoiSymbol) : list Region :=
  match sorted with
  | [] => []
  | fn :: rest =>
      match rest with
      | [] => [withEnd fn addrMax]
      | next :: _ => withEnd fn (Z.min addrMax (s_addr next - 1)) :: assignEnds addrMax rest
      end
  end.

Definition bankMax (bank : Z) : Z :=
  if decide (bank = 0) then 0x3fff else 0x7fff.

Definition regionsOfGroup (group : Z * list NoiSymbol) : list Region :=
  assignEnds (bankMax (fst group)) (sortByAddr (snd group)).

(** [generateFunctionRegions(noiLookup)] *)
Definition generateFunctionRegions (noiLookup : list NoiSymbol) : list Region :=
  concat (regionsOfGroup <$> groupByBank noiLookup).

(** ** Part III.  The call-stack engine ([BenchmarkRunner]) *)

Definition CYCLES_PER_FRAME : Z := 70256.
Definition IGNORE_SYMBOLS : list string := [".add_VBL"; ".add_int"; "_display_off"].
Definition RETI : Z := 0xd9.

(** [getGBTime()], from the emulator's per-frame cycle counter [clock.c]
    and [framesElapsed]. *)
Definition getGBTime (clock_c framesElapsed : Z) : Z :=
  clock_c + framesElapsed * CYCLES_PER_FRAME.

(** Regions and interrupt entries are both handed to the stack
    operations, which read nothing but their [symbol]. *)
Class HasSymbol (A : Type) := symbolOf : A → string.

#[global] Instance Region_HasSymbol : HasSymbol Region := r_symbol.
#[global] Instance Interrupt_HasSymbol : HasSymbol Interrupt := i_symbol.

(** A frame of [fnStack]. *)
Record Frame := mkFrame {
  f_symbol : string;
  f_addr : Z;
  f_clock : Z;
  f_childPushed : bool;
  f_openPrinted : bool;
  f_indent : nat
}.

#[global] Instance Frame_eq_dec : EqDecision Frame.
Proof. solve_decision. Defined.

(** The fields of the runner that the hooks read and write.  The
    verbose log is an output only and is left out. *)
Record Runner := mkRunner {
  regionsByBank : gmap Z (list Region);
  noiIndex : gmap string nat;
  currentFnRegion : option Region;
  fnStack : list Frame;
  interruptStack : list Interrupt;
  speedscope : Trace
}.

Definition setCurrentFnRegion (this : Runner) (fn : option Region) : Runner :=
  mkRunner (regionsByBank this) (noiIndex this) fn (fnStack this)
           (interruptStack this) (speedscope this).

Definition setStack (this : Runner) (stack : list Frame) (trace : Trace) : Runner :=
  mkRunner (regionsByBank this) (noiIndex this) (currentFnRegion this) stack
           (interruptStack this) trace.

Definition setInterruptStack (this : Runner) (stack : list Interrupt) : Runner :=
  mkRunner (regionsByBank this) (noiIndex this) (currentFnRegion this)
           (fnStack this) stack (speedscope this).

(** [initialize]: the two lookup tables built from the NOI data. *)
Definition buildRegionsByBank (functionRegions : list Region) : gmap Z (list Region) :=
  foldl (λ byBank region,
           <[r_bank region := default [] (byBank !! r_bank region) ++ [region]]> byBank)
        ∅ functionRegions.

(** [noiIndex[symbol] = i] for every entry; the last index of a symbol
    wins.  [noiIndex] is a plain object: an assignment to the key
    ["__proto__"] goes to the setter it inherits, which ignores a number,
    so this key never gets an index.  (The other names a plain object
    inherits are data properties, which an assignment shadows.) *)
Fixpoint buildNoiIndex (i : nat) (noiLookup : list NoiSymbol)
    (index : gmap string nat) : gmap string nat :=
  match noiLookup with
  | [] => index
  | fn :: rest =>
      buildNoiIndex (S i) rest
        (if decide (s_symbol fn = "__proto__") then index
         else <[s_symbol fn := i]> index)
  end.

(** The runner after [initialize]; [noiData] is [None] when absent, and
    the empty text is as good as absent. *)
Definition initialize (noiData : option string) : Runner :=
  let noiLookup :=
    match noiData with
    | None | Some EmptyString => []
    | Some text => parseNoi text
    end in
  mkRunner (buildRegionsByBank (generateFunctionRegions noiLookup))
           (buildNoiIndex 0 noiLookup ∅)
           None [] []
           (createSpeedscopeTrace (s_symbol <$> noiLookup)).

(** The sticky test of [getCurrentFunctionRegion]. *)
Definition sticky (fn : Region) (pc bank : Z) : bool :=
  bool_decide (r_addr fn ≤ pc ∧ pc ≤ r_end fn) &&
  bool_decide (pc < 0x4000 ∨ r_bank fn = bank).

Definition containsPc (pc : Z) (fn : Region) : bool :=
  bool_decide (r_addr fn ≤ pc ∧ pc ≤ r_end fn).

Definition targetBankOf (pc bank : Z) : Z :=
  if decide (pc < 0x4000) then 0 else bank.

(** [Array.prototype.find] *)
Fixpoint find_ {A} (p : A → bool) (l : list A) : option A :=
  match l with
  | [] => None
  | x :: l' => if p x then Some x else find_ p l'
  end.

(** [getCurrentFunctionRegion(pc, bank)] *)
Definition getCurrentFunctionRegion (this : Runner) (pc bank : Z) : option Region :=
  match currentFnRegion this with
  | Some fn => if sticky fn pc bank then Some fn
               else
                 match regionsByBank this !! targetBankOf pc bank with
                 | None => None
                 | Some bankRegions => find_ (containsPc pc) bankRegions
                 end
  | None =>
      match regionsByBank this !! targetBankOf pc bank with
      | None => None
      | Some bankRegions => find_ (containsPc pc) bankRegions
      end
  end.

Definition markParent (stack : list Frame) : list Frame :=
  match stack with
  | [] => []
  | parent :: rest =>
      mkFrame (f_symbol parent) (f_addr parent) (f_clock parent) true true
              (f_indent parent) :: rest
  end.

(** [pushFrame(fn)], at the clock [clockNow = getGBTime()]. *)
Definition pushFrame (this : Runner) (clockNow : Z) (fn : Region) : Runner :=
  let stack := markParent (fnStack this) in
  setStack this
    (mkFrame (r_symbol fn) (r_addr fn) clockNow false false (length stack) :: stack)
    (addOpenEvent (speedscope this) (noiIndex this !! r_symbol fn) clockNow).

(** [fnStackContains(searchFn)] *)
Definition fnStackContains `{HasSymbol A} (this : Runner) (searchFn : A) : bool :=
  existsb (λ fn, bool_decide (f_symbol fn = symbolOf searchFn)) (fnStack this).

(** The [while] loop of [popFramesUntil]; [symbol] is [fn?.symbol]. *)
Fixpoint popUntilLoop (index : gmap string nat) (clockNow : Z)
    (symbol : option string) (stack : list Frame) (trace : Trace)
    : list Frame * Trace :=
  match stack with
  | [] => ([], trace)
  | poppedFn :: rest =>
      if decide (Some (f_symbol poppedFn) ≠ symbol) then
        popUntilLoop index clockNow symbol rest
          (addCloseEvent trace (index !! f_symbol poppedFn)
             (Z.max clockNow (f_clock poppedFn)) (f_clock poppedFn))
      else (stack, trace)
  end.

(** [popFramesUntil(fn)]; [fn] is [None] for the call without argument. *)
Definition popFramesUntil `{HasSymbol A} (this : Runner) (clockNow : Z)
    (fn : option A) : Runner :=
  match fn with
  | Some fn' =>
      if negb (fnStackContains this fn') then this
      else
        let '(stack, trace) :=
          popUntilLoop (noiIndex this) clockNow (Some (symbolOf fn'))
                       (fnStack this) (speedscope this) in
        setStack this stack trace
  | None =>
      let '(stack, trace) :=
        popUntilLoop (noiIndex this) clockNow None (fnStack this) (speedscope this) in
      setStack this stack trace
  end.

(** The [while] loop of [popFramesIncluding]. *)
Fixpoint popIncludingLoop (index : gmap string nat) (clockNow : Z)
    (symbol : option string) (stack : list Frame) (trace : Trace)
    : list Frame * Trace :=
  match stack with
  | [] => ([], trace)
  | poppedFn :: rest =>
      let trace' :=
        addCloseEvent trace (index !! f_symbol poppedFn) clockNow (f_clock poppedFn) in
      if decide (Some (f_symbol poppedFn) = symbol) then (rest, trace')
      else popIncludingLoop index clockNow symbol rest trace'
  end.

(** [popFramesIncluding(fn)] *)
Definition popFramesIncluding `{HasSymbol A} (this : Runner) (clockNow : Z)
    (fn : option A) : Runner :=
  match fn with
  | Some fn' =>
      if negb (fnStackContains this fn') then this
      else
        let '(stack, trace) :=
          popIncludingLoop (noiIndex this) clockNow (Some (symbolOf fn'))
                           (fnStack this) (speedscope this) in
        setStack this stack trace
  | None =>
      let '(stack, trace) :=
        popIncludingLoop (noiIndex this) clockNow None (fnStack this) (speedscope this) in
      setStack this stack trace
  end.

(** The [while] loop of [popInterrupts], over what is left of
    [interruptStack]. *)
Fixpoint popInterruptsLoop (clockNow : Z) (interrupts : list Interrupt)
    (this : Runner) : Runner :=
  match interrupts with
  | [] => this
  | interrupted :: rest =>
      popInterruptsLoop clockNow rest
        (popFramesIncluding (setInterruptStack this rest) clockNow (Some interrupted))
  end.

(** [popInterrupts()] *)
Definition popInterrupts (this : Runner) (clockNow : Z) : Runner :=
  popInterruptsLoop clockNow (interruptStack this) this.

(** The hook [onAfterInstruction(opcode)]; [pc] and [bank] are read from
    the emulator, [clockNow] is what [getGBTime()] returns during the
    call.  The test [newFn === this.currentFnRegion] is an equality of
    records: the resolver returns the cached region exactly when the
    sticky test passes. *)
Definition onAfterInstruction (this : Runner) (opcode pc bank clockNow : Z) : Runner :=
  if decide (opcode = RETI) then popInterrupts this clockNow
  else
    match getCurrentFunctionRegion this pc bank with
    | None => this
    | Some newFn =>
        if decide (Some newFn = currentFnRegion this) then this
        else if bool_decide (r_symbol newFn ∈ IGNORE_SYMBOLS) then this
        else if decide (pc = r_addr newFn) then
          setCurrentFnRegion (pushFrame this clockNow newFn) (Some newFn)
        else if fnStackContains this newFn then
          setCurrentFnRegion (popFramesUntil this clockNow (Some newFn)) (Some newFn)
        else if decide (0 < length (interruptStack this))%nat then this
        else if decide (0x4000 ≤ pc) then
          setCurrentFnRegion (pushFrame this clockNow newFn) (Some newFn)
        else setCurrentFnRegion this (Some newFn)
    end.

(** The hook [onInterrupt(interrupt)]; [None] when [INTERRUPTS[interrupt]]
    is [undefined] and reading its [symbol] throws. *)
Definition onInterrupt (this : Runner) (interrupt : nat) (clockNow : Z) : option Runner :=
  match INTERRUPTS !! interrupt with
  | None => None
  | Some entry =>
      let this1 := popInterrupts this clockNow in
      let this2 := setInterruptStack this1 (entry :: interruptStack this1) in
      Some (setStack this2
              (mkFrame (i_symbol entry) (i_addr entry) clockNow false false
                       (length (fnStack this2)) :: fnStack this2)
              (addOpenEvent (speedscope this2) (noiIndex this2 !! i_symbol entry) clockNow))
  end.

(** The end of [run]: [this.popFramesUntil()] and [finalizeTrace]. *)
Definition shutdown (this : Runner) (clockNow captureStartTime : Z) : Trace :=
  finalizeTrace
    (speedscope (popFramesUntil (A := Region) this clockNow None))
    (Some captureStartTime).

(** ** Part IV.  Vocabulary of the properties *)

(** *** The call-stack engine *)

(** The close event written for a frame popped at [clockNow]. *)
Definition closeAt (index : gmap string nat) (clockNow : Z) (frame : Frame) : Event :=
  mkEvent TypeC clockNow (index !! f_symbol frame) (Some (f_clock frame)).

(** The close event written by [popFramesUntil], which clamps. *)
Definition closeClamped (index : gmap string nat) (clockNow : Z) (frame : Frame) : Event :=
  mkEvent TypeC (Z.max clockNow (f_clock frame)) (index !! f_symbol frame)
          (Some (f_clock frame)).

Definition appendEvents (trace : Trace) (evs : list Event) : Trace :=
  withEvents trace (events trace ++ evs).

(** What [popFramesIncluding] leaves of a runner. *)
Record PoppedFrom (this after : Runner) (clockNow : Z) (popped : list Frame) : Prop := {
  popped_stack : fnStack this = popped ++ fnStack after;
  popped_trace :
    speedscope after
    = appendEvents (speedscope this) (closeAt (noiIndex this) clockNow <$> popped);
  popped_regions : regionsByBank after = regionsByBank this;
  popped_index : noiIndex after = noiIndex this;
  popped_current : currentFnRegion after = currentFnRegion this
}.

(** The unwinding of one level of interrupt, as one turn of the loop of
    [popInterrupts] does it. *)
Definition unwindTopInterrupt (clockNow : Z) (this : Runner) : Runner :=
  match interruptStack this with
  | [] => this
  | top :: rest => popFramesIncluding (setInterruptStack this rest) clockNow (Some top)
  end.

(** The states the two hooks lead to. *)
Inductive reachable (init : Runner) : Runner → Prop :=
  | reach_init : reachable init init
  | reach_instruction this opcode pc bank clockNow :
      reachable init this →
      reachable init (onAfterInstruction this opcode pc bank clockNow)
  | reach_interrupt this interrupt clockNow after :
      reachable init this →
      onInterrupt this interrupt clockNow = Some after →
      reachable init after.

(** The reading of a RETI that unwinds one level only: the frames above
    the topmost frame of the topmost interrupt go, then that frame, and
    the interrupt stack loses its top and nothing else. *)
Definition RetiUnwindsOneLevel (this : Runner) (pc bank clockNow : Z) : Prop :=
  ∀ top rest above frame below,
    interruptStack this = top :: rest →
    fnStack this = above ++ frame :: below →
    f_symbol frame = i_symbol top →
    Forall (λ f, f_symbol f ≠ i_symbol top) above →
    let after := onAfterInstruction this RETI pc bank clockNow in
    interruptStack after = rest ∧
    fnStack after = below ∧
    events (speedscope after)
    = events (speedscope this) ++ (closeAt (noiIndex this) clockNow <$> (above ++ [frame])).

(** The lookup in [regionsByBank] followed by [find]. *)
Definition findInBank (this : Runner) (pc bank : Z) : option Region :=
  match regionsByBank this !! targetBankOf pc bank with
  | None => None
  | Some bankRegions => find_ (containsPc pc) bankRegions
  end.

(** *** The region table *)

(** What [parseNoi] guarantees of every entry. *)
Definition SymbolInRange (s : NoiSymbol) : Prop :=
  0 ≤ s_addr s ≤ 0xffff ∧ 0 ≤ s_bank s ≤ 0xff ∧ (s_addr s < 0x4000 → s_bank s = 0).

Definition GroupsWF (P : NoiSymbol → Prop) (groups : list (Z * list NoiSymbol)) : Prop :=
  NoDup (fst <$> groups) ∧
  Forall (λ g, Forall (λ s, s_bank s = fst g ∧ P s) (snd g)) groups.

Definition addrLe (a b : NoiSymbol) : Prop := s_addr a ≤ s_addr b.

(** Every end is the bank's last address, or lies just below the next
    region of the table, which belongs to the same bank. *)
Definition EndsChained (regions : list Region) : Prop :=
  ∀ (i : nat) r, regions !! i = Some r →
    r_end r = bankMax (r_bank r) ∨
    ∃ next, regions !! S i = Some next ∧ r_bank next = r_bank r ∧
            r_addr r ≤ r_addr next ∧
            r_end r = Z.min (bankMax (r_bank r)) (r_addr next - 1).

Definition apart (r1 r2 : Region) : Prop :=
  r_bank r1 = r_bank r2 → r_end r1 < r_addr r2.

(** The region table required of [generateFunctionRegions]: every region
    has [addr ≤ end] and [addr] in [[0, bankMax]], and regions of one bank
    do not overlap. *)
Definition RegionsWellFormed (regions : list Region) : Prop :=
  Forall (λ r, r_addr r ≤ r_end r ∧ 0 ≤ r_addr r ≤ bankMax (r_bank r)) regions ∧
  ForallOrdPairs (λ r1 r2, r_bank r1 = r_bank r2 →
                   ∀ pc, ¬ (containsPc pc r1 = true ∧ containsPc pc r2 = true)) regions.

(** *** The capture-start filter *)

(** An open index waits on some stack. *)
Definition onStack (stacks : gmap (option nat) (list nat)) (j : nat) : Prop :=
  ∃ f s, stacks !! f = Some s ∧ j ∈ s.

(** The flags at the end of both loops, from the state reached at index
    [i] with [evs] still to walk. *)
Definition finalFlags (start : Z) (i : nat) (evs : list Event) (st : FilterState)
    : list bool :=
  includeRemaining (filterLoop start i evs st).

(** What the loop maintains: the indices on the stacks are earlier opens,
    not yet flagged, each on one stack once; and no flag is set from the
    current index on. *)
Record FilterInv (i : nat) (st : FilterState) : Prop := {
  inv_lt : ∀ f s j, stackByFrame st !! f = Some s → j ∈ s → (j < i)%nat;
  inv_undecided : ∀ f s j,
    stackByFrame st !! f = Some s → j ∈ s → include st !! j = Some false;
  inv_nodup : ∀ f s, stackByFrame st !! f = Some s → NoDup s;
  inv_disjoint : ∀ f g s t j,
    stackByFrame st !! f = Some s → stackByFrame st !! g = Some t →
    j ∈ s → j ∈ t → f = g;
  inv_fresh : ∀ j, (i ≤ j)%nat → (j < length (include st))%nat →
    include st !! j = Some false
}.

(** The suffix [evs] sits at the indices [i, i+1, ...] of [total]. *)
Definition suffixAt (total : list Event) (i : nat) (evs : list Event) : Prop :=
  ∀ (k : nat) e, evs !! k = Some e → total !! (i + k)%nat = Some e.

(** The stacks of the walk over the retained events are as deep as the
    flagged part of the stacks of the walk over all events. *)
Definition depthsAgree (F : list bool)
    (cs stacks : gmap (option nat) (list nat)) : Prop :=
  ∀ f, length (default [] (cs !! f))
       = length (filter (λ j, F !! j = Some true) (default [] (stacks !! f))).

(** The stacks of a walk over [total] hold earlier opens of their own
    frame index. *)
Definition stacksTagged (total : list Event) (i : nat)
    (stacks : gmap (option nat) (list nat)) : Prop :=
  ∀ f s j, stacks !! f = Some s → j ∈ s →
    (j < i)%nat ∧ ∃ open, total !! j = Some open ∧ e_type open = TypeO ∧ e_frame open = f.

Definition evLe (a b : Event) : Prop := compareEvents a b ≤ 0.

(** *** Sample runs and traces *)

Definition LF : string := String (ascii_of_nat 10) EmptyString.

Definition VBL : Interrupt := mkInterrupt 0x40 "VBL" "[INTERRUPT] VBL".
Definition LCD : Interrupt := mkInterrupt 0x48 "LCD" "[INTERRUPT] LCD".

(** A runner with [_main] interrupted by VBL, itself interrupted by LCD. *)
Definition nestedInterrupts : Runner :=
  let base := initialize (Some "DEF _main 0x150") in
  mkRunner (regionsByBank base) (noiIndex base) None
    [ mkFrame "[INTERRUPT] LCD" 0x48 1100 false false 2;
      mkFrame "[INTERRUPT] VBL" 0x40 1000 false false 1;
      mkFrame "_main" 0x150 10 true true 0 ]
    [ LCD; VBL ]
    (appendEvents (speedscope base)
       [ mkEvent TypeO 10 (Some 5%nat) None;
         mkEvent TypeO 1000 (Some 0%nat) None;
         mkEvent TypeO 1100 (Some 1%nat) None ]).

(** VBL dispatched over [_main], then a RETI: exactly that interrupt is
    unwound. *)
Definition oneInterrupt : Runner :=
  let base := initialize (Some "DEF _main 0x150") in
  mkRunner (regionsByBank base) (noiIndex base) None
    [ mkFrame "[INTERRUPT] VBL" 0x40 1000 false false 1;
      mkFrame "_main" 0x150 10 true true 0 ]
    [ VBL ]
    (appendEvents (speedscope base)
       [ mkEvent TypeO 10 (Some 5%nat) None;
         mkEvent TypeO 1000 (Some 0%nat) None ]).

(** [_f] exists in bank 1 and in bank 2; [_f] of bank 1 is entered, then
    [_g]; the next instruction lands inside [_f] of bank 2. *)
Definition sameNameTwoBanks : Runner :=
  let init := initialize (Some ("DEF _f 0x14100" ++ LF ++ "DEF _g 0x14200" ++ LF ++
                                "DEF _f 0x24300")%string) in
  onAfterInstruction (onAfterInstruction init 0 0x4100 1 10) 0 0x4200 1 20.

(** [_a] ends at [0x1ff], just below [_b]: a [pc] of [0x1ff] is in [_a]. *)
Definition twoFunctions : Runner :=
  initialize (Some ("DEF _a 0x100" ++ LF ++ "DEF _b 0x200")%string).

(** Two pairs of frame 0 around the capture start at cycle 4, and an open
    of frame 1 that is never closed. *)
Definition straddlingTrace : list Event :=
  [ mkEvent TypeO 1 (Some 0%nat) None;
    mkEvent TypeC 2 (Some 0%nat) (Some 1);
    mkEvent TypeO 3 (Some 0%nat) None;
    mkEvent TypeC 5 (Some 0%nat) (Some 3);
    mkEvent TypeO 6 (Some 1%nat) None ].

(** A map file with a function, a variable in work RAM, a banked
    function under a debugger name, a helper, a line without address, a
    handler at the VBL vector, and two lines that are not accepted. *)
Definition sampleNoi : string :=
  ("DEF _main 0x150" ++ LF ++ "DEF _shadow_OAM 0xC000" ++ LF ++
   "DEF Ffoo$_bar$0$0 0x14100" ++ LF ++ "DEF .mod 0x200" ++ LF ++
   "DEF _y" ++ LF ++ "DEF _vbl   0x40 " ++ LF ++
   "DEF s__CODE 0x200" ++ LF ++ "DEF _P1_REG 0xFF00")%string.

(** [_main] calls [_foo], which returns into [_main]: the PC trace
    [0x150, 0x151, 0x200, 0x201, 0x152] at the cycles 0 to 4. *)
Definition simpleCall : Runner :=
  let init := initialize (Some ("DEF _main 0x150" ++ LF ++ "DEF _foo 0x200")%string) in
  let s1 := onAfterInstruction init 0 0x150 1 0 in
  let s2 := onAfterInstruction s1 0 0x151 1 1 in
  let s3 := onAfterInstruction s2 0 0x200 1 2 in
  let s4 := onAfterInstruction s3 0 0x201 1 3 in
  onAfterInstruction s4 0 0x152 1 4.

(** [_main] has called [_foo]; VBL is dispatched at cycle 1000, its
    handler runs one instruction and returns with RETI at cycle 1200. *)
Definition interruptDuringFunction : option Runner :=
  let init := initialize (Some ("DEF _main 0x150" ++ LF ++ "DEF _foo 0x200")%string) in
  let s1 := onAfterInstruction init 0 0x150 1 0 in
  let s2 := onAfterInstruction s1 0 0x200 1 2 in
  match onInterrupt s2 0 1000 with
  | Some s3 =>
      Some (onAfterInstruction (onAfterInstruction s3 0 0x41 1 1004) RETI 0x201 1 1200)
  | None => None
  end.

(** [_boot] in bank 0 and [_x] in bank 1, entered with ROM bank 1 mapped. *)
Definition bankSwitch : Runner :=
  let init := initialize (Some ("DEF _boot 0x100" ++ LF ++ "DEF _x 0x14100")%string) in
  onAfterInstruction (onAfterInstruction init 0 0x100 1 0) 0 0x4100 1 5.

(** ** Part V.  The rest of the emitter and of the runner *)

(** *** [getEventsBetween] ([speedscope.js]) *)

(** The [frame] of an active event: a number, [undefined] (the [frame] of
    the close event), or [NaN] (from [parseInt("undefined", 10)]). *)
Inductive FrameRef := FrameNumber (n : nat) | FrameUndefined | FrameNaN.

#[global] Instance FrameRef_eq_dec : EqDecision FrameRef.
Proof. solve_decision. Defined.

(** An entry [{ start, end, frame }]; [a_end] is [None] for [Infinity]. *)
Record ActiveEvent := mkActiveEvent {
  a_start : Z;
  a_end : option Z;
  a_frame : FrameRef
}.

#[global] Instance ActiveEvent_eq_dec : EqDecision ActiveEvent.
Proof. solve_decision. Defined.

Definition frameRefOf (frame : option nat) : FrameRef :=
  match frame with Some n => FrameNumber n | None => FrameUndefined end.

(** [parseInt(frame, 10)] of a property key of [stack]. *)
Definition parsedKey (frame : option nat) : FrameRef :=
  match frame with Some n => FrameNumber n | None => FrameNaN end.

(** One turn of the first loop: [stack] maps a frame to the [at] of its
    opens (head = last pushed), [activeEvents] grows at the end. *)
Definition betweenStep (st : gmap (option nat) (list Z) * list ActiveEvent)
    (event : Event) : gmap (option nat) (list Z) * list ActiveEvent :=
  let '(stack, activeEvents) := st in
  match e_type event with
  | TypeO =>
      (<[e_frame event := e_at event :: default [] (stack !! e_frame event)]> stack,
       activeEvents)
  | TypeC =>
      match stack !! e_frame event with
      | Some (startTime :: times) =>
          (<[e_frame event := times]> stack,
           activeEvents ++
             [mkActiveEvent startTime (Some (e_at event)) (frameRefOf (e_frame event))])
      | _ => st
      end
  end.

(** The order of [Object.entries(stack)]: the numeric keys ascending,
    then the key ["undefined"].  (Frame indices are array indices.) *)
Definition keyLe (a b : option nat) : bool :=
  match a, b with
  | Some x, Some y => bool_decide (x ≤ y)%nat
  | Some _, None => true
  | None, Some _ => false
  | None, None => true
  end.

Fixpoint insertEntry (x : option nat * list Z) (l : list (option nat * list Z))
    : list (option nat * list Z) :=
  match l with
  | [] => [x]
  | y :: l' => if keyLe (fst x) (fst y) then x :: y :: l' else y :: insertEntry x l'
  end.

Definition objectEntries (stack : gmap (option nat) (list Z))
    : list (option nat * list Z) :=
  foldr insertEntry [] (map_to_list stack).

(** The second loop: the opens never closed, oldest first within a
    frame. *)
Definition ongoingEvents (stack : gmap (option nat) (list Z)) : list ActiveEvent :=
  concat ((λ entry, (λ startTime, mkActiveEvent startTime None (parsedKey (fst entry)))
                      <$> reverse (snd entry))
          <$> objectEntries stack).

(** [ev.end > start && ev.start < end] *)
Definition overlaps (start end_ : Z) (ev : ActiveEvent) : bool :=
  match a_end ev with
  | Some e => bool_decide (start < e)
  | None => true
  end && bool_decide (a_start ev < end_).

(** The active events before the final [filter]. *)
Definition activeEventsOf (evs : list Event) : list ActiveEvent :=
  let '(stack, activeEvents) := foldl betweenStep (∅, []) evs in
  activeEvents ++ ongoingEvents stack.

(** [getEventsBetween(events, start, end)] *)
Definition getEventsBetween (evs : list Event) (start end_ : Z) : list ActiveEvent :=
  List.filter (overlaps start end_) (activeEventsOf evs).

(** *** The hooks as the emulator calls them *)

(** A call of one of the two hooks. *)
Inductive HookCall :=
  | OnAfterInstruction (opcode pc bank : Z)
  | OnInterrupt (interrupt : nat).

(** One call, at the clock [clockNow]; [None] when the hook throws. *)
Definition callHook (this : Runner) (clockNow : Z) (call : HookCall) : option Runner :=
  match call with
  | OnAfterInstruction opcode pc bank => Some (onAfterInstruction this opcode pc bank clockNow)
  | OnInterrupt interrupt => onInterrupt this interrupt clockNow
  end.

(** The calls of one [gb.cpu.frame()], each with the cycle counter
    [clock.c] it is made at; [framesElapsed] does not change meanwhile. *)
Fixpoint callHooks (this : Runner) (framesElapsed : Z) (calls : list (Z * HookCall))
    : option Runner :=
  match calls with
  | [] => Some this
  | (clock_c, call) :: rest =>
      match callHook this (getGBTime clock_c framesElapsed) call with
      | None => None
      | Some this' => callHooks this' framesElapsed rest
      end
  end.

(** *** [run] *)

Inductive CaptureMode := CaptureAll | CaptureExit | CaptureNone.

#[global] Instance CaptureMode_eq_dec : EqDecision CaptureMode.
Proof. solve_decision. Defined.

(** What the emulator and the host contribute to one turn of the frame
    loop: the cycle counter when the frame starts, the hook calls of
    [gb.cpu.frame()], and the [src] of the capture that [onFrameComplete]
    resolves to, if it is set and resolves to one. *)
Record FrameInput := mkFrameInput {
  fi_startClock : Z;
  fi_calls : list (Z * HookCall);
  fi_capture : option string
}.

(** The variables of the frame loop. *)
Record RunState := mkRunState {
  rs_runner : Runner;
  rs_framesElapsed : Z;
  rs_captureStartTime : Z;
  rs_captures : list string
}.

Definition withTrace (this : Runner) (trace : Trace) : Runner :=
  mkRunner (regionsByBank this) (noiIndex this) (currentFnRegion this)
           (fnStack this) (interruptStack this) trace.

(** One turn of [for (let i = 0; i < totalFrames; i++)], for a runner
    with [verbose] unset, as it is unless asked for: [logFrameReport]
    returns at once.  (With [verbose] set it reads
    [shared.frames[e.frame].name] and throws on an event without a frame
    index.) *)
Definition runFrame (startFrame totalFrames : nat) (captureMode : CaptureMode)
    (i : nat) (input : FrameInput) (st : RunState) : option RunState :=
  let frameStartTime := getGBTime (fi_startClock input) (rs_framesElapsed st) in
  match callHooks (rs_runner st) (rs_framesElapsed st) (fi_calls input) with
  | None => None
  | Some this =>
      let framesElapsed := rs_framesElapsed st + 1 in
      if decide (startFrame ≤ i)%nat then
        let captureStartTime :=
          if decide (rs_captureStartTime st = 0) then frameStartTime
          else rs_captureStartTime st in
        match captureMode, fi_capture input with
        | CaptureAll, Some src =>
            Some (mkRunState
                    (withTrace this
                       (addCapture (speedscope this) src frameStartTime (Z.of_nat i)))
                    framesElapsed captureStartTime (rs_captures st ++ [src]))
        | CaptureExit, Some src =>
            if decide (i = totalFrames - 1)%nat then
              Some (mkRunState this framesElapsed captureStartTime (rs_captures st ++ [src]))
            else Some (mkRunState this framesElapsed captureStartTime (rs_captures st))
        | _, _ => Some (mkRunState this framesElapsed captureStartTime (rs_captures st))
        end
      else Some (mkRunState this framesElapsed (rs_captureStartTime st) (rs_captures st))
  end.

(** The frame loop from turn [i] on, over the inputs of the turns left. *)
Fixpoint runFrames (startFrame totalFrames : nat) (captureMode : CaptureMode)
    (i : nat) (inputs : list FrameInput) (st : RunState) : option RunState :=
  match inputs with
  | [] => Some st
  | input :: rest =>
      match runFrame startFrame totalFrames captureMode i input st with
      | None => None
      | Some st' => runFrames startFrame totalFrames captureMode (S i) rest st'
      end
  end.

(** [run()], for a runner with [this.startFrame] and [this.frames] and
    with [verbose] unset, over
    the [startFrame + frames] turns of the loop; [emulator i] is what turn
    [i] receives, [finalClock] the cycle counter at the last
    [popFramesUntil()].  The result is the trace and the captures, or
    [None] when a hook throws. *)
Definition run (noiData : option string) (startFrame frames : nat)
    (captureMode : CaptureMode) (emulator : nat → FrameInput) (finalClock : Z)
    : option (Trace * list string) :=
  let totalFrames := (startFrame + frames)%nat in
  match runFrames startFrame totalFrames captureMode 0
          (emulator <$> seq 0 totalFrames)
          (mkRunState (initialize noiData) 0 0 []) with
  | None => None
  | Some st =>
      let this := popFramesUntil (A := Region) (rs_runner st)
                    (getGBTime finalClock (rs_framesElapsed st)) None in
      Some (finalizeTrace (speedscope this) (Some (rs_captureStartTime st)),
            rs_captures st)
  end.

(** *** Vocabulary for [getEventsBetween] *)

(** The two results of the first loop of [getEventsBetween]. *)
Definition openTimes (evs : list Event) : gmap (option nat) (list Z) :=
  fst (foldl betweenStep (∅, []) evs).

Definition pairedEvents (evs : list Event) : list ActiveEvent :=
  snd (foldl betweenStep (∅, []) evs).

(** The [at] of the event at index [j]. *)
Definition atOf (total : list Event) (j : nat) : Z :=
  default 0 (e_at <$> total !! j).

(** The interval of a close of the matching walk and the open it pops. *)
Definition intervalOf (evs : list Event) (cm : nat * option nat) : option ActiveEvent :=
  match cm with
  | (c, Some o) =>
      match evs !! o, evs !! c with
      | Some open, Some close =>
          Some (mkActiveEvent (e_at open) (Some (e_at close)) (frameRefOf (e_frame close)))
      | _, _ => None
      end
  | (_, None) => None
  end.

(** The stacks of [getEventsBetween] that go with stacks of indices. *)
Definition timesOf (total : list Event) (istack : gmap (option nat) (list nat))
    : gmap (option nat) (list Z) :=
  (λ s : list nat, atOf total <$> s) <$> istack.

(** The open-ended interval of the open at index [o]. *)
Definition openIntervalOf (evs : list Event) (o : nat) : option ActiveEvent :=
  (λ open, mkActiveEvent (e_at open) None (parsedKey (e_frame open))) <$> evs !! o.

(** *** Vocabulary for the symbol map *)

(** The entry of [noiLookup] a region was made from. *)
Definition symbolOfRegion (r : Region) : NoiSymbol :=
  mkNoiSymbol (r_symbol r) (r_addr r) (r_bank r).

(** The key [b<bank>_<addr>] of an entry. *)
Definition keyOf (e : NoiSymbol) : Z * Z := (s_bank e, s_addr e).

(** Some character of [s] satisfies [p]. *)
Fixpoint hasChar (p : ascii → bool) (s : string) : bool :=
  match s with
  | EmptyString => false
  | String c rest => p c || hasChar p rest
  end.

Definition isDollar (c : ascii) : bool := bool_decide (c = "$"%char).


(** *** Vocabulary for the hooks *)

(** The end of [onInterrupt], after [popInterrupts]: the interrupt goes on
    both stacks and its frame is opened. *)
Definition openInterrupt (this : Runner) (entry : Interrupt) (clockNow : Z) : Runner :=
  let this2 := setInterruptStack this (entry :: interruptStack this) in
  setStack this2
    (mkFrame (i_symbol entry) (i_addr entry) clockNow false false
             (length (fnStack this2)) :: fnStack this2)
    (addOpenEvent (speedscope this2) (noiIndex this2 !! i_symbol entry) clockNow).

(** A sequence of hook calls, each with the clock [getGBTime()] returns
    during the call. *)
Fixpoint runHooks (this : Runner) (calls : list (Z * HookCall)) : option Runner :=
  match calls with
  | [] => Some this
  | (clockNow, call) :: rest =>
      match callHook this clockNow call with
      | None => None
      | Some this' => runHooks this' rest
      end
  end.

(** The frame index that the events of a stack frame carry. *)
Definition frameIndexOf (this : Runner) (f : Frame) : option nat :=
  noiIndex this !! f_symbol f.

(** Reading events in the order they were written against one stack of
    frame indices (head = innermost): an open pushes its frame, a close
    has to find its own frame innermost and pops it.  [None] when some
    close does not. *)
Fixpoint nestWalk (stack : list (option nat)) (evs : list Event)
    : option (list (option nat)) :=
  match evs with
  | [] => Some stack
  | e :: rest =>
      match e_type e with
      | TypeO => nestWalk (e_frame e :: stack) rest
      | TypeC =>
          match stack with
          | top :: below => if decide (top = e_frame e) then nestWalk below rest else None
          | [] => None
          end
      end
  end.

(** A close event that does not end before it starts. *)
Definition closeOk (e : Event) : Prop :=
  e_type e = TypeC → ∃ start, e_start e = Some start ∧ start ≤ e_at e.

Definition atLe (a b : Event) : Prop := e_at a ≤ e_at b.

(** The region table and the list of frame names that [initialize] works
    from. *)
Definition noiLookupOf (noiData : option string) : list NoiSymbol :=
  match noiData with
  | None | Some EmptyString => []
  | Some text => parseNoi text
  end.

Definition tableOf (noiData : option string) : list Region :=
  generateFunctionRegions (noiLookupOf noiData).


(** The events of the trace mirror the stack: read in the order they
    were written, they are well nested and leave open the frames of
    [fnStack], innermost first. *)
Definition Nested (this : Runner) : Prop :=
  nestWalk [] (events (speedscope this)) = Some (frameIndexOf this <$> fnStack this).

(** No clock of the stack or of the trace is after [t]; the events are
    in the order of their [at], and no close ends before it starts. *)
Definition ClockedBy (t : Z) (this : Runner) : Prop :=
  Forall (λ f, f_clock f ≤ t) (fnStack this) ∧
  Forall (λ e, e_at e ≤ t) (events (speedscope this)) ∧
  StronglySorted atLe (events (speedscope this)) ∧
  Forall closeOk (events (speedscope this)).

(** The lookup table is the one of [table], and the cached region is one
    of its regions. *)
Definition CacheInTable (table : list Region) (this : Runner) : Prop :=
  regionsByBank this = buildRegionsByBank table ∧
  ∀ fn, currentFnRegion this = Some fn → fn ∈ table.

(** Every frame of the stack has an index, and so has the frame of every
    event. *)
Definition FramesIndexed (this : Runner) : Prop :=
  Forall (λ f, is_Some (frameIndexOf this f)) (fnStack this) ∧
  Forall (λ e, ∃ s k, e_frame e = Some k ∧ noiIndex this !! s = Some k)
         (events (speedscope this)).

(** What [run] keeps of the runner that [initialize] made. *)
Definition IndexedBy (init : Runner) (table : list Region) (this : Runner) : Prop :=
  CacheInTable table this ∧
  noiIndex this = noiIndex init ∧
  frames (speedscope this) = frames (speedscope init) ∧
  FramesIndexed this.


(** *** Vocabulary for [run] *)

(** [frameStartTime] in turn [i] of the frame loop, when [framesElapsed]
    is [i]. *)
Definition frameStartOf (emulator : nat → FrameInput) (i : nat) : Z :=
  getGBTime (fi_startClock (emulator i)) (Z.of_nat i).

(** The first number of a list that is not [0], or [0]. *)
Definition firstNonZero (l : list Z) : Z :=
  default 0 (head (filter (λ t, t ≠ 0) l)).

(** What turn [i] adds to [trace.captures] and to [captures]. *)
Definition traceCaptureOf (captureMode : CaptureMode) (emulator : nat → FrameInput)
    (i : nat) : option Capture :=
  match captureMode with
  | CaptureAll =>
      (λ src, mkCapture src (frameStartOf emulator i) (Z.of_nat i)) <$> fi_capture (emulator i)
  | _ => None
  end.

Definition hostCaptureOf (captureMode : CaptureMode) (totalFrames : nat)
    (emulator : nat → FrameInput) (i : nat) : option string :=
  match captureMode with
  | CaptureAll => fi_capture (emulator i)
  | CaptureExit => if decide (i = totalFrames - 1)%nat then fi_capture (emulator i) else None
  | CaptureNone => None
  end.

(** An emulator whose every frame starts at cycle 0, enters [_main],
    takes a VBL interrupt, and yields a capture. *)
Definition sampleEmulator (i : nat) : FrameInput :=
  mkFrameInput 0 [(10, OnAfterInstruction 0 0x150 1); (20, OnInterrupt 0)]
               (Some "frame.png").


(** *** Readings of the resolver and of the landing rule, and a state
    with an interrupt in flight *)

(** [_main] is entered at cycle 10 and VBL is dispatched at cycle 1000. *)
Definition interruptInFlight : Runner :=
  openInterrupt
    (popInterrupts
       (onAfterInstruction (initialize (Some "DEF _main 0x150")) 0 0x150 1 10) 1000)
    VBL 1000.

(** The boundary rule for every region of the table, whatever its
    [addr]: a [pc] equal to the [end] of a region of the target bank
    resolves to that region. *)
Definition EndResolvesToRegion (this : Runner) (table : list Region) : Prop :=
  ∀ pc bank r,
    r ∈ table →
    r_bank r = (if decide (pc < 0x4000) then 0 else bank) →
    pc = r_end r →
    getCurrentFunctionRegion this pc bank = Some r.

(** The landing rule for every symbol: a landing inside a region below
    [0x4000] whose symbol is not on the stack, with no interrupt in
    flight, leaves the stacks and the trace alone and caches the
    region. *)
Definition LandingUpdatesCache (this : Runner) (opcode pc bank clockNow : Z) : Prop :=
  ∀ newFn,
    opcode ≠ RETI →
    getCurrentFunctionRegion this pc bank = Some newFn →
    Some newFn ≠ currentFnRegion this →
    pc ≠ r_addr newFn →
    pc < 0x4000 →
    fnStackContains this newFn = false →
    interruptStack this = [] →
    let after := onAfterInstruction this opcode pc bank clockNow in
    fnStack after = fnStack this ∧
    interruptStack after = interruptStack this ∧
    speedscope after = speedscope this ∧
    currentFnRegion after = Some newFn.

(** * Properties *)

(** ** The call-stack engine *)

(** The engine on three short runs. *)
Example simpleCall_events :
  events (speedscope simpleCall)
  = [ mkEvent TypeO 0 (Some 5%nat) None;
      mkEvent TypeO 2 (Some 6%nat) None;
      mkEvent TypeC 4 (Some 6%nat) (Some 2) ] ∧
  f_symbol <$> fnStack simpleCall = ["_main"].
Proof. by vm_compute. Qed.

Example simpleCall_shutdown :
  events (shutdown simpleCall 100 0)
  = [ mkEvent TypeO 0 (Some 5%nat) None;
      mkEvent TypeO 2 (Some 6%nat) None;
      mkEvent TypeC 4 (Some 6%nat) (Some 2);
      mkEvent TypeC 100 (Some 5%nat) (Some 0) ].
Proof. by vm_compute. Qed.

Example interruptDuringFunction_events :
  (λ r, (drop 2 (events (speedscope r)), f_symbol <$> fnStack r, interruptStack r))
    <$> interruptDuringFunction
  = Some ([ mkEvent TypeO 1000 (Some 0%nat) None;
            mkEvent TypeC 1200 (Some 0%nat) (Some 1000) ],
          ["_foo"; "_main"], []).
Proof. by vm_compute. Qed.

Example bankSwitch_events :
  events (speedscope bankSwitch)
  = [ mkEvent TypeO 0 (Some 5%nat) None; mkEvent TypeO 5 (Some 6%nat) None ] ∧
  f_symbol <$> fnStack bankSwitch = ["_x"; "_boot"].
Proof. by vm_compute. Qed.

Lemma appendEvents_nil trace : appendEvents trace [] = trace.
Proof. destruct trace; unfold appendEvents, withEvents; simpl. by rewrite app_nil_r. Qed.

Lemma appendEvents_app trace l1 l2 :
  appendEvents (appendEvents trace l1) l2 = appendEvents trace (l1 ++ l2).
Proof. unfold appendEvents, withEvents; simpl. by rewrite app_assoc. Qed.

Lemma addCloseEvent_append trace idx at_ start :
  addCloseEvent trace idx at_ start = appendEvents trace [mkEvent TypeC at_ idx (Some start)].
Proof. reflexivity. Qed.

Lemma existsb_symbol_app (sym : string) (above : list Frame) frame below :
  f_symbol frame = sym →
  existsb (λ fn, bool_decide (f_symbol fn = sym)) (above ++ frame :: below) = true.
Proof.
  intros Hs. rewrite existsb_app. simpl.
  rewrite (bool_decide_eq_true_2 _ Hs). by rewrite orb_true_r.
Qed.

(** The loop of [popFramesIncluding] pops down to and including the
    topmost frame that carries the symbol. *)
Lemma popIncludingLoop_split index clockNow sym above frame below trace :
  f_symbol frame = sym →
  Forall (λ f, f_symbol f ≠ sym) above →
  popIncludingLoop index clockNow (Some sym) (above ++ frame :: below) trace
  = (below, appendEvents trace (closeAt index clockNow <$> (above ++ [frame]))).
Proof.
  intros Hs Hall. revert trace.
  induction Hall as [|f above Hf Hall IH]; intros trace; simpl.
  - rewrite decide_True by congruence. by rewrite addCloseEvent_append.
  - rewrite decide_False by congruence.
    rewrite IH, addCloseEvent_append, appendEvents_app. done.
Qed.

(** Whatever the symbol, the loop pops frames from the top only, and
    writes one close per popped frame. *)
Lemma popIncludingLoop_prefix index clockNow sym stack trace :
  ∃ popped,
    stack = popped ++ fst (popIncludingLoop index clockNow sym stack trace) ∧
    snd (popIncludingLoop index clockNow sym stack trace)
    = appendEvents trace (closeAt index clockNow <$> popped).
Proof.
  revert trace. induction stack as [|f stack IH]; intros trace; simpl.
  - exists []. by rewrite appendEvents_nil.
  - destruct (decide (Some (f_symbol f) = sym)); simpl.
    + exists [f]. by rewrite addCloseEvent_append.
    + destruct (IH (addCloseEvent trace (index !! f_symbol f) clockNow (f_clock f)))
        as (popped & Hst & Htr).
      exists (f :: popped). split; [simpl; congruence|].
      rewrite Htr, addCloseEvent_append, appendEvents_app. done.
Qed.

(** The loop of [popFramesUntil] pops what lies above the topmost frame
    that carries the symbol, and stops there. *)
Lemma popUntilLoop_split index clockNow sym above frame below trace :
  f_symbol frame = sym →
  Forall (λ f, f_symbol f ≠ sym) above →
  popUntilLoop index clockNow (Some sym) (above ++ frame :: below) trace
  = (frame :: below, appendEvents trace (closeClamped index clockNow <$> above)).
Proof.
  intros Hs Hall. revert trace.
  induction Hall as [|f above Hf Hall IH]; intros trace; simpl.
  - rewrite decide_False by (intros H; apply H; congruence).
    by rewrite appendEvents_nil.
  - rewrite decide_True by congruence.
    rewrite IH, addCloseEvent_append, appendEvents_app. done.
Qed.

Lemma popFramesIncluding_popped `{HasSymbol A} this clockNow (fn : option A) :
  ∃ popped,
    PoppedFrom this (popFramesIncluding this clockNow fn) clockNow popped ∧
    interruptStack (popFramesIncluding this clockNow fn) = interruptStack this.
Proof.
  assert (Hloop : ∀ sym,
    let res := popIncludingLoop (noiIndex this) clockNow sym (fnStack this) (speedscope this) in
    ∃ popped, PoppedFrom this (setStack this (fst res) (snd res)) clockNow popped ∧
              interruptStack (setStack this (fst res) (snd res)) = interruptStack this).
  { intros sym res.
    destruct (popIncludingLoop_prefix (noiIndex this) clockNow sym (fnStack this)
                (speedscope this)) as (popped & Hst & Htr).
    exists popped. split; [|done]. by constructor. }
  unfold popFramesIncluding. destruct fn as [fn'|].
  - destruct (fnStackContains this fn'); simpl.
    + specialize (Hloop (Some (symbolOf fn'))). simpl in Hloop.
      by destruct (popIncludingLoop _ _ _ _ _).
    + exists []. split; [|done]. constructor; try done.
      simpl. by rewrite appendEvents_nil.
  - specialize (Hloop None). simpl in Hloop.
    by destruct (popIncludingLoop _ _ _ _ _).
Qed.

Lemma PoppedFrom_trans this mid after clockNow p1 p2 :
  PoppedFrom this mid clockNow p1 → PoppedFrom mid after clockNow p2 →
  PoppedFrom this after clockNow (p1 ++ p2).
Proof.
  intros [] []. constructor; try congruence.
  - rewrite <- app_assoc. congruence.
  - rewrite fmap_app, <- appendEvents_app. congruence.
Qed.

Lemma popInterruptsLoop_popped clockNow interrupts this :
  ∃ popped,
    PoppedFrom this (popInterruptsLoop clockNow interrupts this) clockNow popped ∧
    interruptStack (popInterruptsLoop clockNow interrupts this)
    = match interrupts with [] => interruptStack this | _ => [] end.
Proof.
  revert this. induction interrupts as [|i rest IH]; intros this;
    cbn [popInterruptsLoop].
  - exists []. split; [|done]. constructor; try done.
    simpl. by rewrite appendEvents_nil.
  - destruct (popFramesIncluding_popped (setInterruptStack this rest) clockNow (Some i))
      as (p1 & H1 & Hi1).
    destruct (IH (popFramesIncluding (setInterruptStack this rest) clockNow (Some i)))
      as (p2 & H2 & Hi2).
    exists (p1 ++ p2). split.
    + eapply PoppedFrom_trans; [|exact H2]. destruct H1. by constructor.
    + rewrite Hi2. destruct rest; [|done]. by rewrite Hi1.
Qed.

Lemma popInterrupts_popped this clockNow :
  ∃ popped,
    PoppedFrom this (popInterrupts this clockNow) clockNow popped ∧
    interruptStack (popInterrupts this clockNow) = [].
Proof.
  unfold popInterrupts.
  destruct (popInterruptsLoop_popped clockNow (interruptStack this) this)
    as (popped & Hp & Hi).
  exists popped. split; [done|]. rewrite Hi. by destruct (interruptStack this).
Qed.

Lemma popFramesIncluding_interruptStack `{HasSymbol A} this clockNow (fn : option A) :
  interruptStack (popFramesIncluding this clockNow fn) = interruptStack this.
Proof. by destruct (popFramesIncluding_popped this clockNow fn) as (? & _ & ?). Qed.

Lemma popInterruptsLoop_iter clockNow interrupts this :
  interruptStack this = interrupts →
  popInterruptsLoop clockNow interrupts this
  = Nat.iter (length interrupts) (unwindTopInterrupt clockNow) this.
Proof.
  revert this. induction interrupts as [|i rest IH]; intros this Hst; [done|].
  cbn [popInterruptsLoop length]. rewrite Nat.iter_succ_r.
  unfold unwindTopInterrupt at 2. rewrite Hst.
  apply IH. by rewrite popFramesIncluding_interruptStack.
Qed.

(** One level of unwinding, when a frame carries the interrupt's symbol:
    the frames above the topmost such frame go, then that frame, and the
    interrupt leaves the interrupt stack. *)
Lemma unwindTopInterrupt_split clockNow this top rest above frame below :
  interruptStack this = top :: rest →
  fnStack this = above ++ frame :: below →
  f_symbol frame = i_symbol top →
  Forall (λ f, f_symbol f ≠ i_symbol top) above →
  unwindTopInterrupt clockNow this
  = mkRunner (regionsByBank this) (noiIndex this) (currentFnRegion this) below rest
      (appendEvents (speedscope this)
         (closeAt (noiIndex this) clockNow <$> (above ++ [frame]))).
Proof.
  intros Hi Hst Hs Hall. unfold unwindTopInterrupt. rewrite Hi.
  unfold popFramesIncluding, fnStackContains. cbn [fnStack setInterruptStack].
  rewrite Hst. unfold symbolOf, Interrupt_HasSymbol.
  rewrite (existsb_symbol_app (i_symbol top) above frame below Hs).
  cbn [negb noiIndex speedscope].
  by rewrite (popIncludingLoop_split _ _ _ _ _ _ _ Hs Hall).
Qed.

(** One level of unwinding, when no frame carries the interrupt's symbol:
    only the interrupt stack changes. *)
Lemma unwindTopInterrupt_absent clockNow this top rest :
  interruptStack this = top :: rest →
  Forall (λ f, f_symbol f ≠ i_symbol top) (fnStack this) →
  unwindTopInterrupt clockNow this = setInterruptStack this rest.
Proof.
  intros Hi Hall. unfold unwindTopInterrupt. rewrite Hi.
  unfold popFramesIncluding, fnStackContains. cbn [fnStack setInterruptStack].
  replace (existsb _ (fnStack this)) with false; [done|].
  symmetry. apply not_true_is_false. intros Hex.
  apply existsb_exists in Hex as (f & Hin & Hf).
  apply bool_decide_eq_true in Hf.
  rewrite Forall_forall in Hall. apply list_elem_of_In in Hin. by apply (Hall f).
Qed.

Lemma popFramesUntil_interruptStack `{HasSymbol A} this clockNow (fn : option A) :
  interruptStack (popFramesUntil this clockNow fn) = interruptStack this.
Proof.
  unfold popFramesUntil. destruct fn as [fn'|].
  - destruct (fnStackContains this fn'); [|done]. simpl.
    by destruct (popUntilLoop _ _ _ _ _).
  - by destruct (popUntilLoop _ _ _ _ _).
Qed.

Lemma onAfterInstruction_interruptStack this opcode pc bank clockNow :
  interruptStack (onAfterInstruction this opcode pc bank clockNow) = interruptStack this ∨
  interruptStack (onAfterInstruction this opcode pc bank clockNow) = [].
Proof.
  unfold onAfterInstruction.
  destruct (decide (opcode = RETI)).
  { right. by destruct (popInterrupts_popped this clockNow) as (? & _ & ?). }
  left. destruct (getCurrentFunctionRegion this pc bank) as [newFn|]; [|done].
  repeat case_decide; repeat case_match; try done;
    unfold setCurrentFnRegion, pushFrame, setStack; cbn [interruptStack];
    by rewrite ?popFramesUntil_interruptStack.
Qed.

(** Interrupt dispatch unwinds before it pushes, so the hooks never leave
    more than one interrupt in flight. *)
Lemma reachable_one_interrupt init this :
  interruptStack init = [] →
  reachable init this → (length (interruptStack this) ≤ 1)%nat.
Proof.
  intros Hinit Hr. induction Hr as [|this opcode pc bank clockNow _ IH
                                    |this interrupt clockNow after _ _ Hint].
  - rewrite Hinit. simpl. lia.
  - destruct (onAfterInstruction_interruptStack this opcode pc bank clockNow)
      as [-> | ->]; [done | simpl; lia].
  - unfold onInterrupt in Hint.
    destruct (INTERRUPTS !! interrupt) as [entry|]; [|done].
    injection Hint as <-. cbn [interruptStack setStack setInterruptStack].
    destruct (popInterrupts_popped this clockNow) as (? & _ & ->). simpl. lia.
Qed.

(** *** RETI *)

(** On [nestedInterrupts], a state with two interrupts in flight that
    no sequence of hook calls leads to, one RETI closes LCD and VBL and
    empties the interrupt stack, where one level would leave VBL in
    flight. *)
Lemma reti_unwinds_two_levels :
  ¬ RetiUnwindsOneLevel nestedInterrupts 0x49 0 1200.
Proof.
  intros H.
  destruct (H LCD [VBL] []
              (mkFrame "[INTERRUPT] LCD" 0x48 1100 false false 2)
              [ mkFrame "[INTERRUPT] VBL" 0x40 1000 false false 1;
                mkFrame "_main" 0x150 10 true true 0 ])
    as (Hstack & _); try reflexivity; [constructor|].
  vm_compute in Hstack. discriminate Hstack.
Qed.

(** On any runner, reached by the hooks or not, a RETI unwinds every
    interrupt of the interrupt stack: it runs the one-level unwinding
    once per entry, top first, and leaves the interrupt stack empty.
    The one-level unwinding pops the frames above the topmost frame that
    carries the interrupt's symbol, then that frame, each with a close at
    the current clock, and pops nothing when no frame carries the
    symbol. *)
Theorem reti_unwinds_every_interrupt (this : Runner) (pc bank clockNow : Z) :
  let after := onAfterInstruction this RETI pc bank clockNow in
  after = Nat.iter (length (interruptStack this)) (unwindTopInterrupt clockNow) this ∧
  interruptStack after = [] ∧
  (∀ top rest above frame below (r : Runner),
     interruptStack r = top :: rest →
     fnStack r = above ++ frame :: below →
     f_symbol frame = i_symbol top →
     Forall (λ f, f_symbol f ≠ i_symbol top) above →
     interruptStack (unwindTopInterrupt clockNow r) = rest ∧
     fnStack (unwindTopInterrupt clockNow r) = below ∧
     events (speedscope (unwindTopInterrupt clockNow r))
     = events (speedscope r) ++ (closeAt (noiIndex r) clockNow <$> (above ++ [frame]))) ∧
  (∀ top rest (r : Runner),
     interruptStack r = top :: rest →
     Forall (λ f, f_symbol f ≠ i_symbol top) (fnStack r) →
     unwindTopInterrupt clockNow r = setInterruptStack r rest) ∧
  (∀ top above frame below,
     interruptStack this = [top] →
     fnStack this = above ++ frame :: below →
     f_symbol frame = i_symbol top →
     Forall (λ f, f_symbol f ≠ i_symbol top) above →
     fnStack after = below ∧
     events (speedscope after)
     = events (speedscope this) ++ (closeAt (noiIndex this) clockNow <$> (above ++ [frame]))).
Proof.
  assert (Hafter : onAfterInstruction this RETI pc bank clockNow
                   = Nat.iter (length (interruptStack this)) (unwindTopInterrupt clockNow) this).
  { unfold onAfterInstruction. rewrite decide_True by done.
    unfold popInterrupts. by apply popInterruptsLoop_iter. }
  cbv zeta. split; [exact Hafter|]. split; [|split; [|split]].
  - unfold onAfterInstruction. rewrite decide_True by done.
    by destruct (popInterrupts_popped this clockNow) as (? & _ & ?).
  - intros top rest above frame below r Hi Hst Hs Hall.
    by rewrite (unwindTopInterrupt_split clockNow r top rest above frame below Hi Hst Hs Hall).
  - intros top rest r Hi Hall. by apply (unwindTopInterrupt_absent clockNow r top rest).
  - intros top above frame below Hi Hst Hs Hall.
    rewrite Hafter, Hi. cbn [length Nat.iter nat_rect].
    by rewrite (unwindTopInterrupt_split clockNow this top [] above frame below Hi Hst Hs Hall).
Qed.

Lemma reti_unwinds_every_interrupt_witness :
  fnStack (onAfterInstruction oneInterrupt RETI 0x41 0 1200)
  = [ mkFrame "_main" 0x150 10 true true 0 ] ∧
  events (speedscope (onAfterInstruction oneInterrupt RETI 0x41 0 1200))
  = events (speedscope oneInterrupt) ++
    (closeAt (noiIndex oneInterrupt) 1200 <$>
       ([] ++ [mkFrame "[INTERRUPT] VBL" 0x40 1000 false false 1])).
Proof.
  apply (proj2 (proj2 (proj2 (proj2 (reti_unwinds_every_interrupt oneInterrupt 0x41 0 1200))))
           VBL [] (mkFrame "[INTERRUPT] VBL" 0x40 1000 false false 1)
           [ mkFrame "_main" 0x150 10 true true 0 ]).
  - reflexivity.
  - reflexivity.
  - reflexivity.
  - constructor.
Defined.



(** C7.  A RETI processed while the interrupt stack is empty changes
    nothing: no event, the same call stack, the same (empty) interrupt
    stack.  And whatever the stacks, a RETI only pops frames that are
    there: the call stack before is the popped frames followed by the
    call stack after, with one close event per popped frame. *)
Theorem reti_with_empty_interrupt_stack (this : Runner) (pc bank clockNow : Z) :
  let after := onAfterInstruction this RETI pc bank clockNow in
  (interruptStack this = [] →
   after = this ∧
   events (speedscope after) = events (speedscope this) ∧
   fnStack after = fnStack this ∧
   interruptStack after = []) ∧
  (∃ popped,
     fnStack this = popped ++ fnStack after ∧
     events (speedscope after)
     = events (speedscope this) ++ (closeAt (noiIndex this) clockNow <$> popped)).
Proof.
  cbv zeta. unfold onAfterInstruction. rewrite decide_True by done. split.
  - intros Hempty. unfold popInterrupts. rewrite Hempty. simpl. by rewrite Hempty.
  - destruct (popInterrupts_popped this clockNow) as (popped & [Hst Htr _ _ _] & _).
    exists popped. split; [done|]. by rewrite Htr.
Qed.

Lemma reti_with_empty_interrupt_stack_witness :
  onAfterInstruction (initialize (Some "DEF _main 0x150")) RETI 0x151 1 500
  = initialize (Some "DEF _main 0x150").
Proof.
  apply (proj1 (reti_with_empty_interrupt_stack
                  (initialize (Some "DEF _main 0x150")) 0x151 1 500)).
  reflexivity.
Defined.

(** *** Closing timestamps *)

(** [addCloseEvent] stores the [at] it is given. *)
Lemma addCloseEvent_events trace frameIndex at_ start :
  events (addCloseEvent trace frameIndex at_ start)
  = events trace ++ [mkEvent TypeC at_ frameIndex (Some start)].
Proof. reflexivity. Qed.

(** The closes of [popFramesUntil] are clamped by the caller. *)
Lemma popUntilLoop_clamped index clockNow sym stack trace :
  ∃ popped,
    stack = popped ++ fst (popUntilLoop index clockNow sym stack trace) ∧
    snd (popUntilLoop index clockNow sym stack trace)
    = appendEvents trace (closeClamped index clockNow <$> popped) ∧
    Forall (λ e, ∃ start, e_start e = Some start ∧ start ≤ e_at e)
           (closeClamped index clockNow <$> popped).
Proof.
  revert trace. induction stack as [|f stack IH]; intros trace; simpl.
  - exists []. rewrite appendEvents_nil. by repeat split.
  - destruct (decide (Some (f_symbol f) ≠ sym)); simpl.
    + destruct (IH (addCloseEvent trace (index !! f_symbol f)
                      (Z.max clockNow (f_clock f)) (f_clock f)))
        as (popped & Hst & Htr & Hall).
      exists (f :: popped). split; [simpl; congruence|]. split.
      * rewrite Htr, addCloseEvent_append, appendEvents_app. done.
      * simpl. constructor; [|done]. exists (f_clock f). simpl. split; [done|lia].
    + exists []. rewrite appendEvents_nil. by repeat split.
Qed.

(** C2 (the code at the failing input).  VBL is dispatched late in
    frame 0, when the cycle counter reads 70300; the RETI is processed
    early in frame 1, when it reads 20, so [getGBTime()] is 70276.  The
    close written by [popFramesIncluding] has [at = 70276], below the
    [start = 70300] it records, where the clamp gives
    [max 70276 70300 = 70300]. *)
Theorem reti_close_precedes_its_open :
  ∃ dispatched,
    onInterrupt (initialize (Some "DEF _main 0x150")) 0 (getGBTime 70300 0)
    = Some dispatched ∧
    events (speedscope (onAfterInstruction dispatched RETI 0x41 0 (getGBTime 20 1)))
    = [ mkEvent TypeO 70300 (Some 0%nat) None;
        mkEvent TypeC 70276 (Some 0%nat) (Some 70300) ] ∧
    70276 ≠ Z.max 70276 70300.
Proof.
  eexists. split; [reflexivity|]. split; [by vm_compute | lia].
Qed.

(** *** Mid-region landings *)

Lemma setCurrentFnRegion_id this :
  setCurrentFnRegion this (currentFnRegion this) = this.
Proof. by destruct this. Qed.






(** ** The symbol map and the region table *)

Example parseNoi_sample :
  parseNoi sampleNoi
  = interruptSymbols ++
    [ mkNoiSymbol "_main" 0x150 0; mkNoiSymbol "_shadow_OAM" 0xC000 0;
      mkNoiSymbol "_bar" 0x4100 1; mkNoiSymbol ".mod" 0x200 0;
      mkNoiSymbol "_y" 0 0; mkNoiSymbol "_vbl" 0x40 0 ].
Proof. by vm_compute. Qed.

Example generateFunctionRegions_sample :
  generateFunctionRegions (parseNoi sampleNoi)
  = [ mkRegion "_y" 0 0 0x3f;
      mkRegion "[INTERRUPT] VBL" 0x40 0 0x3f;
      mkRegion "_vbl" 0x40 0 0x47;
      mkRegion "[INTERRUPT] LCD" 0x48 0 0x4f;
      mkRegion "[INTERRUPT] TIM" 0x50 0 0x57;
      mkRegion "[INTERRUPT] SIO" 0x58 0 0x5f;
      mkRegion "[INTERRUPT] JOY" 0x60 0 0x14f;
      mkRegion "_main" 0x150 0 0x1ff;
      mkRegion ".mod" 0x200 0 0x3fff;
      mkRegion "_shadow_OAM" 0xC000 0 0x3fff;
      mkRegion "_bar" 0x4100 1 0x7fff ].
Proof. by vm_compute. Qed.

Example parseInt16_samples :
  parseInt16 "0x1F" = Some 31 ∧ parseInt16 "-ff" = Some (-255) ∧
  parseInt16 "undefined" = None ∧ parseInt16 "12zz" = Some 18 ∧
  parseInt16 "20000000000001" = Some (2 ^ 53) ∧
  parseInt16 "20000000000003" = Some (2 ^ 53 + 4).
Proof. by vm_compute. Qed.

Lemma land_ffff_bounds a : 0 ≤ Z.land a 0xffff ≤ 0xffff.
Proof.
  change (Z.land a 0xffff) with (Z.land a (Z.ones 16)). rewrite Z.land_ones by lia.
  pose proof (Z.mod_pos_bound a (2 ^ 16)). lia.
Qed.

Lemma land_ff_bounds a : 0 ≤ Z.land a 0xff ≤ 0xff.
Proof.
  change (Z.land a 0xff) with (Z.land a (Z.ones 8)). rewrite Z.land_ones by lia.
  pose proof (Z.mod_pos_bound a (2 ^ 8)). lia.
Qed.

Lemma parseLine_in_range line s : parseLine line = Some s → SymbolInRange s.
Proof.
  unfold parseLine. destruct (negb (isDefLine line)); [done|].
  destruct (isRejected line); [done|].
  intros [= <-]. unfold SymbolInRange. cbn [s_addr s_bank].
  pose proof (land_ffff_bounds (default 0 (parseInt16 (default "undefined" (tokens line !! 2%nat))))).
  pose proof (land_ff_bounds (Z.shiftr (default 0 (parseInt16 (default "undefined" (tokens line !! 2%nat)))) 16)).
  case_decide; repeat split; intros; lia.
Qed.

Lemma parseLines_in_range lines usedAddr result :
  Forall SymbolInRange result →
  Forall SymbolInRange (parseLines lines usedAddr result).
Proof.
  revert usedAddr result.
  induction lines as [|line lines IH]; intros usedAddr result Hres; [done|].
  simpl. destruct (parseLine line) as [entry|] eqn:Hline; [|by apply IH].
  case_decide; [by apply IH|].
  apply IH. apply Forall_app. split; [done|].
  constructor; [|done]. by eapply parseLine_in_range.
Qed.

Lemma parseNoi_in_range text : Forall SymbolInRange (parseNoi text).
Proof.
  apply parseLines_in_range. unfold interruptSymbols, INTERRUPTS. simpl.
  repeat constructor; simpl; lia.
Qed.

(** *** Grouping by bank *)

Lemma groupPush_keys fn groups :
  fst <$> groupPush fn groups
  = if decide (s_bank fn ∈ fst <$> groups) then fst <$> groups
    else (fst <$> groups) ++ [s_bank fn].
Proof.
  induction groups as [|[bank symbols] groups IH]; [done|].
  cbn [groupPush].
  destruct (decide (bank = s_bank fn)) as [->|Hne]; rewrite !fmap_cons; cbn [fst].
  - rewrite decide_True; [done|]. apply elem_of_cons. by left.
  - rewrite IH. destruct (decide (s_bank fn ∈ fst <$> groups)).
    + rewrite decide_True; [done|]. apply elem_of_cons. by right.
    + rewrite decide_False; [done|]. rewrite elem_of_cons. intros [?|?]; congruence.
Qed.

Lemma groupPush_wf P fn groups :
  P fn → GroupsWF P groups → GroupsWF P (groupPush fn groups).
Proof.
  intros HP [Hnd Hall]. split.
  - rewrite groupPush_keys. case_decide; [done|].
    apply NoDup_app. split; [done|]. split; [|apply NoDup_singleton].
    intros x Hx Hx'. apply list_elem_of_singleton in Hx'. by subst.
  - clear Hnd. induction Hall as [|[bank symbols] groups Hg Hall IH]; simpl.
    + repeat constructor; done.
    + destruct (decide (bank = s_bank fn)) as [->|Hne].
      * constructor; [|done]. simpl. apply Forall_app. split; [done|].
        by repeat constructor.
      * constructor; done.
Qed.

Lemma groupByBank_wf P noiLookup :
  Forall P noiLookup → GroupsWF P (groupByBank noiLookup).
Proof.
  unfold groupByBank.
  assert (Hgen : ∀ groups, GroupsWF P groups → Forall P noiLookup →
                 GroupsWF P (foldl (λ bankGroups fn, groupPush fn bankGroups) groups noiLookup)).
  { induction noiLookup as [|fn l IH]; intros groups Hwf Hall; [done|].
    simpl. inversion Hall; subst. apply IH; [|done]. by apply groupPush_wf. }
  apply Hgen. split; [constructor|constructor].
Qed.

(** *** Sorting a group *)

Lemma insertByAddr_elem x l y : y ∈ insertByAddr x l ↔ y = x ∨ y ∈ l.
Proof.
  induction l as [|z l IH]; simpl.
  - rewrite list_elem_of_singleton, elem_of_nil. tauto.
  - case_decide; rewrite !elem_of_cons; [tauto|]. rewrite IH. tauto.
Qed.

Lemma sortByAddr_elem l y : y ∈ sortByAddr l ↔ y ∈ l.
Proof.
  induction l as [|x l IH]; simpl; [done|].
  rewrite insertByAddr_elem, elem_of_cons, IH. done.
Qed.

Lemma insertByAddr_sorted x l :
  StronglySorted addrLe l → StronglySorted addrLe (insertByAddr x l).
Proof.
  induction 1 as [|z l Hl IH Hz]; simpl.
  - repeat constructor.
  - case_decide.
    + constructor; [by constructor|]. constructor; [unfold addrLe; lia|].
      eapply Forall_impl; [exact Hz|]. unfold addrLe. intros; lia.
    + constructor; [done|]. apply Forall_forall. intros y Hy.
      apply insertByAddr_elem in Hy as [->|Hy]; [unfold addrLe; lia|].
      rewrite Forall_forall in Hz. by apply Hz.
Qed.

Lemma sortByAddr_sorted l : StronglySorted addrLe (sortByAddr l).
Proof.
  induction l as [|x l IH]; simpl; [constructor|]. by apply insertByAddr_sorted.
Qed.

(** *** Assigning the ends *)

Lemma assignEnds_elem addrMax sorted r :
  r ∈ assignEnds addrMax sorted →
  ∃ s, s ∈ sorted ∧ r = withEnd s (r_end r) ∧ r_end r ≤ addrMax.
Proof.
  induction sorted as [|fn rest IH]; simpl; [by rewrite elem_of_nil|].
  destruct rest as [|next rest'].
  - rewrite list_elem_of_singleton. intros ->. exists fn.
    split; [apply elem_of_cons; by left|]. split; [done|]. simpl. lia.
  - rewrite elem_of_cons. intros [->|Hr].
    + exists fn. split; [apply elem_of_cons; by left|]. split; [done|]. simpl. lia.
    + destruct (IH Hr) as (s & Hs & Heq & Hle). exists s.
      split; [apply elem_of_cons; by right|]. done.
Qed.

(** In a sorted group every region ends below the start of the regions
    that follow it. *)
Lemma assignEnds_monotone addrMax sorted :
  StronglySorted addrLe sorted →
  ForallOrdPairs (λ r1 r2, r_end r1 < r_addr r2) (assignEnds addrMax sorted).
Proof.
  induction 1 as [|fn rest Hrest IH Hfn]; [constructor|].
  cbn [assignEnds]. destruct rest as [|next rest'].
  - repeat constructor.
  - constructor; [|exact IH].
    apply Forall_forall. intros r Hr.
    apply assignEnds_elem in Hr as (s & Hs & -> & _). simpl.
    apply StronglySorted_inv in Hrest as [_ Hnext].
    apply elem_of_cons in Hs as [->|Hs]; [lia|].
    rewrite Forall_forall in Hnext. specialize (Hnext s Hs). unfold addrLe in Hnext. lia.
Qed.

Lemma assignEnds_head addrMax fn rest :
  ∃ e, assignEnds addrMax (fn :: rest) !! 0%nat = Some (withEnd fn e).
Proof. destruct rest; simpl; eauto. Qed.

Lemma assignEnds_chained bank sorted :
  StronglySorted addrLe sorted →
  Forall (λ s, s_bank s = bank) sorted →
  EndsChained (assignEnds (bankMax bank) sorted).
Proof.
  induction 1 as [|fn rest Hrest IH Hfn]; intros Hbank; [by intros i r|].
  apply Forall_cons in Hbank as [Hb Hbank].
  intros i r Hi. destruct rest as [|next rest'].
  - destruct i as [|i]; [|done]. injection Hi as <-. left. simpl. by rewrite Hb.
  - cbn [assignEnds] in Hi. destruct i as [|i].
    + injection Hi as <-. right.
      destruct (assignEnds_head (bankMax bank) next rest') as [e He].
      exists (withEnd next e). split; [exact He|]. simpl.
      apply Forall_cons in Hbank as [Hb' _]. apply Forall_cons in Hfn as [Hle _].
      unfold addrLe in Hle. rewrite Hb, Hb'. done.
    + apply (IH Hbank i r Hi).
Qed.

Lemma EndsChained_app l1 l2 :
  EndsChained l1 → EndsChained l2 → EndsChained (l1 ++ l2).
Proof.
  intros H1 H2 i r Hi.
  destruct (decide (i < length l1)%nat) as [Hlt|Hge].
  - rewrite lookup_app_l in Hi by done.
    destruct (H1 i r Hi) as [?|(next & Hn & ?)]; [by left|right].
    exists next. split; [|done].
    rewrite lookup_app_l; [done|]. by apply lookup_lt_Some in Hn.
  - rewrite lookup_app_r in Hi by lia.
    destruct (H2 _ r Hi) as [?|(next & Hn & ?)]; [by left|right].
    exists next. split; [|done].
    rewrite lookup_app_r by lia. by replace (S i - length l1)%nat with (S (i - length l1)) by lia.
Qed.

Lemma ForallOrdPairs_app {A} (R : A → A → Prop) (l1 l2 : list A) :
  ForallOrdPairs R l1 → ForallOrdPairs R l2 →
  (∀ x y, x ∈ l1 → y ∈ l2 → R x y) →
  ForallOrdPairs R (l1 ++ l2).
Proof.
  induction 1 as [|a l1 Ha Hl1 IH]; intros H2 Hcross; [done|].
  simpl. constructor.
  - apply Forall_app. split; [done|]. apply Forall_forall. intros y Hy.
    apply Hcross; [|done]. apply elem_of_cons. by left.
  - apply IH; [done|]. intros x y Hx Hy. apply Hcross; [|done].
    apply elem_of_cons. by right.
Qed.

Lemma ForallOrdPairs_impl {A} (R R' : A → A → Prop) (l : list A) :
  (∀ x y, R x y → R' x y) → ForallOrdPairs R l → ForallOrdPairs R' l.
Proof.
  intros Himp. induction 1; constructor; [|done].
  eapply Forall_impl; [eassumption|]. apply Himp.
Qed.

(** The regions of one group: all in the group's bank, each from a symbol
    of the group. *)
Lemma regionsOfGroup_elem P g r :
  Forall (λ s, s_bank s = fst g ∧ P s) (snd g) →
  r ∈ regionsOfGroup g →
  r_bank r = fst g ∧ r_end r ≤ bankMax (fst g) ∧
  ∃ s, P s ∧ r = withEnd s (r_end r).
Proof.
  intros Hg Hr. unfold regionsOfGroup in Hr.
  apply assignEnds_elem in Hr as (s & Hs & Heq & Hle).
  rewrite sortByAddr_elem in Hs. rewrite Forall_forall in Hg.
  destruct (Hg s Hs) as [Hb HP]. split; [by rewrite Heq|]. split; [done|]. eauto.
Qed.

Lemma groups_regions_shape P groups :
  GroupsWF P groups →
  let regions := concat (regionsOfGroup <$> groups) in
  Forall (λ r, r_bank r ∈ fst <$> groups ∧ r_end r ≤ bankMax (r_bank r) ∧
               ∃ s, P s ∧ r = withEnd s (r_end r)) regions ∧
  EndsChained regions ∧
  ForallOrdPairs apart regions.
Proof.
  intros [Hnd Hall]. cbv zeta.
  induction Hall as [|g groups Hg Hall IH].
  { simpl. split; [constructor|]. split; [by intros i r|constructor]. }
  rewrite fmap_cons in Hnd. apply NoDup_cons in Hnd as [Hfresh Hnd].
  destruct (IH Hnd) as (IH1 & IH2 & IH3).
  rewrite !fmap_cons. cbn [concat].
  assert (Hhere : Forall (λ r, r_bank r = fst g ∧ r_end r ≤ bankMax (fst g) ∧
                               ∃ s, P s ∧ r = withEnd s (r_end r)) (regionsOfGroup g)).
  { apply Forall_forall. intros r Hr. by eapply regionsOfGroup_elem. }
  split; [|split].
  - apply Forall_app. split.
    + eapply Forall_impl; [exact Hhere|]. intros r (Hb & He & Hs).
      split; [rewrite Hb; apply elem_of_cons; by left|]. split; [by rewrite Hb|done].
    + eapply Forall_impl; [exact IH1|]. intros r (Hb & He & Hs).
      split; [apply elem_of_cons; by right|done].
  - apply EndsChained_app; [|done]. unfold regionsOfGroup.
    apply assignEnds_chained; [apply sortByAddr_sorted|].
    apply Forall_forall. intros s Hs. rewrite sortByAddr_elem in Hs.
    rewrite Forall_forall in Hg. by destruct (Hg s Hs).
  - apply ForallOrdPairs_app; [|done|].
    + eapply ForallOrdPairs_impl; [|apply assignEnds_monotone, sortByAddr_sorted].
      intros x y Hxy _. exact Hxy.
    + intros x y Hx Hy Hbank. exfalso. apply Hfresh.
      rewrite Forall_forall in Hhere, IH1.
      destruct (Hhere x Hx) as [<- _]. destruct (IH1 y Hy) as [Hin _]. by rewrite Hbank.
Qed.

(** A variable in work RAM, as every GBDK map file lists them: its bank
    byte is 0 and its address lies above the end of bank 0. *)
Lemma ram_symbol_breaks_region_bounds :
  ¬ RegionsWellFormed (generateFunctionRegions (parseNoi "DEF _shadow_OAM 0xC000")).
Proof.
  intros [Hall _].
  assert (Hlast : generateFunctionRegions (parseNoi "DEF _shadow_OAM 0xC000") !! 5%nat
                  = Some (mkRegion "_shadow_OAM" 0xC000 0 0x3fff)) by (by vm_compute).
  destruct (proj1 (Forall_lookup _ _) Hall _ _ Hlast) as [Hle _].
  simpl in Hle. lia.
Qed.

(** The regions of a NOI text: banks and ends in range, and the earlier
    of two regions of one bank ends below the later. *)
Lemma noi_regions_apart text :
  Forall (λ r, r_end r ≤ bankMax (r_bank r) ∧ (r_addr r < 0x4000 → r_bank r = 0))
         (generateFunctionRegions (parseNoi text)) ∧
  ForallOrdPairs apart (generateFunctionRegions (parseNoi text)).
Proof.
  unfold generateFunctionRegions.
  destruct (groups_regions_shape SymbolInRange (groupByBank (parseNoi text)))
    as (H1 & _ & H3).
  { apply groupByBank_wf, parseNoi_in_range. }
  split; [|exact H3].
  eapply Forall_impl; [exact H1|].
  intros r (_ & He & s & (_ & _ & Hlow) & Heq). split; [done|].
  rewrite Heq. exact Hlow.
Qed.

(** C4 (as amended).  For every text, every region of
    [generateFunctionRegions (parseNoi text)] has [addr] in [[0, 0xFFFF]]
    and [end ≤ bankMax]; its [end] is [bankMax], or [min bankMax
    (next.addr - 1)] for the next region of the table, which is in the
    same bank and starts at [addr] or above; so [addr ≤ end] holds when
    [addr ≤ bankMax] and the next region of the bank starts above
    [addr].  Of two regions of one bank the earlier ends below the start
    of the later, so their intervals are disjoint. *)
Theorem region_table_shape (text : string) :
  let regions := generateFunctionRegions (parseNoi text) in
  Forall (λ r, 0 ≤ r_addr r ≤ 0xffff ∧ r_end r ≤ bankMax (r_bank r) ∧
               (r_addr r < 0x4000 → r_bank r = 0)) regions ∧
  (∀ (i : nat) r, regions !! i = Some r →
     r_end r = bankMax (r_bank r) ∨
     ∃ next, regions !! S i = Some next ∧ r_bank next = r_bank r ∧
             r_addr r ≤ r_addr next ∧
             r_end r = Z.min (bankMax (r_bank r)) (r_addr next - 1)) ∧
  (∀ (i : nat) r, regions !! i = Some r →
     r_addr r ≤ bankMax (r_bank r) →
     (∀ next, regions !! S i = Some next → r_bank next = r_bank r →
              r_addr r < r_addr next) →
     r_addr r ≤ r_end r) ∧
  ForallOrdPairs (λ r1 r2, r_bank r1 = r_bank r2 →
                   r_end r1 < r_addr r2 ∧
                   ∀ pc, ¬ (containsPc pc r1 = true ∧ containsPc pc r2 = true)) regions.
Proof.
  cbv zeta. unfold generateFunctionRegions.
  destruct (groups_regions_shape SymbolInRange (groupByBank (parseNoi text)))
    as (H1 & H2 & H3).
  { apply groupByBank_wf, parseNoi_in_range. }
  split; [|split; [exact H2|split]].
  - eapply Forall_impl; [exact H1|].
    intros r (_ & He & s & (Ha & Hb & Hlow) & Heq). rewrite Heq. simpl.
    rewrite Heq in He. simpl in He. done.
  - intros i r Hi Hmax Hnext.
    destruct (H2 i r Hi) as [->|(next & Hn & Hb & Hle & ->)]; [done|].
    specialize (Hnext next Hn Hb). lia.
  - eapply ForallOrdPairs_impl; [|exact H3].
    intros r1 r2 Hap Hb. split; [by apply Hap|].
    intros pc [Hc1 Hc2]. unfold containsPc in *.
    apply bool_decide_eq_true in Hc1, Hc2. specialize (Hap Hb). lia.
Qed.

Lemma region_table_shape_witness :
  r_addr (mkRegion "_main" 0x150 0 0x3fff) ≤ r_end (mkRegion "_main" 0x150 0 0x3fff).
Proof.
  apply (proj1 (proj2 (proj2 (region_table_shape "DEF _main 0x150"))) 5%nat
           (mkRegion "_main" 0x150 0 0x3fff)).
  - by vm_compute.
  - by vm_compute.
  - intros next Hnext. vm_compute in Hnext. discriminate Hnext.
Defined.

(** ** The PC resolver *)

Lemma find_Some {A} (p : A → bool) (l : list A) x :
  find_ p l = Some x → x ∈ l ∧ p x = true.
Proof.
  induction l as [|y l IH]; simpl; [done|].
  destruct (p y) eqn:Hy.
  - intros [= <-]. split; [apply elem_of_cons; by left|done].
  - intros H. destruct (IH H). split; [apply elem_of_cons; by right|done].
Qed.

Lemma find_None {A} (p : A → bool) (l : list A) :
  find_ p l = None → ∀ x, x ∈ l → p x = false.
Proof.
  induction l as [|y l IH]; simpl; [by intros _ x Hx; apply elem_of_nil in Hx|].
  destruct (p y) eqn:Hy; [done|].
  intros H x Hx. apply elem_of_cons in Hx as [->|Hx]; [done|]. by apply IH.
Qed.

(** [regionsByBank[b]] lists the regions of bank [b] in table order. *)
Lemma buildRegionsByBank_lookup functionRegions (b : Z) :
  default [] (buildRegionsByBank functionRegions !! b)
  = filter (λ r, r_bank r = b) functionRegions.
Proof.
  unfold buildRegionsByBank.
  assert (Hgen : ∀ (acc : gmap Z (list Region)),
    default [] (foldl (λ byBank region,
        <[r_bank region := default [] (byBank !! r_bank region) ++ [region]]> byBank)
      acc functionRegions !! b)
    = default [] (acc !! b) ++ filter (λ r, r_bank r = b) functionRegions).
  { induction functionRegions as [|r l IH]; intros acc.
    - simpl. by rewrite app_nil_r.
    - cbn [foldl]. rewrite IH, filter_cons.
      destruct (decide (r_bank r = b)) as [<-|Hne].
      + rewrite lookup_insert_eq. simpl. by rewrite <- app_assoc.
      + by rewrite lookup_insert_ne. }
  rewrite Hgen, lookup_empty. done.
Qed.

Lemma findInBank_default this pc bank :
  findInBank this pc bank
  = find_ (containsPc pc) (default [] (regionsByBank this !! targetBankOf pc bank)).
Proof. unfold findInBank. by destruct (regionsByBank this !! targetBankOf pc bank). Qed.

Lemma getCurrentFunctionRegion_cases this pc bank :
  getCurrentFunctionRegion this pc bank
  = match currentFnRegion this with
    | Some fn => if sticky fn pc bank then Some fn else findInBank this pc bank
    | None => findInBank this pc bank
    end.
Proof. reflexivity. Qed.

Lemma sticky_true fn pc bank :
  sticky fn pc bank = true ↔
  (r_addr fn ≤ pc ∧ pc ≤ r_end fn) ∧ (pc < 0x4000 ∨ r_bank fn = bank).
Proof.
  unfold sticky. rewrite andb_true_iff, !bool_decide_eq_true. done.
Qed.

(** With the table of [initialize], the resolver returns the cached region
    exactly when the sticky test passes: [find] cannot give it back, since
    it is then in the wrong bank.  So [newFn === this.currentFnRegion]
    holds on the sticky path and on no other. *)
Lemma resolver_cached_iff_sticky this functionRegions pc bank fn :
  regionsByBank this = buildRegionsByBank functionRegions →
  currentFnRegion this = Some fn →
  getCurrentFunctionRegion this pc bank = Some fn ↔ sticky fn pc bank = true.
Proof.
  intros Htable Hcur. rewrite getCurrentFunctionRegion_cases, Hcur.
  destruct (sticky fn pc bank) eqn:Hst; [done|].
  split; [|done]. intros Hfind. exfalso.
  rewrite findInBank_default, Htable, buildRegionsByBank_lookup in Hfind.
  apply find_Some in Hfind as [Hin Hc].
  apply list_elem_of_filter in Hin as [Hb _].
  unfold containsPc in Hc. apply bool_decide_eq_true in Hc.
  apply not_true_iff_false in Hst. apply Hst. apply sticky_true. split; [done|].
  unfold targetBankOf in Hb. case_decide; [by left|by right].
Qed.

(** In a table built from a NOI text, two regions of one bank that hold
    the same [pc] are the same region. *)
Lemma regions_same_bank_same_pc text r1 r2 pc :
  r1 ∈ generateFunctionRegions (parseNoi text) →
  r2 ∈ generateFunctionRegions (parseNoi text) →
  r_bank r1 = r_bank r2 →
  containsPc pc r1 = true → containsPc pc r2 = true →
  r1 = r2.
Proof.
  intros H1 H2 Hb Hc1 Hc2.
  destruct (noi_regions_apart text) as [_ Hfop].
  apply list_elem_of_In in H1, H2.
  unfold containsPc in Hc1, Hc2. apply bool_decide_eq_true in Hc1, Hc2.
  destruct (ForallOrdPairs_In Hfop _ _ H1 H2) as [?|[H|H]]; [done| |].
  - specialize (H Hb). lia.
  - specialize (H (eq_sym Hb)). lia.
Qed.

(** C6 (as amended).  The resolver returns the cached region when the
    sticky test passes; otherwise it returns a region of
    [regionsByBank[pc < 0x4000 ? 0 : bank]] whose interval holds [pc], or
    nothing when that bank has no such region.  With the table of a NOI
    text, a [pc] equal to the [end] of a region of the target bank
    resolves to that very region, provided the region is not empty
    ([addr ≤ end]). *)
Theorem resolver_returns_region_holding_pc (this : Runner) (pc bank : Z) :
  (∀ fn, currentFnRegion this = Some fn →
         r_addr fn ≤ pc ∧ pc ≤ r_end fn →
         pc < 0x4000 ∨ r_bank fn = bank →
         getCurrentFunctionRegion this pc bank = Some fn) ∧
  ((∀ fn, currentFnRegion this = Some fn →
          ¬ ((r_addr fn ≤ pc ∧ pc ≤ r_end fn) ∧ (pc < 0x4000 ∨ r_bank fn = bank))) →
   let bankRegions :=
     default [] (regionsByBank this !! (if decide (pc < 0x4000) then 0 else bank)) in
   match getCurrentFunctionRegion this pc bank with
   | Some r => r ∈ bankRegions ∧ r_addr r ≤ pc ∧ pc ≤ r_end r
   | None => ∀ r, r ∈ bankRegions → ¬ (r_addr r ≤ pc ∧ pc ≤ r_end r)
   end) ∧
  (∀ text r,
     regionsByBank this = buildRegionsByBank (generateFunctionRegions (parseNoi text)) →
     (∀ fn, currentFnRegion this = Some fn → fn ∈ generateFunctionRegions (parseNoi text)) →
     r ∈ generateFunctionRegions (parseNoi text) →
     r_bank r = (if decide (pc < 0x4000) then 0 else bank) →
     r_addr r ≤ r_end r →
     pc = r_end r →
     getCurrentFunctionRegion this pc bank = Some r).
Proof.
  rewrite getCurrentFunctionRegion_cases, findInBank_default.
  fold (targetBankOf pc bank).
  split; [|split].
  - intros fn -> Hin Hbank. by rewrite (proj2 (sticky_true fn pc bank)).
  - intros Hnot. cbv zeta.
    assert (Hfind :
      match find_ (containsPc pc) (default [] (regionsByBank this !! targetBankOf pc bank)) with
      | Some r => r ∈ default [] (regionsByBank this !! targetBankOf pc bank) ∧
                  r_addr r ≤ pc ∧ pc ≤ r_end r
      | None => ∀ r, r ∈ default [] (regionsByBank this !! targetBankOf pc bank) →
                     ¬ (r_addr r ≤ pc ∧ pc ≤ r_end r)
      end).
    { destruct (find_ _ _) as [r|] eqn:Hf.
      - apply find_Some in Hf as [Hin Hc]. split; [done|].
        by apply bool_decide_eq_true in Hc.
      - intros r Hin Hc. pose proof (find_None _ _ Hf r Hin) as Hc'.
        unfold containsPc in Hc'. by rewrite bool_decide_eq_true_2 in Hc'. }
    destruct (currentFnRegion this) as [fn|]; [|exact Hfind].
    destruct (sticky fn pc bank) eqn:Hst; [|exact Hfind].
    apply sticky_true in Hst. by destruct (Hnot fn eq_refl).
  - intros text r Htable Hcur Hr Hbank Hne Hpc.
    assert (Hc : containsPc pc r = true).
    { unfold containsPc. apply bool_decide_eq_true. lia. }
    assert (Hfind : find_ (containsPc pc)
                      (default [] (regionsByBank this !! targetBankOf pc bank)) = Some r).
    { rewrite Htable, buildRegionsByBank_lookup.
      destruct (find_ _ _) as [r'|] eqn:Hf.
      - apply find_Some in Hf as [Hin Hc'].
        apply list_elem_of_filter in Hin as [Hb' Hin].
        f_equal. apply (regions_same_bank_same_pc text r' r pc); try done.
        exact (eq_trans Hb' (eq_sym Hbank)).
      - assert (Hin : r ∈ filter (λ r0, r_bank r0 = targetBankOf pc bank)
                            (generateFunctionRegions (parseNoi text))).
        { apply list_elem_of_filter. split; [exact Hbank|done]. }
        pose proof (find_None _ _ Hf r Hin). congruence. }
    destruct (currentFnRegion this) as [fn|]; [|exact Hfind].
    destruct (sticky fn pc bank) eqn:Hst; [|exact Hfind].
    apply sticky_true in Hst as [Hin Hb]. f_equal.
    specialize (Hcur fn eq_refl).
    apply (regions_same_bank_same_pc text fn r pc); try done.
    + destruct (noi_regions_apart text) as (Hrange & _).
      rewrite Forall_forall in Hrange.
      destruct (Hrange fn Hcur) as (_ & Hlow).
      destruct (Hrange r Hr) as (Hend & _).
      rewrite Hbank. unfold targetBankOf. case_decide; [apply Hlow; lia|].
      destruct Hb as [?|Hb]; [lia|done].
    + unfold containsPc. by apply bool_decide_eq_true.
Qed.

Lemma resolver_returns_region_holding_pc_witness :
  getCurrentFunctionRegion twoFunctions 0x1ff 1 = Some (mkRegion "_a" 0x100 0 0x1ff).
Proof.
  apply (proj2 (proj2 (resolver_returns_region_holding_pc twoFunctions 0x1ff 1))
           ("DEF _a 0x100" ++ LF ++ "DEF _b 0x200")%string
           (mkRegion "_a" 0x100 0 0x1ff)).
  - reflexivity.
  - intros fn Hfn. vm_compute in Hfn. discriminate Hfn.
  - assert (Hi : generateFunctionRegions
                   (parseNoi ("DEF _a 0x100" ++ LF ++ "DEF _b 0x200")%string) !! 5%nat
                 = Some (mkRegion "_a" 0x100 0 0x1ff)) by (by vm_compute).
    by apply list_elem_of_lookup_2 in Hi.
  - reflexivity.
  - by vm_compute.
  - reflexivity.
Defined.

(** [_shadow_OAM] lies in work RAM: its region of bank 0 starts at
    [0xC000] and ends at [0x3FFF], and a [pc] of [0x3FFF] resolves to
    [[INTERRUPT] JOY], the region before it, which ends there too. *)
Lemma end_of_ram_region_resolves_elsewhere :
  ¬ EndResolvesToRegion (initialize (Some "DEF _shadow_OAM 0xC000"))
      (generateFunctionRegions (parseNoi "DEF _shadow_OAM 0xC000")).
Proof.
  intros H.
  assert (Hr : generateFunctionRegions (parseNoi "DEF _shadow_OAM 0xC000") !! 5%nat
               = Some (mkRegion "_shadow_OAM" 0xC000 0 0x3fff)) by (by vm_compute).
  apply list_elem_of_lookup_2 in Hr.
  specialize (H 0x3fff 0 _ Hr eq_refl eq_refl).
  vm_compute in H. discriminate H.
Qed.

(** ** The capture-start filter *)

Example finalizeEvents_straddling :
  finalizeEvents straddlingTrace (Some 4)
  = [ mkEvent TypeO 3 (Some 0%nat) None;
      mkEvent TypeC 5 (Some 0%nat) (Some 3);
      mkEvent TypeO 6 (Some 1%nat) None ].
Proof. by vm_compute. Qed.

(** An open and a close at the same cycle: the open goes first. *)
Example sortEvents_tie :
  sortEvents [ mkEvent TypeC 7 (Some 0%nat) (Some 7); mkEvent TypeO 7 (Some 0%nat) None;
               mkEvent TypeO 2 (Some 1%nat) None ]
  = [ mkEvent TypeO 2 (Some 1%nat) None; mkEvent TypeO 7 (Some 0%nat) None;
      mkEvent TypeC 7 (Some 0%nat) (Some 7) ].
Proof. by vm_compute. Qed.

Lemma remainingOpens_elem stacks j : j ∈ remainingOpens stacks ↔ onStack stacks j.
Proof.
  unfold remainingOpens, onStack. rewrite list_elem_of_In, in_concat. split.
  - intros (s & Hs & Hj). apply list_elem_of_In, list_elem_of_fmap in Hs as ([f s'] & -> & Hfs).
    apply elem_of_map_to_list in Hfs. exists f, s'. split; [done|].
    by apply list_elem_of_In.
  - intros (f & s & Hfs & Hj). exists s. split; [|by apply list_elem_of_In].
    apply list_elem_of_In, list_elem_of_fmap. exists (f, s). split; [done|].
    by apply elem_of_map_to_list.
Qed.

Lemma default_stack_elem (stacks : gmap (option nat) (list nat)) f (j : nat) :
  j ∈ default [] (stacks !! f) → ∃ s, stacks !! f = Some s ∧ j ∈ s.
Proof.
  destruct (stacks !! f) as [s|]; simpl; [eauto|]. by rewrite elem_of_nil.
Qed.

(** Setting flags never clears one. *)
Lemma insert_true_keeps (inc : list bool) (k j : nat) :
  inc !! j = Some true → <[k := true]> inc !! j = Some true.
Proof.
  intros Hj. destruct (decide (k = j)) as [->|Hne].
  - apply list_lookup_insert_eq. by apply lookup_lt_Some in Hj.
  - by rewrite list_lookup_insert_ne.
Qed.

Lemma set_opens_length (opens : list nat) (inc : list bool) :
  length (foldr (λ openIndex acc, <[openIndex := true]> acc) inc opens) = length inc.
Proof. induction opens as [|o opens IH]; simpl; [done|]. by rewrite length_insert. Qed.

Lemma set_opens_keeps (opens : list nat) (inc : list bool) j :
  inc !! j = Some true →
  foldr (λ openIndex acc, <[openIndex := true]> acc) inc opens !! j = Some true.
Proof.
  intros Hj. induction opens as [|o opens IH]; simpl; [done|]. by apply insert_true_keeps.
Qed.

Lemma set_opens_elem (opens : list nat) (inc : list bool) j :
  j ∈ opens → (j < length inc)%nat →
  foldr (λ openIndex acc, <[openIndex := true]> acc) inc opens !! j = Some true.
Proof.
  intros Hj Hlen. induction opens as [|o opens IH]; simpl; [by apply elem_of_nil in Hj|].
  apply elem_of_cons in Hj as [<-|Hj].
  - apply list_lookup_insert_eq. by rewrite set_opens_length.
  - apply insert_true_keeps. by apply IH.
Qed.

Lemma set_opens_other (opens : list nat) (inc : list bool) j :
  j ∉ opens →
  foldr (λ openIndex acc, <[openIndex := true]> acc) inc opens !! j = inc !! j.
Proof.
  intros Hj. induction opens as [|o opens IH]; simpl; [done|].
  apply not_elem_of_cons in Hj as [Hne Hj].
  rewrite list_lookup_insert_ne by done. by apply IH.
Qed.

Lemma filterStep_length start i e st :
  length (include (filterStep start i e st)) = length (include st).
Proof.
  unfold filterStep. destruct (e_type e); [done|].
  destruct (stackByFrame st !! e_frame e) as [[|o s]|]; try done.
  simpl. case_decide; [|done]. by rewrite !length_insert.
Qed.

Lemma filterStep_keeps start i e st j :
  include st !! j = Some true → include (filterStep start i e st) !! j = Some true.
Proof.
  intros Hj. unfold filterStep. destruct (e_type e); [done|].
  destruct (stackByFrame st !! e_frame e) as [[|o s]|]; try done.
  simpl. case_decide; [|done]. by do 2 apply insert_true_keeps.
Qed.

Lemma filterStep_stacks start i e st :
  stackByFrame (filterStep start i e st) = stackStep i e (stackByFrame st).
Proof.
  unfold filterStep, stackStep. destruct (e_type e); [done|].
  by destruct (stackByFrame st !! e_frame e) as [[|o s]|].
Qed.

Lemma finalFlags_cons start i e evs st :
  finalFlags start i (e :: evs) st = finalFlags start (S i) evs (filterStep start i e st).
Proof. reflexivity. Qed.

Lemma finalFlags_length start i evs st :
  length (finalFlags start i evs st) = length (include st).
Proof.
  revert i st. induction evs as [|e evs IH]; intros i st.
  - apply set_opens_length.
  - rewrite finalFlags_cons, IH. apply filterStep_length.
Qed.

Lemma finalFlags_keeps start i evs st j :
  include st !! j = Some true → finalFlags start i evs st !! j = Some true.
Proof.
  revert i st. induction evs as [|e evs IH]; intros i st Hj.
  - by apply set_opens_keeps.
  - rewrite finalFlags_cons. by apply IH, filterStep_keeps.
Qed.

Lemma FilterInv_init n : FilterInv 0 (mkFilterState (replicate n false) ∅).
Proof.
  constructor; simpl; try (intros; by simplify_map_eq).
  intros j _ Hj. rewrite length_replicate in Hj. by apply lookup_replicate_2.
Qed.

Lemma FilterInv_onStack_lt i st j :
  FilterInv i st → onStack (stackByFrame st) j → (j < i)%nat.
Proof. intros Hinv (f & s & Hf & Hj). eapply inv_lt; eauto. Qed.

Lemma FilterInv_weaken i st : FilterInv i st → FilterInv (S i) st.
Proof.
  intros [H1 H2 H3 H4 H5]. constructor; try done.
  - intros f s j Hf Hj. specialize (H1 f s j Hf Hj). lia.
  - intros j Hj Hlen. apply H5; [lia|done].
Qed.

Lemma FilterInv_push i st f :
  FilterInv i st → (i < length (include st))%nat →
  FilterInv (S i)
    (mkFilterState (include st)
       (<[f := i :: default [] (stackByFrame st !! f)]> (stackByFrame st))).
Proof.
  intros [H1 H2 H3 H4 H5] Hlen.
  assert (Hold : ∀ j, j ∈ default [] (stackByFrame st !! f) →
                      ∃ s, stackByFrame st !! f = Some s ∧ j ∈ s)
    by (intros j; apply default_stack_elem).
  constructor; cbn [include stackByFrame].
  - intros g s j Hg Hj. destruct (decide (f = g)) as [<-|Hne].
    + rewrite lookup_insert_eq in Hg. injection Hg as <-.
      apply elem_of_cons in Hj as [->|Hj]; [lia|].
      destruct (Hold j Hj) as (s & Hs & Hjs). specialize (H1 f s j Hs Hjs). lia.
    + rewrite lookup_insert_ne in Hg by done. specialize (H1 g s j Hg Hj). lia.
  - intros g s j Hg Hj. destruct (decide (f = g)) as [<-|Hne].
    + rewrite lookup_insert_eq in Hg. injection Hg as <-.
      apply elem_of_cons in Hj as [->|Hj]; [by apply H5|].
      destruct (Hold j Hj) as (s & Hs & Hjs). by apply (H2 f s).
    + rewrite lookup_insert_ne in Hg by done. by apply (H2 g s).
  - intros g s Hg. destruct (decide (f = g)) as [<-|Hne].
    + rewrite lookup_insert_eq in Hg. injection Hg as <-.
      apply NoDup_cons. split.
      * intros Hi. destruct (Hold i Hi) as (s & Hs & His).
        specialize (H1 f s i Hs His). lia.
      * destruct (stackByFrame st !! f) as [s|] eqn:Hs; simpl; [by apply (H3 f)|].
        constructor.
    + rewrite lookup_insert_ne in Hg by done. by apply (H3 g).
  - intros g h s t j Hg Hh Hjs Hjt.
    destruct (decide (f = g)) as [<-|Hng]; destruct (decide (f = h)) as [<-|Hnh];
      try done.
    + rewrite lookup_insert_eq in Hg. rewrite lookup_insert_ne in Hh by done.
      injection Hg as <-. apply elem_of_cons in Hjs as [->|Hjs].
      * specialize (H1 h t i Hh Hjt). lia.
      * destruct (Hold j Hjs) as (s & Hs & Hjs'). by apply (H4 f h s t j).
    + rewrite lookup_insert_ne in Hg by done. rewrite lookup_insert_eq in Hh.
      injection Hh as <-. apply elem_of_cons in Hjt as [->|Hjt].
      * specialize (H1 g s i Hg Hjs). lia.
      * destruct (Hold j Hjt) as (t & Ht & Hjt'). by apply (H4 g f s t j).
    + rewrite lookup_insert_ne in Hg by done. rewrite lookup_insert_ne in Hh by done.
      by apply (H4 g h s t j).
  - intros j Hj Hjlen. apply H5; [lia|done].
Qed.

(** Once popped, an open index is on no stack. *)
Lemma popped_not_onStack i st f o s :
  FilterInv i st → stackByFrame st !! f = Some (o :: s) →
  ¬ onStack (<[f := s]> (stackByFrame st)) o.
Proof.
  intros [H1 H2 H3 H4 H5] Hf (g & t & Hg & Ho).
  pose proof (H3 f _ Hf) as Hnd. apply NoDup_cons in Hnd as [Hnot _].
  destruct (decide (f = g)) as [<-|Hne].
  - rewrite lookup_insert_eq in Hg. by injection Hg as <-.
  - rewrite lookup_insert_ne in Hg by done. apply Hne.
    apply (H4 f g (o :: s) t o); try done. apply elem_of_cons. by left.
Qed.

Lemma onStack_after_pop stacks f o s j :
  stacks !! f = Some (o :: s) →
  onStack (<[f := s]> stacks) j → onStack stacks j.
Proof.
  intros Hf (g & t & Hg & Hj). destruct (decide (f = g)) as [<-|Hne].
  - rewrite lookup_insert_eq in Hg. injection Hg as <-.
    exists f, (o :: s). split; [done|]. apply elem_of_cons. by right.
  - rewrite lookup_insert_ne in Hg by done. by exists g, t.
Qed.

Lemma FilterInv_pop i st f o s inc' :
  FilterInv i st → stackByFrame st !! f = Some (o :: s) →
  (inc' = include st ∨ inc' = <[i := true]> (<[o := true]> (include st))) →
  FilterInv (S i) (mkFilterState inc' (<[f := s]> (stackByFrame st))).
Proof.
  intros Hinv Hf Hinc. pose proof Hinv as [H1 H2 H3 H4 H5].
  assert (Hsame : ∀ j, (j < i)%nat ∨ (i < j)%nat → j ≠ o → inc' !! j = include st !! j).
  { intros j Hji Hjo. destruct Hinc as [->| ->]; [done|].
    rewrite !list_lookup_insert_ne by (done || lia). done. }
  assert (Holt : (o < i)%nat).
  { apply (H1 f (o :: s) o Hf). apply elem_of_cons. by left. }
  assert (Hlen : length inc' = length (include st)).
  { destruct Hinc as [->| ->]; [done|]. by rewrite !length_insert. }
  constructor; cbn [include stackByFrame].
  - intros g t j Hg Hj.
    assert (onStack (stackByFrame st) j) as (g' & t' & Hg' & Hj').
    { eapply onStack_after_pop; [exact Hf|]. by exists g, t. }
    specialize (H1 g' t' j Hg' Hj'). lia.
  - intros g t j Hg Hj.
    assert (Hon : onStack (<[f := s]> (stackByFrame st)) j) by (by exists g, t).
    assert (j ≠ o).
    { intros ->. by eapply popped_not_onStack. }
    destruct (onStack_after_pop _ _ _ _ _ Hf Hon) as (g' & t' & Hg' & Hj').
    rewrite Hsame; [by apply (H2 g' t')| |done].
    left. by apply (H1 g' t').
  - intros g t Hg. destruct (decide (f = g)) as [<-|Hne].
    + rewrite lookup_insert_eq in Hg. injection Hg as <-.
      pose proof (H3 f _ Hf) as Hnd. by apply NoDup_cons in Hnd as [_ ?].
    + rewrite lookup_insert_ne in Hg by done. by apply (H3 g).
  - intros g h t u j Hg Hh Hjt Hju.
    assert (Hsub : ∀ g t, <[f := s]> (stackByFrame st) !! g = Some t →
                   ∃ t', stackByFrame st !! g = Some t' ∧ ∀ j, j ∈ t → j ∈ t').
    { intros g0 t0 Hg0. destruct (decide (f = g0)) as [<-|Hne].
      - rewrite lookup_insert_eq in Hg0. injection Hg0 as <-.
        exists (o :: s). split; [done|]. intros. apply elem_of_cons. by right.
      - rewrite lookup_insert_ne in Hg0 by done. by exists t0. }
    destruct (Hsub g t Hg) as (t' & Hg' & Ht'). destruct (Hsub h u Hh) as (u' & Hh' & Hu').
    apply (H4 g h t' u' j); auto.
  - intros j Hj Hjlen. rewrite Hsame; [|lia|lia]. apply H5; [lia|]. by rewrite <- Hlen.
Qed.

Lemma FilterInv_step start i e st :
  FilterInv i st → (i < length (include st))%nat →
  FilterInv (S i) (filterStep start i e st).
Proof.
  intros Hinv Hlen. unfold filterStep. destruct (e_type e).
  - by apply FilterInv_push.
  - destruct (stackByFrame st !! e_frame e) as [[|o s]|] eqn:Hf;
      try by apply FilterInv_weaken.
    apply (FilterInv_pop i st (e_frame e) o s); [done|done|].
    case_decide; [by right|by left].
Qed.

Lemma filterStep_untouched start i e st j :
  FilterInv i st → (j < i)%nat → ¬ onStack (stackByFrame st) j →
  include (filterStep start i e st) !! j = include st !! j ∧
  ¬ onStack (stackByFrame (filterStep start i e st)) j.
Proof.
  intros Hinv Hj Hoff. unfold filterStep. destruct (e_type e).
  - split; [done|]. cbn [stackByFrame]. intros (g & t & Hg & Hjt).
    destruct (decide (e_frame e = g)) as [<-|Hne].
    + rewrite lookup_insert_eq in Hg. injection Hg as <-.
      apply elem_of_cons in Hjt as [->|Hjt]; [lia|].
      apply default_stack_elem in Hjt as (s & Hs & Hjs). apply Hoff. by exists (e_frame e), s.
    + rewrite lookup_insert_ne in Hg by done. apply Hoff. by exists g, t.
  - destruct (stackByFrame st !! e_frame e) as [[|o s]|] eqn:Hf; try done.
    cbn [include stackByFrame]. split.
    + case_decide; [|done].
      assert (j ≠ o).
      { intros ->. apply Hoff. exists (e_frame e), (o :: s). split; [done|].
        apply elem_of_cons. by left. }
      rewrite !list_lookup_insert_ne by (done || lia). done.
    + intros Hon. apply Hoff. by eapply onStack_after_pop.
Qed.

(** An index that is behind the walk and on no stack keeps its flag. *)
Lemma finalFlags_untouched start evs i st j :
  FilterInv i st → (i + length evs ≤ length (include st))%nat →
  (j < i)%nat → ¬ onStack (stackByFrame st) j →
  finalFlags start i evs st !! j = include st !! j.
Proof.
  revert i st. induction evs as [|e evs IH]; intros i st Hinv Hlen Hj Hoff.
  - unfold finalFlags, includeRemaining. cbn [filterLoop].
    apply set_opens_other. by rewrite remainingOpens_elem.
  - rewrite finalFlags_cons. cbn [length] in Hlen.
    destruct (filterStep_untouched start i e st j Hinv Hj Hoff) as [Hsame Hoff'].
    rewrite <- Hsame. apply IH; try done.
    + apply FilterInv_step; [done|lia].
    + rewrite filterStep_length. lia.
    + lia.
Qed.

(** An index still on a stack at the end of the walk is flagged. *)
Lemma finalFlags_remaining start evs i st j :
  FilterInv i st → (i + length evs ≤ length (include st))%nat →
  onStack (stackByFrame (filterLoop start i evs st)) j →
  finalFlags start i evs st !! j = Some true.
Proof.
  revert i st. induction evs as [|e evs IH]; intros i st Hinv Hlen Hon.
  - unfold finalFlags, includeRemaining. cbn [filterLoop] in *.
    apply set_opens_elem; [by apply remainingOpens_elem|].
    pose proof (FilterInv_onStack_lt i st j Hinv Hon). lia.
  - rewrite finalFlags_cons. cbn [length] in Hlen. apply IH; try done.
    + apply FilterInv_step; [done|lia].
    + rewrite filterStep_length. lia.
Qed.

(** The three fates of a close. *)
Lemma close_kept start i e evs st o s :
  FilterInv i st → (i + length (e :: evs) ≤ length (include st))%nat →
  e_type e = TypeC → stackByFrame st !! e_frame e = Some (o :: s) →
  start ≤ e_at e →
  finalFlags start i (e :: evs) st !! i = Some true ∧
  finalFlags start i (e :: evs) st !! o = Some true.
Proof.
  intros Hinv Hlen Hty Hf Hat. cbn [length] in Hlen. rewrite finalFlags_cons.
  assert (Holt : (o < i)%nat).
  { apply (inv_lt i st Hinv (e_frame e) (o :: s) o Hf). apply elem_of_cons. by left. }
  unfold filterStep. rewrite Hty, Hf. rewrite decide_True by done.
  split; apply finalFlags_keeps; cbn [include].
  - apply list_lookup_insert_eq. rewrite length_insert. lia.
  - rewrite list_lookup_insert_ne by lia. apply list_lookup_insert_eq. lia.
Qed.

Lemma close_dropped start i e evs st o s :
  FilterInv i st → (i + length (e :: evs) ≤ length (include st))%nat →
  e_type e = TypeC → stackByFrame st !! e_frame e = Some (o :: s) →
  e_at e < start →
  finalFlags start i (e :: evs) st !! i = Some false ∧
  finalFlags start i (e :: evs) st !! o = Some false.
Proof.
  intros Hinv Hlen Hty Hf Hat. cbn [length] in Hlen. rewrite finalFlags_cons.
  assert (Holt : (o < i)%nat).
  { apply (inv_lt i st Hinv (e_frame e) (o :: s) o Hf). apply elem_of_cons. by left. }
  assert (Hstep : filterStep start i e st
                  = mkFilterState (include st) (<[e_frame e := s]> (stackByFrame st))).
  { unfold filterStep. rewrite Hty, Hf. by rewrite decide_False by lia. }
  assert (Hinv' : FilterInv (S i) (filterStep start i e st))
    by (apply FilterInv_step; [done|lia]).
  rewrite Hstep in *. split.
  - rewrite finalFlags_untouched; cbn [include stackByFrame]; try done; try lia.
    + apply (inv_fresh i st Hinv); lia.
    + intros Hon. apply (onStack_after_pop _ _ _ _ _ Hf) in Hon.
      pose proof (FilterInv_onStack_lt i st i Hinv Hon). lia.
  - rewrite finalFlags_untouched; cbn [include stackByFrame]; try done; try lia.
    + apply (inv_undecided i st Hinv (e_frame e) (o :: s)); [done|].
      apply elem_of_cons. by left.
    + by eapply popped_not_onStack.
Qed.

Lemma close_unmatched start i e evs st :
  FilterInv i st → (i + length (e :: evs) ≤ length (include st))%nat →
  e_type e = TypeC → poppedOpen e (stackByFrame st) = None →
  finalFlags start i (e :: evs) st !! i = Some false.
Proof.
  intros Hinv Hlen Hty Hpop. cbn [length] in Hlen. rewrite finalFlags_cons.
  assert (Hstep : filterStep start i e st = st).
  { unfold filterStep, poppedOpen in *. rewrite Hty.
    by destruct (stackByFrame st !! e_frame e) as [[|o s]|]. }
  rewrite Hstep. rewrite finalFlags_untouched; try done; try lia.
  - apply (inv_fresh i st Hinv); lia.
  - by apply FilterInv_weaken.
  - intros Hon. pose proof (FilterInv_onStack_lt i st i Hinv Hon). lia.
Qed.

Lemma poppedOpen_Some e stacks o :
  poppedOpen e stacks = Some o ↔ ∃ s, stacks !! e_frame e = Some (o :: s).
Proof.
  unfold poppedOpen. destruct (stacks !! e_frame e) as [[|o' s]|]; split;
    try done; try (by intros (? & ?)).
  - intros [= ->]. eauto.
  - by intros (s' & [= -> ->]).
Qed.

(** *** The matching walk *)

Lemma matchWalk_cons i e evs stacks :
  matchWalk i (e :: evs) stacks
  = (match e_type e with
     | TypeO => []
     | TypeC => [(i, poppedOpen e stacks)]
     end ++ fst (matchWalk (S i) evs (stackStep i e stacks)),
     snd (matchWalk (S i) evs (stackStep i e stacks))).
Proof.
  cbn [matchWalk]. destruct (matchWalk (S i) evs (stackStep i e stacks)).
  by destruct (e_type e).
Qed.

Lemma matchWalk_final_stacks start i evs st :
  snd (matchWalk i evs (stackByFrame st)) = stackByFrame (filterLoop start i evs st).
Proof.
  revert i st. induction evs as [|e evs IH]; intros i st; [done|].
  rewrite matchWalk_cons. cbn [snd filterLoop].
  by rewrite <- IH, filterStep_stacks.
Qed.

Lemma suffixAt_tail total i e evs :
  suffixAt total i (e :: evs) → total !! i = Some e ∧ suffixAt total (S i) evs.
Proof.
  intros H. split.
  - specialize (H 0%nat e eq_refl). by rewrite Nat.add_0_r in H.
  - intros k e' Hk. specialize (H (S k) e' Hk).
    by replace (S i + k)%nat with (i + S k)%nat by lia.
Qed.

Lemma suffixAt_whole total : suffixAt total 0 total.
Proof. by intros k e Hk. Qed.

(** The flags of a matched pair, from anywhere in the walk. *)
Lemma matched_pair_flags start total evs i st c o close :
  FilterInv i st → (i + length evs ≤ length (include st))%nat →
  suffixAt total i evs →
  (c, Some o) ∈ fst (matchWalk i evs (stackByFrame st)) →
  total !! c = Some close →
  (start ≤ e_at close →
   finalFlags start i evs st !! o = Some true ∧
   finalFlags start i evs st !! c = Some true) ∧
  (e_at close < start →
   finalFlags start i evs st !! o = Some false ∧
   finalFlags start i evs st !! c = Some false).
Proof.
  revert i st. induction evs as [|e evs IH]; intros i st Hinv Hlen Hsuf Hin Hc.
  { by apply elem_of_nil in Hin. }
  apply suffixAt_tail in Hsuf as [Hi Hsuf].
  rewrite matchWalk_cons in Hin. cbn [fst] in Hin.
  apply elem_of_app in Hin as [Hhead|Htail].
  - destruct (e_type e) eqn:Hty; [by apply elem_of_nil in Hhead|].
    apply list_elem_of_singleton in Hhead. injection Hhead as -> Hpop.
    symmetry in Hpop. apply poppedOpen_Some in Hpop as (s & Hf).
    rewrite Hi in Hc. injection Hc as <-. split; intros Hat.
    + destruct (close_kept start i e evs st o s Hinv Hlen Hty Hf Hat). done.
    + destruct (close_dropped start i e evs st o s Hinv Hlen Hty Hf Hat). done.
  - rewrite finalFlags_cons. rewrite <- filterStep_stacks with (start := start) in Htail.
    cbn [length] in Hlen. apply IH; try done.
    + apply FilterInv_step; [done|lia].
    + rewrite filterStep_length. lia.
Qed.

Lemma includeFlags_final start evs :
  includeFlags start evs
  = finalFlags start 0 evs (mkFilterState (replicate (length evs) false) ∅).
Proof. reflexivity. Qed.

Lemma includeFlags_length start evs : length (includeFlags start evs) = length evs.
Proof. rewrite includeFlags_final, finalFlags_length. simpl. apply length_replicate. Qed.

(** [events.filter((_, idx) => include[idx])] keeps the events whose
    flag is set, in order. *)
Lemma keepIncluded_zip evs inc :
  keepIncluded evs inc = fst <$> filter (λ p, p.2 = true) (zip evs inc).
Proof.
  revert inc. induction evs as [|e evs IH]; intros [|b inc]; try done.
  cbn [keepIncluded zip zip_with]. rewrite filter_cons. cbn [snd].
  destruct b.
  - rewrite decide_True by done. rewrite fmap_cons. cbn [fst]. by rewrite IH.
  - rewrite decide_False by done. apply IH.
Qed.

(** C3.  [finalizeTrace] with a capture-start cycle keeps the events
    flagged in [include], over the sorted events.  A close and the open
    it pops in the walk are both flagged when the close's [at] is at
    least the capture-start cycle, and both left out when it is below;
    every open still on a stack at the end of the walk is flagged. *)
Theorem finalize_keeps_pairs_closed_after_start
    (evs : list Event) (captureStartTime : Z) :
  let sorted := sortEvents evs in
  let kept := includeFlags captureStartTime sorted in
  finalizeEvents evs (Some captureStartTime)
  = fst <$> filter (λ p, p.2 = true) (zip sorted kept) ∧
  length kept = length sorted ∧
  (∀ c o close,
     (c, Some o) ∈ closesOf sorted → sorted !! c = Some close →
     (kept !! o = Some true ∧ kept !! c = Some true ↔ captureStartTime ≤ e_at close) ∧
     (kept !! o = Some false ∧ kept !! c = Some false ↔ e_at close < captureStartTime)) ∧
  (∀ o, o ∈ unmatchedOpens sorted → kept !! o = Some true).
Proof.
  cbv zeta. split; [apply keepIncluded_zip|]. split; [apply includeFlags_length|].
  set (sorted := sortEvents evs).
  set (st0 := mkFilterState (replicate (length sorted) false) ∅).
  assert (Hinv : FilterInv 0 st0) by apply FilterInv_init.
  assert (Hlen : (0 + length sorted ≤ length (include st0))%nat).
  { simpl. by rewrite length_replicate. }
  split.
  - intros c o close Hin Hc.
    destruct (matched_pair_flags captureStartTime sorted sorted 0 st0 c o close
                Hinv Hlen (suffixAt_whole sorted) Hin Hc) as [Hkeep Hdrop].
    rewrite includeFlags_final. fold st0. split; split.
    + intros [Ho _]. destruct (decide (captureStartTime ≤ e_at close)); [done|].
      destruct Hdrop as [Ho' _]; [lia|]. congruence.
    + exact Hkeep.
    + intros [Ho _]. destruct (decide (e_at close < captureStartTime)); [done|].
      destruct Hkeep as [Ho' _]; [lia|]. congruence.
    + exact Hdrop.
  - intros o Ho. unfold unmatchedOpens in Ho. apply remainingOpens_elem in Ho.
    rewrite includeFlags_final. fold st0.
    apply finalFlags_remaining; try done.
    by rewrite <- (matchWalk_final_stacks captureStartTime 0 sorted st0).
Qed.

Lemma finalize_keeps_pairs_closed_after_start_witness :
  includeFlags 4 (sortEvents straddlingTrace) !! 2%nat = Some true ∧
  includeFlags 4 (sortEvents straddlingTrace) !! 3%nat = Some true.
Proof.
  destruct (finalize_keeps_pairs_closed_after_start straddlingTrace 4)
    as (_ & _ & Hpairs & _).
  destruct (Hpairs 3%nat 2%nat (mkEvent TypeC 5 (Some 0%nat) (Some 3))) as [[_ Hkeep] _].
  - assert (Hc : closesOf (sortEvents straddlingTrace)
                 = [(1%nat, Some 0%nat); (3%nat, Some 2%nat)]) by (by vm_compute).
    rewrite Hc. apply list_elem_of_lookup. by exists 1%nat.
  - by vm_compute.
  - apply Hkeep. simpl. lia.
Defined.

(** *** Walking the retained events *)

Lemma depthsAgree_push_both F cs stacks f (k i : nat) :
  F !! i = Some true → depthsAgree F cs stacks →
  depthsAgree F (<[f := k :: default [] (cs !! f)]> cs)
                (<[f := i :: default [] (stacks !! f)]> stacks).
Proof.
  intros Hi Hrel g. destruct (decide (f = g)) as [<-|Hne].
  - rewrite !lookup_insert_eq. simpl. rewrite filter_cons, decide_True by done.
    simpl. by rewrite Hrel.
  - rewrite !lookup_insert_ne by done. apply Hrel.
Qed.

Lemma depthsAgree_push_dropped F cs stacks f (i : nat) :
  F !! i ≠ Some true → depthsAgree F cs stacks →
  depthsAgree F cs (<[f := i :: default [] (stacks !! f)]> stacks).
Proof.
  intros Hi Hrel g. destruct (decide (f = g)) as [<-|Hne].
  - rewrite lookup_insert_eq. simpl. rewrite filter_cons, decide_False by done.
    apply Hrel.
  - rewrite lookup_insert_ne by done. apply Hrel.
Qed.

Lemma depthsAgree_pop_both F cs stacks f (o : nat) s :
  F !! o = Some true → stacks !! f = Some (o :: s) → depthsAgree F cs stacks →
  ∃ o' s', cs !! f = Some (o' :: s') ∧
           depthsAgree F (<[f := s']> cs) (<[f := s]> stacks).
Proof.
  intros Ho Hf Hrel. pose proof (Hrel f) as Hdepth.
  rewrite Hf in Hdepth. simpl in Hdepth.
  rewrite filter_cons, decide_True in Hdepth by done. simpl in Hdepth.
  destruct (cs !! f) as [[|o' s']|] eqn:Hcs; try done.
  exists o', s'. split; [done|]. intros g. destruct (decide (f = g)) as [<-|Hne].
  - rewrite !lookup_insert_eq. simpl in *. lia.
  - rewrite !lookup_insert_ne by done. apply Hrel.
Qed.

Lemma depthsAgree_pop_dropped F cs stacks f (o : nat) s :
  F !! o = Some false → stacks !! f = Some (o :: s) → depthsAgree F cs stacks →
  depthsAgree F cs (<[f := s]> stacks).
Proof.
  intros Ho Hf Hrel g. destruct (decide (f = g)) as [<-|Hne].
  - rewrite lookup_insert_eq. rewrite (Hrel f), Hf. simpl.
    rewrite filter_cons, decide_False; [done|]. rewrite Ho. done.
  - rewrite lookup_insert_ne by done. apply Hrel.
Qed.

(** The retained events, from anywhere in the walk: their closes are at
    or after the capture start, and each finds an open on its stack. *)
Lemma kept_walk_balanced start evs i st (k : nat) cs F :
  FilterInv i st → (i + length evs ≤ length (include st))%nat →
  F = finalFlags start i evs st →
  depthsAgree F cs (stackByFrame st) →
  Forall (λ e, e_type e = TypeC → start ≤ e_at e) (keepIncluded evs (drop i F)) ∧
  Forall (λ cm, cm.2 ≠ None) (fst (matchWalk k (keepIncluded evs (drop i F)) cs)).
Proof.
  revert i st k cs. induction evs as [|e evs IH]; intros i st k cs Hinv Hlen HF Hrel.
  { simpl. split; constructor. }
  assert (Hlen' : (i < length F)%nat).
  { rewrite HF, finalFlags_length. cbn [length] in Hlen. lia. }
  destruct (lookup_lt_is_Some_2 F i Hlen') as [b Hb].
  rewrite (drop_S F b i Hb). cbn [keepIncluded].
  assert (Hinv' : FilterInv (S i) (filterStep start i e st)).
  { apply FilterInv_step; [done|]. cbn [length] in Hlen. lia. }
  assert (Hlen2 : (S i + length evs ≤ length (include (filterStep start i e st)))%nat).
  { rewrite filterStep_length. cbn [length] in Hlen. lia. }
  assert (HF' : F = finalFlags start (S i) evs (filterStep start i e st)) by done.
  destruct (e_type e) eqn:Hty.
  - (* an open *)
    assert (Hstacks : stackByFrame (filterStep start i e st)
                      = <[e_frame e := i :: default [] (stackByFrame st !! e_frame e)]>
                          (stackByFrame st)).
    { unfold filterStep. by rewrite Hty. }
    destruct b.
    + rewrite matchWalk_cons, Hty. cbn [fst app].
      destruct (IH (S i) (filterStep start i e st) (S k) (stackStep k e cs))
        as [IH1 IH2]; try done.
      { rewrite Hstacks. unfold stackStep. rewrite Hty. by apply depthsAgree_push_both. }
      split; [|done]. constructor; [by rewrite Hty|done].
    + apply (IH (S i) (filterStep start i e st) k cs); try done.
      rewrite Hstacks. apply depthsAgree_push_dropped; [|done]. by rewrite Hb.
  - (* a close *)
    destruct (poppedOpen e (stackByFrame st)) as [o|] eqn:Hpop.
    + apply poppedOpen_Some in Hpop as (s & Hf).
      assert (Hstacks : stackByFrame (filterStep start i e st)
                        = <[e_frame e := s]> (stackByFrame st)).
      { unfold filterStep. by rewrite Hty, Hf. }
      destruct (decide (start ≤ e_at e)) as [Hat|Hat].
      * destruct (close_kept start i e evs st o s Hinv Hlen Hty Hf Hat) as [Hi Ho].
        rewrite <- HF in Hi, Ho. rewrite Hb in Hi. injection Hi as ->.
        destruct (depthsAgree_pop_both F cs _ _ o s Ho Hf Hrel) as (o' & s' & Hcs & Hrel').
        rewrite matchWalk_cons, Hty. cbn [fst app].
        destruct (IH (S i) (filterStep start i e st) (S k) (stackStep k e cs))
          as [IH1 IH2]; try done.
        { rewrite Hstacks. unfold stackStep. by rewrite Hty, Hcs. }
        split; [by constructor|]. constructor; [|done].
        cbn [snd]. unfold poppedOpen. by rewrite Hcs.
      * destruct (close_dropped start i e evs st o s Hinv Hlen Hty Hf) as [Hi Ho]; [lia|].
        rewrite <- HF in Hi, Ho. rewrite Hb in Hi. injection Hi as ->.
        apply (IH (S i) (filterStep start i e st) k cs); try done.
        rewrite Hstacks. by apply (depthsAgree_pop_dropped F cs _ _ o s).
    + pose proof (close_unmatched start i e evs st Hinv Hlen Hty Hpop) as Hi.
      rewrite <- HF in Hi. rewrite Hb in Hi. injection Hi as ->.
      assert (Hstep : filterStep start i e st = st).
      { unfold filterStep, poppedOpen in *. rewrite Hty.
        by destruct (stackByFrame st !! e_frame e) as [[|o s]|]. }
      apply (IH (S i) (filterStep start i e st) k cs); try done.
      by rewrite Hstep.
Qed.

Lemma depthsAgree_empty F : depthsAgree F ∅ ∅.
Proof. intros f. by rewrite !lookup_empty. Qed.

Lemma finalized_closes start sorted :
  Forall (λ e, e_type e = TypeC → start ≤ e_at e)
         (keepIncluded sorted (includeFlags start sorted)) ∧
  Forall (λ cm, cm.2 ≠ None) (closesOf (keepIncluded sorted (includeFlags start sorted))).
Proof.
  apply (kept_walk_balanced start sorted 0
           (mkFilterState (replicate (length sorted) false) ∅) 0 ∅
           (includeFlags start sorted)).
  - apply FilterInv_init.
  - simpl. by rewrite length_replicate.
  - apply includeFlags_final.
  - apply depthsAgree_empty.
Qed.

Lemma stacksTagged_step total i e stacks :
  total !! i = Some e → stacksTagged total i stacks →
  stacksTagged total (S i) (stackStep i e stacks).
Proof.
  intros Hi Htag f s j Hf Hj. unfold stackStep in Hf. destruct (e_type e) eqn:Hty.
  - destruct (decide (e_frame e = f)) as [<-|Hne].
    + rewrite lookup_insert_eq in Hf. injection Hf as <-.
      apply elem_of_cons in Hj as [->|Hj]; [split; [lia|eauto]|].
      apply default_stack_elem in Hj as (s & Hs & Hjs).
      destruct (Htag _ _ _ Hs Hjs) as [? ?]. split; [lia|done].
    + rewrite lookup_insert_ne in Hf by done.
      destruct (Htag _ _ _ Hf Hj) as [? ?]. split; [lia|done].
  - assert (Hold : ∃ s', stacks !! f = Some s' ∧ j ∈ s').
    { destruct (stacks !! e_frame e) as [[|o s']|] eqn:Hs; try by eauto.
      destruct (decide (e_frame e = f)) as [<-|Hne].
      - rewrite lookup_insert_eq in Hf. injection Hf as <-.
        exists (o :: s'). split; [done|]. apply elem_of_cons. by right.
      - rewrite lookup_insert_ne in Hf by done. eauto. }
    destruct Hold as (s' & Hs' & Hjs'). destruct (Htag _ _ _ Hs' Hjs') as [? ?].
    split; [lia|done].
Qed.

(** Every entry of the walk's report is a close of the list, and the
    open it pops is an earlier open with the same frame index. *)
Lemma matchWalk_sound total evs i stacks c m :
  stacksTagged total i stacks → suffixAt total i evs →
  (c, m) ∈ fst (matchWalk i evs stacks) →
  (∃ close, total !! c = Some close ∧ e_type close = TypeC ∧
     ∀ o, m = Some o →
       (o < c)%nat ∧
       ∃ open, total !! o = Some open ∧ e_type open = TypeO ∧
               e_frame open = e_frame close).
Proof.
  revert i stacks. induction evs as [|e evs IH]; intros i stacks Htag Hsuf Hin.
  { by apply elem_of_nil in Hin. }
  apply suffixAt_tail in Hsuf as [Hi Hsuf].
  rewrite matchWalk_cons in Hin. cbn [fst] in Hin.
  apply elem_of_app in Hin as [Hhead|Htail].
  - destruct (e_type e) eqn:Hty; [by apply elem_of_nil in Hhead|].
    apply list_elem_of_singleton in Hhead. injection Hhead as -> ->.
    exists e. split; [done|]. split; [done|].
    intros o Hpop. apply poppedOpen_Some in Hpop as (s & Hf).
    apply (Htag _ _ o Hf). apply elem_of_cons. by left.
  - apply (IH (S i) (stackStep i e stacks)); try done.
    by apply stacksTagged_step.
Qed.

(** Every close of the list is in the walk's report. *)
Lemma matchWalk_complete evs i stacks (k : nat) e :
  evs !! k = Some e → e_type e = TypeC →
  ∃ m, ((i + k)%nat, m) ∈ fst (matchWalk i evs stacks).
Proof.
  revert i stacks k. induction evs as [|e' evs IH]; intros i stacks k Hk Hty; [done|].
  rewrite matchWalk_cons. cbn [fst]. destruct k as [|k].
  - injection Hk as ->. rewrite Hty, Nat.add_0_r. eexists.
    apply elem_of_app. left. by apply list_elem_of_singleton.
  - destruct (IH (S i) (stackStep i e' stacks) k Hk Hty) as [m Hm].
    exists m. apply elem_of_app. right.
    by replace (i + S k)%nat with (S i + k)%nat by lia.
Qed.

Lemma stacksTagged_empty total : stacksTagged total 0 ∅.
Proof. intros f s j Hf. by rewrite lookup_empty in Hf. Qed.

(** C5.  Walk the events that [finalizeTrace] retains, in order, with one
    LIFO of open indices per frame index: every close of the list is
    reported by the walk, and every reported close pops an open; that
    open is an earlier event of the list, an open with the same frame
    index.  So no close is unmatched. *)
Theorem finalized_events_are_balanced (evs : list Event) (captureStartTime : Z) :
  let final := finalizeEvents evs (Some captureStartTime) in
  (∀ (c : nat) close, final !! c = Some close → e_type close = TypeC →
     ∃ o, (c, Some o) ∈ closesOf final) ∧
  (∀ c m, (c, m) ∈ closesOf final →
     ∃ o open close,
       m = Some o ∧ (o < c)%nat ∧
       final !! o = Some open ∧ final !! c = Some close ∧
       e_type open = TypeO ∧ e_type close = TypeC ∧
       e_frame open = e_frame close) ∧
  Forall (λ cm, cm.2 ≠ None) (closesOf final).
Proof.
  cbv zeta. unfold finalizeEvents.
  set (final := keepIncluded (sortEvents evs)
                  (includeFlags captureStartTime (sortEvents evs))).
  destruct (finalized_closes captureStartTime (sortEvents evs)) as [_ Hbal].
  fold final in Hbal. rewrite Forall_forall in Hbal.
  assert (Hsound : ∀ c m, (c, m) ∈ closesOf final →
     ∃ o open close,
       m = Some o ∧ (o < c)%nat ∧
       final !! o = Some open ∧ final !! c = Some close ∧
       e_type open = TypeO ∧ e_type close = TypeC ∧
       e_frame open = e_frame close).
  { intros c m Hin. pose proof (Hbal _ Hin) as Hm. simpl in Hm.
    destruct m as [o|]; [|done].
    destruct (matchWalk_sound final final 0 ∅ c (Some o)
                (stacksTagged_empty final) (suffixAt_whole final) Hin)
      as (close & Hc & Hty & Hopen).
    destruct (Hopen o eq_refl) as (Hlt & open & Ho & Hto & Hfr).
    exists o, open, close. done. }
  split; [|split; [exact Hsound|]].
  - intros c close Hc Hty.
    destruct (matchWalk_complete final 0 ∅ c close Hc Hty) as [m Hm].
    destruct (Hsound _ _ Hm) as (o & _ & _ & -> & _). by exists o.
  - by apply Forall_forall.
Qed.

Lemma finalized_events_are_balanced_witness :
  ∃ o, (1%nat, Some o) ∈ closesOf (finalizeEvents straddlingTrace (Some 4)).
Proof.
  apply (proj1 (finalized_events_are_balanced straddlingTrace 4) 1%nat
           (mkEvent TypeC 5 (Some 0%nat) (Some 3))).
  - by vm_compute.
  - reflexivity.
Defined.

(** *** Sorting *)

Lemma evLe_iff a b :
  evLe a b ↔
  e_at a < e_at b ∨ (e_at a = e_at b ∧ (e_type a = e_type b ∨ e_type a = TypeO)).
Proof.
  unfold evLe, compareEvents.
  destruct (decide (e_at a ≠ e_at b)) as [Hne|Heq]; [lia|].
  assert (e_at a = e_at b) by lia.
  destruct (decide (e_type a = e_type b)) as [Hty|Hty]; [intuition lia|].
  destruct (e_type a), (e_type b); try done; intuition (try lia; try done).
Qed.

Lemma evLe_trans a b c : evLe a b → evLe b c → evLe a c.
Proof.
  rewrite !evLe_iff. intros [?|[? Hab]] [?|[? Hbc]]; try (left; lia).
  right. split; [lia|].
  destruct (e_type a), (e_type b), (e_type c); intuition congruence.
Qed.

Lemma evLe_total a b : ¬ evLe a b → evLe b a.
Proof.
  rewrite !evLe_iff. intros Hnot.
  destruct (Z.lt_trichotomy (e_at a) (e_at b)) as [?|[?|?]]; [tauto| |by left].
  right. split; [done|].
  destruct (e_type a) eqn:Ha, (e_type b) eqn:Hb; tauto.
Qed.

Lemma insertEvent_elem x l y : y ∈ insertEvent x l ↔ y = x ∨ y ∈ l.
Proof.
  induction l as [|z l IH]; simpl.
  - rewrite list_elem_of_singleton, elem_of_nil. tauto.
  - case_decide; rewrite !elem_of_cons; [tauto|]. rewrite IH. tauto.
Qed.

Lemma insertEvent_sorted x l :
  StronglySorted evLe l → StronglySorted evLe (insertEvent x l).
Proof.
  induction 1 as [|z l Hl IH Hz]; simpl.
  - repeat constructor.
  - case_decide as Hxz.
    + constructor; [by constructor|]. constructor; [done|].
      eapply Forall_impl; [exact Hz|]. intros y Hy. by eapply evLe_trans.
    + constructor; [done|]. apply Forall_forall. intros y Hy.
      apply insertEvent_elem in Hy as [->|Hy]; [by apply evLe_total|].
      rewrite Forall_forall in Hz. by apply Hz.
Qed.

Lemma sortEvents_sorted l : StronglySorted evLe (sortEvents l).
Proof.
  induction l as [|x l IH]; simpl; [constructor|]. by apply insertEvent_sorted.
Qed.

(** Sorting leaves a sorted list as it is. *)
Lemma sortEvents_id l : StronglySorted evLe l → sortEvents l = l.
Proof.
  induction 1 as [|x l Hl IH Hx]; [done|].
  simpl. fold (sortEvents l). rewrite IH. destruct l as [|y l]; [done|].
  simpl. apply Forall_cons in Hx as [Hxy _]. by rewrite decide_True.
Qed.

Lemma keepIncluded_elem evs inc e : e ∈ keepIncluded evs inc → e ∈ evs.
Proof.
  revert inc. induction evs as [|x evs IH]; intros inc; simpl;
    [by destruct inc|].
  destruct inc as [|b inc]; [by rewrite elem_of_nil|].
  destruct b.
  - rewrite !elem_of_cons. intros [->|H]; [by left|right; by eapply IH].
  - intros H. apply elem_of_cons. right. by eapply IH.
Qed.

Lemma keepIncluded_sorted evs inc :
  StronglySorted evLe evs → StronglySorted evLe (keepIncluded evs inc).
Proof.
  intros Hs. revert inc. induction Hs as [|x evs Hevs IH Hx]; intros inc; simpl;
    [destruct inc; constructor|].
  destruct inc as [|b inc]; [constructor|]. destruct b; [|apply IH].
  constructor; [apply IH|]. apply Forall_forall. intros y Hy.
  apply keepIncluded_elem in Hy. rewrite Forall_forall in Hx. by apply Hx.
Qed.

Lemma keepIncluded_all evs : keepIncluded evs (replicate (length evs) true) = evs.
Proof. induction evs as [|x evs IH]; simpl; [done|]. by rewrite IH. Qed.

(** *** Filtering what the filter retained *)

(** With no close before the capture start in what is left to walk, an
    open on a stack ends up flagged: by its close, or at the end. *)
Lemma open_on_stack_kept start evs i st j :
  FilterInv i st → (i + length evs ≤ length (include st))%nat →
  Forall (λ e, e_type e = TypeC → start ≤ e_at e) evs →
  onStack (stackByFrame st) j →
  finalFlags start i evs st !! j = Some true.
Proof.
  revert i st. induction evs as [|e evs IH]; intros i st Hinv Hlen Hall Hon.
  { by apply finalFlags_remaining. }
  apply Forall_cons in Hall as [He Hall].
  assert (Hinv' : FilterInv (S i) (filterStep start i e st)).
  { apply FilterInv_step; [done|]. cbn [length] in Hlen. lia. }
  assert (Hlen2 : (S i + length evs ≤ length (include (filterStep start i e st)))%nat).
  { rewrite filterStep_length. cbn [length] in Hlen. lia. }
  destruct Hon as (g & t & Hg & Hj).
  destruct (e_type e) eqn:Hty.
  - rewrite finalFlags_cons. apply IH; try done.
    rewrite filterStep_stacks. unfold stackStep. rewrite Hty.
    destruct (decide (e_frame e = g)) as [<-|Hne].
    + eexists _, _. rewrite lookup_insert_eq. split; [done|].
      rewrite Hg. simpl. apply elem_of_cons. by right.
    + exists g, t. by rewrite lookup_insert_ne.
  - destruct (stackByFrame st !! e_frame e) as [[|o s]|] eqn:Hf.
    + rewrite finalFlags_cons. apply IH; try done.
      rewrite filterStep_stacks. unfold stackStep. rewrite Hty, Hf. by exists g, t.
    + destruct (decide (j = o)) as [->|Hjo].
      { by destruct (close_kept start i e evs st o s Hinv Hlen Hty Hf (He eq_refl)). }
      rewrite finalFlags_cons. apply IH; try done.
      rewrite filterStep_stacks. unfold stackStep. rewrite Hty, Hf.
      destruct (decide (e_frame e = g)) as [<-|Hne].
      * exists (e_frame e), s. rewrite lookup_insert_eq. split; [done|].
        rewrite Hf in Hg. injection Hg as <-.
        apply elem_of_cons in Hj as [?|?]; done.
      * exists g, t. by rewrite lookup_insert_ne.
    + rewrite finalFlags_cons. apply IH; try done.
      rewrite filterStep_stacks. unfold stackStep. rewrite Hty, Hf. by exists g, t.
Qed.

(** A list whose closes are all at or after the capture start, and all
    matched, passes the filter whole. *)
Lemma all_flags_set start evs i st (j : nat) :
  FilterInv i st → (i + length evs ≤ length (include st))%nat →
  Forall (λ e, e_type e = TypeC → start ≤ e_at e) evs →
  Forall (λ cm, cm.2 ≠ None) (fst (matchWalk i evs (stackByFrame st))) →
  (i ≤ j < i + length evs)%nat →
  finalFlags start i evs st !! j = Some true.
Proof.
  revert i st. induction evs as [|e evs IH]; intros i st Hinv Hlen Hall Hbal Hj.
  { simpl in Hj. lia. }
  pose proof Hall as Hall0. apply Forall_cons in Hall as [He Hall].
  assert (Hinv' : FilterInv (S i) (filterStep start i e st)).
  { apply FilterInv_step; [done|]. cbn [length] in Hlen. lia. }
  assert (Hlen2 : (S i + length evs ≤ length (include (filterStep start i e st)))%nat).
  { rewrite filterStep_length. cbn [length] in Hlen. lia. }
  rewrite matchWalk_cons in Hbal. cbn [fst] in Hbal.
  apply Forall_app in Hbal as [Hhead Htail].
  destruct (decide (j = i)) as [->|Hne].
  - destruct (e_type e) eqn:Hty.
    + rewrite finalFlags_cons. apply open_on_stack_kept; try done.
      rewrite filterStep_stacks. unfold stackStep. rewrite Hty.
      eexists _, _. rewrite lookup_insert_eq. split; [done|]. apply elem_of_cons. by left.
    + apply Forall_cons in Hhead as [Hpop _]. cbn [snd] in Hpop.
      destruct (poppedOpen e (stackByFrame st)) as [o|] eqn:Hp; [|done].
      apply poppedOpen_Some in Hp as (s & Hf).
      by destruct (close_kept start i e evs st o s Hinv Hlen Hty Hf (He eq_refl)).
  - rewrite finalFlags_cons. apply IH; try done.
    + by rewrite filterStep_stacks.
    + cbn [length] in Hj. lia.
Qed.

Lemma includeFlags_all start evs :
  Forall (λ e, e_type e = TypeC → start ≤ e_at e) evs →
  Forall (λ cm, cm.2 ≠ None) (closesOf evs) →
  includeFlags start evs = replicate (length evs) true.
Proof.
  intros Hall Hbal. apply list_eq. intros j.
  destruct (decide (j < length evs)%nat) as [Hlt|Hge].
  - rewrite lookup_replicate_2 by done. rewrite includeFlags_final.
    apply all_flags_set; try done.
    + apply FilterInv_init.
    + simpl. by rewrite length_replicate.
    + lia.
  - rewrite !(proj2 (lookup_ge_None _ _)); [done| |].
    + rewrite length_replicate. lia.
    + rewrite includeFlags_length. lia.
Qed.

Lemma finalizeEvents_idempotent evs start :
  finalizeEvents (finalizeEvents evs (Some start)) (Some start)
  = finalizeEvents evs (Some start).
Proof.
  unfold finalizeEvents.
  set (kept := keepIncluded (sortEvents evs) (includeFlags start (sortEvents evs))).
  assert (Hsorted : sortEvents kept = kept).
  { apply sortEvents_id, keepIncluded_sorted, sortEvents_sorted. }
  rewrite Hsorted.
  destruct (finalized_closes start (sortEvents evs)) as [Hall Hbal].
  fold kept in Hall, Hbal.
  rewrite (includeFlags_all start kept Hall Hbal). apply keepIncluded_all.
Qed.

(** C8.  Finalizing a finalized trace with the same capture-start cycle
    changes nothing: the events, [endValue] and the rest of the trace
    are what the first [finalizeTrace] left. *)
Theorem finalize_is_idempotent (trace : Trace) (captureStartTime : Z) :
  let once := finalizeTrace trace (Some captureStartTime) in
  let twice := finalizeTrace once (Some captureStartTime) in
  events twice = events once ∧ endValue twice = endValue once ∧ twice = once.
Proof.
  cbv zeta.
  assert (Heq : finalizeTrace (finalizeTrace trace (Some captureStartTime))
                  (Some captureStartTime)
                = finalizeTrace trace (Some captureStartTime)).
  { unfold finalizeTrace at 1. cbn [events frames captures endValue finalizeTrace].
    rewrite finalizeEvents_idempotent.
    unfold finalizeTrace.
    by destruct (finalizeEvents (events trace) (Some captureStartTime)). }
  by rewrite Heq.
Qed.

(** * Further properties *)

(** ** The trace emitter, beyond the filter's pairs *)

Lemma StronglySorted_lookup_lt {A} (R : A → A → Prop) (l : list A) (i j : nat) a b :
  StronglySorted R l → (i < j)%nat → l !! i = Some a → l !! j = Some b → R a b.
Proof.
  intros Hs. revert i j. induction Hs as [|x l Hl IH Hx]; intros i j Hij Hi Hj; [done|].
  destruct j as [|j]; [lia|]. destruct i as [|i].
  - injection Hi as <-. rewrite Forall_forall in Hx. apply Hx.
    by eapply list_elem_of_lookup_2.
  - apply (IH i j); [lia|done|done].
Qed.

Lemma finalizeEvents_sorted evs cst : StronglySorted evLe (finalizeEvents evs cst).
Proof.
  unfold finalizeEvents. destruct cst as [t|].
  - apply keepIncluded_sorted, sortEvents_sorted.
  - apply sortEvents_sorted.
Qed.

(** X1.  Whatever the capture start, the events [finalizeTrace] leaves
    are in chronological order, and of two events at the same cycle a
    close never comes before an open. *)
Theorem finalize_output_is_chronological
    (evs : list Event) (cst : option Z) (i j : nat) (a b : Event) :
  (i < j)%nat →
  finalizeEvents evs cst !! i = Some a →
  finalizeEvents evs cst !! j = Some b →
  e_at a ≤ e_at b ∧ (e_at a = e_at b → e_type a = TypeC → e_type b = TypeC).
Proof.
  intros Hij Hi Hj.
  pose proof (StronglySorted_lookup_lt evLe _ i j a b
                (finalizeEvents_sorted evs cst) Hij Hi Hj) as Hle.
  apply evLe_iff in Hle. split; [lia|].
  intros Heq Hc. destruct Hle as [?|[_ [Hty|Ho]]]; [lia| |]; congruence.
Qed.

Lemma finalize_output_is_chronological_witness :
  e_at (mkEvent TypeO 7 (Some 0%nat) None) ≤ e_at (mkEvent TypeC 7 (Some 1%nat) (Some 2)) ∧
  (e_at (mkEvent TypeO 7 (Some 0%nat) None) = e_at (mkEvent TypeC 7 (Some 1%nat) (Some 2)) →
   e_type (mkEvent TypeO 7 (Some 0%nat) None) = TypeC →
   e_type (mkEvent TypeC 7 (Some 1%nat) (Some 2)) = TypeC).
Proof.
  apply (finalize_output_is_chronological
           [ mkEvent TypeC 7 (Some 1%nat) (Some 2); mkEvent TypeO 7 (Some 0%nat) None;
             mkEvent TypeO 2 (Some 1%nat) None ]
           None 1 2).
  - lia.
  - by vm_compute.
  - by vm_compute.
Defined.

Lemma insertEvent_perm x l : insertEvent x l ≡ₚ x :: l.
Proof.
  induction l as [|y l IH]; simpl; [done|]. case_decide; [done|].
  rewrite IH. apply Permutation_swap.
Qed.

Lemma sortEvents_perm l : sortEvents l ≡ₚ l.
Proof.
  induction l as [|x l IH]; simpl; [done|].
  rewrite insertEvent_perm. by apply Permutation_skip.
Qed.

Lemma keepIncluded_sublist evs inc : keepIncluded evs inc `sublist_of` evs.
Proof.
  revert inc. induction evs as [|e evs IH]; intros [|b inc]; simpl;
    try apply sublist_nil_l.
  destruct b; [by apply sublist_skip|by apply sublist_cons].
Qed.

(** X2.  [finalizeTrace] invents no event and loses none by sorting:
    without a capture start its events are a permutation of the events
    it was given; with one they are the sorted events with some left
    out, in the same order. *)
Theorem finalize_permutes_then_thins (evs : list Event) (captureStartTime : Z) :
  finalizeEvents evs None ≡ₚ evs ∧
  finalizeEvents evs (Some captureStartTime) `sublist_of` finalizeEvents evs None ∧
  finalizeEvents evs (Some captureStartTime) ⊆+ evs.
Proof.
  split; [apply sortEvents_perm|]. split; [apply keepIncluded_sublist|].
  unfold finalizeEvents. rewrite <- (sortEvents_perm evs) at 3.
  apply sublist_submseteq, keepIncluded_sublist.
Qed.

Lemma maxAt_bounds first rest :
  (∀ e, e ∈ first :: rest → e_at e ≤ maxAt first rest) ∧
  (∃ e, e ∈ first :: rest ∧ e_at e = maxAt first rest).
Proof.
  revert first. induction rest as [|x rest IH]; intros first; simpl.
  - split.
    + intros e He. apply list_elem_of_singleton in He. by subst.
    + exists first. split; [apply list_elem_of_singleton|]; done.
  - destruct (IH x) as [Hub (m & Hm & Hmax)]. split.
    + intros e He. apply elem_of_cons in He as [->|He]; [lia|].
      specialize (Hub e He). lia.
    + destruct (Z.max_spec (e_at first) (maxAt x rest)) as [[_ ->]|[_ ->]].
      * exists m. split; [apply elem_of_cons; by right|done].
      * exists first. split; [apply elem_of_cons; by left|done].
Qed.

(** X3.  After [finalizeTrace], [endValue] is the largest [at] among the
    events left, and the last event attains it; when no event is left
    [endValue] keeps the value it had. *)
Theorem endValue_is_latest_retained (trace : Trace) (cst : option Z) :
  let final := finalizeTrace trace cst in
  (events final = [] → endValue final = endValue trace) ∧
  (∀ e, e ∈ events final → e_at e ≤ endValue final) ∧
  (∀ e, last (events final) = Some e → e_at e = endValue final).
Proof.
  cbv zeta. unfold finalizeTrace. cbn [events endValue].
  pose proof (finalizeEvents_sorted (events trace) cst) as Hsorted.
  destruct (finalizeEvents (events trace) cst) as [|first rest] eqn:Hev.
  { split; [done|]. split; [intros e He; by apply elem_of_nil in He|done]. }
  destruct (maxAt_bounds first rest) as [Hub (m & Hm & Hmax)].
  split; [done|]. split; [exact Hub|].
  intros e Hlast. apply Z.le_antisymm.
  - apply Hub. rewrite last_lookup in Hlast. by eapply list_elem_of_lookup_2.
  - rewrite <- Hmax. apply list_elem_of_lookup in Hm as [k Hk].
    rewrite last_lookup in Hlast.
    assert (Hklen : (k < length (first :: rest))%nat) by (by eapply lookup_lt_Some).
    destruct (decide (k = Init.Nat.pred (length (first :: rest)))) as [->|Hne].
    + rewrite Hk in Hlast. by injection Hlast as ->.
    + assert (Hle : evLe m e).
      { apply (StronglySorted_lookup_lt evLe (first :: rest) k
                 (Init.Nat.pred (length (first :: rest)))); try done. lia. }
      apply evLe_iff in Hle. lia.
Qed.

(** The flag of a close that pops nothing, from anywhere in the walk. *)
Lemma unmatched_close_flag start evs i st c :
  FilterInv i st → (i + length evs ≤ length (include st))%nat →
  (c, None) ∈ fst (matchWalk i evs (stackByFrame st)) →
  finalFlags start i evs st !! c = Some false.
Proof.
  revert i st. induction evs as [|e evs IH]; intros i st Hinv Hlen Hin.
  { by apply elem_of_nil in Hin. }
  rewrite matchWalk_cons in Hin. cbn [fst] in Hin.
  apply elem_of_app in Hin as [Hhead|Htail].
  - destruct (e_type e) eqn:Hty; [by apply elem_of_nil in Hhead|].
    apply list_elem_of_singleton in Hhead. injection Hhead as -> Hpop.
    by apply close_unmatched.
  - rewrite finalFlags_cons. rewrite <- filterStep_stacks with (start := start) in Htail.
    cbn [length] in Hlen. apply IH; try done.
    + apply FilterInv_step; [done|lia].
    + rewrite filterStep_length. lia.
Qed.

(** X4.  A close that finds no open of its frame index on the walk over
    the sorted events is left out by [finalizeTrace], whatever its
    timestamp and whatever the capture start. *)
Theorem finalize_drops_unmatched_closes
    (evs : list Event) (captureStartTime : Z) (c : nat) :
  (c, None) ∈ closesOf (sortEvents evs) →
  includeFlags captureStartTime (sortEvents evs) !! c = Some false.
Proof.
  intros Hin. rewrite includeFlags_final.
  apply unmatched_close_flag; [apply FilterInv_init| |exact Hin].
  simpl. by rewrite length_replicate.
Qed.

Lemma finalize_drops_unmatched_closes_witness :
  includeFlags 0 (sortEvents [ mkEvent TypeC 9 (Some 0%nat) (Some 1);
                               mkEvent TypeO 3 (Some 1%nat) None ]) !! 1%nat
  = Some false.
Proof.
  apply (finalize_drops_unmatched_closes
           [ mkEvent TypeC 9 (Some 0%nat) (Some 1); mkEvent TypeO 3 (Some 1%nat) None ]
           0 1).
  assert (Hc : closesOf (sortEvents [ mkEvent TypeC 9 (Some 0%nat) (Some 1);
                                      mkEvent TypeO 3 (Some 1%nat) None ])
               = [(1%nat, None)]) by (by vm_compute).
  rewrite Hc. by apply list_elem_of_singleton.
Defined.

(** X5.  When every close is at or after the capture start and finds an
    open on the walk over the sorted events, the capture-start filter
    leaves nothing out: [finalizeTrace] only sorts. *)
Theorem finalize_only_sorts_balanced_late_traces
    (evs : list Event) (captureStartTime : Z) :
  Forall (λ e, e_type e = TypeC → captureStartTime ≤ e_at e) evs →
  Forall (λ cm, cm.2 ≠ None) (closesOf (sortEvents evs)) →
  finalizeEvents evs (Some captureStartTime) = sortEvents evs.
Proof.
  intros Hall Hbal. unfold finalizeEvents.
  rewrite includeFlags_all; [apply keepIncluded_all| |done].
  rewrite Forall_forall in Hall. apply Forall_forall. intros e He. apply Hall.
  by rewrite <- (sortEvents_perm evs).
Qed.

Lemma finalize_only_sorts_balanced_late_traces_witness :
  finalizeEvents straddlingTrace (Some 2) = sortEvents straddlingTrace.
Proof.
  apply (finalize_only_sorts_balanced_late_traces straddlingTrace 2).
  - unfold straddlingTrace. repeat constructor; simpl; intros; (lia || discriminate).
  - assert (Hc : closesOf (sortEvents straddlingTrace)
                 = [(1%nat, Some 0%nat); (3%nat, Some 2%nat)]) by (by vm_compute).
    rewrite Hc. repeat constructor; discriminate.
Defined.

(** ** [getEventsBetween] *)

Lemma activeEventsOf_parts evs :
  activeEventsOf evs = pairedEvents evs ++ ongoingEvents (openTimes evs).
Proof.
  unfold activeEventsOf, pairedEvents, openTimes.
  by destruct (foldl betweenStep (∅, []) evs).
Qed.

Lemma atOf_lookup total j e : total !! j = Some e → atOf total j = e_at e.
Proof. intros H. unfold atOf. by rewrite H. Qed.

(** The first loop of [getEventsBetween] pairs as the matching walk
    does: its stacks hold the [at] of the indices on the walk's stacks. *)
Lemma between_simulates_walk total evs i istack acc :
  stacksTagged total i istack → suffixAt total i evs →
  foldl betweenStep (timesOf total istack, acc) evs
  = (timesOf total (snd (matchWalk i evs istack)),
     acc ++ omap (intervalOf total) (fst (matchWalk i evs istack))).
Proof.
  revert i istack acc. induction evs as [|e evs IH]; intros i istack acc Htag Hsuf.
  { simpl. by rewrite app_nil_r. }
  apply suffixAt_tail in Hsuf as [Hi Hsuf].
  pose proof (stacksTagged_step total i e istack Hi Htag) as Htag'.
  rewrite matchWalk_cons. cbn [foldl fst snd].
  assert (Hstep : betweenStep (timesOf total istack, acc) e
                  = (timesOf total (stackStep i e istack),
                     acc ++ omap (intervalOf total)
                              match e_type e with
                              | TypeO => []
                              | TypeC => [(i, poppedOpen e istack)]
                              end)).
  { unfold betweenStep, stackStep, poppedOpen, timesOf. rewrite lookup_fmap.
    destruct (e_type e) eqn:Hty.
    - rewrite fmap_insert. simpl. rewrite app_nil_r. f_equal. f_equal.
      rewrite (atOf_lookup total i e Hi). f_equal.
      by destruct (istack !! e_frame e).
    - destruct (istack !! e_frame e) as [[|o s]|] eqn:Hf; simpl;
        try by rewrite app_nil_r.
      rewrite fmap_insert. f_equal. f_equal.
      destruct (Htag (e_frame e) (o :: s) o Hf) as (_ & open & Ho & _ & _).
      { apply elem_of_cons. by left. }
      rewrite Ho, Hi. simpl. by rewrite (atOf_lookup total o open Ho). }
  rewrite Hstep, (IH (S i) (stackStep i e istack)) by done.
  by rewrite omap_app, app_assoc.
Qed.

Lemma insertEntry_perm x l : insertEntry x l ≡ₚ x :: l.
Proof.
  induction l as [|y l IH]; simpl; [done|]. destruct (keyLe x.1 y.1); [done|].
  rewrite IH. apply Permutation_swap.
Qed.

Lemma objectEntries_elem stack f times :
  (f, times) ∈ objectEntries stack ↔ stack !! f = Some times.
Proof.
  unfold objectEntries. rewrite <- elem_of_map_to_list.
  induction (map_to_list stack) as [|x l IH]; simpl; [done|].
  rewrite insertEntry_perm, !elem_of_cons, IH. done.
Qed.

Lemma ongoingEvents_elem stack ev :
  ev ∈ ongoingEvents stack ↔
  ∃ f times t, stack !! f = Some times ∧ t ∈ times ∧
               ev = mkActiveEvent t None (parsedKey f).
Proof.
  unfold ongoingEvents. rewrite list_elem_of_In, in_concat. split.
  - intros (l & Hl & Hev). apply list_elem_of_In, list_elem_of_fmap in Hl
      as ([f times] & -> & Hft).
    apply list_elem_of_In, list_elem_of_fmap in Hev as (t & -> & Ht).
    apply objectEntries_elem in Hft. rewrite elem_of_reverse in Ht.
    by exists f, times, t.
  - intros (f & times & t & Hft & Ht & ->).
    exists ((λ startTime, mkActiveEvent startTime None (parsedKey f)) <$> reverse times).
    split.
    + apply list_elem_of_In, list_elem_of_fmap. exists (f, times).
      split; [done|]. by apply objectEntries_elem.
    + apply list_elem_of_In, list_elem_of_fmap. exists t.
      split; [done|]. by apply elem_of_reverse.
Qed.

Lemma objectEntries_perm stack : objectEntries stack ≡ₚ map_to_list stack.
Proof.
  unfold objectEntries. induction (map_to_list stack) as [|x l IH]; [done|].
  cbn [foldr]. by rewrite insertEntry_perm, IH.
Qed.

Lemma concat_fmap_perm {A B} (G : A → list B) (l1 l2 : list A) :
  l1 ≡ₚ l2 → concat (G <$> l1) ≡ₚ concat (G <$> l2).
Proof.
  induction 1 as [|x l1 l2 _ IH|x y l|l1 l2 l3 _ IH1 _ IH2]; [done| | |].
  - rewrite !fmap_cons. cbn [concat]. by rewrite IH.
  - rewrite !fmap_cons. cbn [concat]. rewrite !app_assoc.
    by rewrite (Permutation_app_comm (G y) (G x)).
  - by rewrite IH1.
Qed.

(** The open-ended intervals of the stacks, against the opens the stacks
    hold. *)
Lemma ongoing_of_stacks evs (stacks : list (option nat * list nat)) :
  Forall (λ fs, ∀ j, j ∈ fs.2 → ∃ open, evs !! j = Some open ∧ e_frame open = fs.1)
         stacks →
  concat ((λ entry, (λ startTime, mkActiveEvent startTime None (parsedKey entry.1))
                      <$> reverse entry.2)
          <$> (prod_map id (fmap (atOf evs)) <$> stacks))
  ≡ₚ omap (openIntervalOf evs) (concat (snd <$> stacks)).
Proof.
  induction 1 as [|[f s] stacks Hfs _ IH]; [done|].
  rewrite !fmap_cons. cbn [concat prod_map fst snd id]. rewrite omap_app, IH.
  apply Permutation_app_tail. rewrite reverse_Permutation. cbn [snd fst] in Hfs.
  clear IH. induction s as [|o s IHs]; [done|].
  rewrite !fmap_cons. cbn [omap list_omap].
  destruct (Hfs o) as (open & Hopen & Hframe); [apply elem_of_cons; by left|].
  unfold openIntervalOf at 1. rewrite Hopen. cbn [fmap option_fmap option_map].
  rewrite (atOf_lookup evs o open Hopen), Hframe. apply Permutation_skip.
  apply IHs. intros j Hj. apply Hfs. apply elem_of_cons. by right.
Qed.

Lemma FilterInv_loop start i evs st :
  FilterInv i st → (i + length evs ≤ length (include st))%nat →
  FilterInv (i + length evs) (filterLoop start i evs st).
Proof.
  revert i st. induction evs as [|e evs IH]; intros i st Hinv Hlen.
  - by rewrite Nat.add_0_r.
  - cbn [filterLoop length] in *.
    replace (i + S (length evs))%nat with (S i + length evs)%nat by lia.
    apply IH; [apply FilterInv_step; [done|lia]|].
    rewrite filterStep_length. lia.
Qed.

(** No open is left on two stacks, or twice on one. *)
Lemma unmatchedOpens_NoDup evs : NoDup (unmatchedOpens evs).
Proof.
  unfold unmatchedOpens, remainingOpens.
  pose proof (FilterInv_loop 0 0 evs (mkFilterState (replicate (length evs) false) ∅)
                (FilterInv_init (length evs))) as Hinv.
  cbn [include] in Hinv. rewrite length_replicate in Hinv. specialize (Hinv (Nat.le_refl _)).
  destruct Hinv as [_ _ Hnodup Hdisjoint _].
  rewrite <- (matchWalk_final_stacks 0) in Hnodup, Hdisjoint.
  cbn [stackByFrame] in Hnodup, Hdisjoint.
  set (stacks := snd (matchWalk 0 evs ∅)) in *.
  assert (Hin : ∀ f s, (f, s) ∈ map_to_list stacks → stacks !! f = Some s).
  { intros f s. by rewrite elem_of_map_to_list. }
  pose proof (NoDup_fst_map_to_list stacks) as Hkeys.
  revert Hin Hkeys. generalize (map_to_list stacks). intros l.
  induction l as [|[f s] l IH]; intros Hin Hkeys; [constructor|].
  rewrite fmap_cons in Hkeys. rewrite fmap_cons. cbn [concat fst snd] in *.
  apply NoDup_cons in Hkeys as [Hf Hkeys].
  apply NoDup_app. split; [|split].
  - apply (Hnodup f). apply Hin. apply elem_of_cons. by left.
  - intros j Hj Hj'. apply list_elem_of_In, in_concat in Hj' as (t & Ht & Hjt).
    apply list_elem_of_In, list_elem_of_fmap in Ht as ([g t'] & -> & Hgt).
    apply list_elem_of_In in Hjt. cbn [snd] in Hjt.
    assert (f = g) as ->.
    { apply (Hdisjoint f g s t' j); try done.
      - apply Hin. apply elem_of_cons. by left.
      - apply Hin. apply elem_of_cons. by right. }
    apply Hf. apply list_elem_of_fmap. by exists (g, t').
  - apply IH; [|done]. intros g t Hgt. apply Hin. apply elem_of_cons. by right.
Qed.

(** X6.  [getEventsBetween] pairs opens and closes exactly as
    [finalizeTrace] does.  Before its final filter, its list is, in
    order, one interval for every close of the matching walk that pops
    an open (from the [at] of the open to the [at] of the close, with the
    close's frame), followed by the open-ended intervals: exactly one
    for every open the walk leaves unmatched, each such open being an
    open event of the list and counted once. *)
Theorem getEventsBetween_pairs_like_finalize (evs : list Event) (start end_ : Z) :
  ∃ ongoing,
    getEventsBetween evs start end_
    = List.filter (overlaps start end_)
        (omap (intervalOf evs) (closesOf evs) ++ ongoing) ∧
    ongoing ≡ₚ omap (openIntervalOf evs) (unmatchedOpens evs) ∧
    length ongoing = length (unmatchedOpens evs) ∧
    NoDup (unmatchedOpens evs) ∧
    Forall (λ o, ∃ open, evs !! o = Some open ∧ e_type open = TypeO)
           (unmatchedOpens evs).
Proof.
  pose proof (between_simulates_walk evs evs 0 ∅ []
                (stacksTagged_empty evs) (suffixAt_whole evs)) as Hsim.
  unfold timesOf in Hsim at 1. rewrite fmap_empty in Hsim.
  assert (Htagged : stacksTagged evs (0 + length evs) (snd (matchWalk 0 evs ∅))).
  { assert (Hgen : ∀ l i stacks, stacksTagged evs i stacks → suffixAt evs i l →
                   stacksTagged evs (i + length l) (snd (matchWalk i l stacks))).
    { induction l as [|e l IH]; intros i stacks Htag Hsuf.
      - simpl. by rewrite Nat.add_0_r.
      - apply suffixAt_tail in Hsuf as [Hi Hsuf]. rewrite matchWalk_cons. cbn [snd length].
        replace (i + S (length l))%nat with (S i + length l)%nat by lia.
        apply IH; [|done]. by apply stacksTagged_step. }
    apply Hgen; [apply stacksTagged_empty|apply suffixAt_whole]. }
  assert (Hopens : Forall (λ o, ∃ open, evs !! o = Some open ∧ e_type open = TypeO)
                          (unmatchedOpens evs)).
  { apply Forall_forall. intros o Ho. unfold unmatchedOpens in Ho.
    apply remainingOpens_elem in Ho as (f & s & Hs & Hos).
    destruct (Htagged f s o Hs Hos) as (_ & open & Hopen & Hty & _). by exists open. }
  assert (Hperm : ongoingEvents (openTimes evs)
                  ≡ₚ omap (openIntervalOf evs) (unmatchedOpens evs)).
  { unfold ongoingEvents, openTimes, unmatchedOpens, remainingOpens.
    rewrite Hsim. cbn [fst]. unfold timesOf.
    rewrite (concat_fmap_perm _ _ _ (objectEntries_perm _)).
    rewrite map_to_list_fmap.
    apply ongoing_of_stacks. apply Forall_forall. intros [f s] Hfs j Hj.
    apply elem_of_map_to_list in Hfs. cbn [fst snd] in *.
    destruct (Htagged f s j Hfs Hj) as (_ & open & Hopen & _ & Hframe). by exists open. }
  exists (ongoingEvents (openTimes evs)). split; [|split; [done|split; [|split; [|done]]]].
  - unfold getEventsBetween. rewrite activeEventsOf_parts.
    unfold pairedEvents, closesOf. by rewrite Hsim.
  - rewrite Hperm. clear Hperm. induction Hopens as [|o l (open & Hopen & _) _ IH]; [done|].
    cbn [omap list_omap length]. unfold openIntervalOf at 1. rewrite Hopen.
    cbn [fmap option_fmap option_map length]. by rewrite IH.
  - apply unmatchedOpens_NoDup.
Qed.

(** With every close matched, the paired intervals end at the closes'
    timestamps, in order. *)
Lemma matched_intervals_ends total evs i stacks :
  stacksTagged total i stacks → suffixAt total i evs →
  Forall (λ cm, cm.2 ≠ None) (fst (matchWalk i evs stacks)) →
  a_end <$> omap (intervalOf total) (fst (matchWalk i evs stacks))
  = (λ e, Some (e_at e)) <$> filter (λ e, e_type e = TypeC) evs.
Proof.
  revert i stacks. induction evs as [|e evs IH]; intros i stacks Htag Hsuf Hbal; [done|].
  apply suffixAt_tail in Hsuf as [Hi Hsuf].
  pose proof (stacksTagged_step total i e stacks Hi Htag) as Htag'.
  rewrite matchWalk_cons in *. cbn [fst] in *.
  apply Forall_app in Hbal as [Hhead Htail].
  rewrite omap_app, fmap_app, filter_cons, (IH (S i) (stackStep i e stacks)) by done.
  destruct (e_type e) eqn:Hty.
  - by rewrite decide_False by done.
  - rewrite decide_True by done.
    apply Forall_cons in Hhead as [Hpop _]. cbn [snd] in Hpop.
    destruct (poppedOpen e stacks) as [o|] eqn:Hp; [|done].
    apply poppedOpen_Some in Hp as (s & Hf).
    destruct (Htag (e_frame e) (o :: s) o Hf) as (_ & open & Ho & _ & _).
    { apply elem_of_cons. by left. }
    cbn [omap list_omap intervalOf]. rewrite Ho, Hi. done.
Qed.


(** ** The symbol map and the region table, as wholes *)

Lemma insertByAddr_perm x l : insertByAddr x l ≡ₚ x :: l.
Proof.
  induction l as [|y l IH]; simpl; [done|]. case_decide; [done|].
  rewrite IH. apply Permutation_swap.
Qed.

Lemma sortByAddr_perm l : sortByAddr l ≡ₚ l.
Proof.
  induction l as [|x l IH]; simpl; [done|].
  rewrite insertByAddr_perm. by apply Permutation_skip.
Qed.

Lemma assignEnds_symbols addrMax sorted :
  symbolOfRegion <$> assignEnds addrMax sorted = sorted.
Proof.
  induction sorted as [|fn rest IH]; [done|].
  cbn [assignEnds]. destruct rest as [|next rest'].
  - by destruct fn.
  - rewrite fmap_cons, IH. by destruct fn.
Qed.

Lemma groupPush_members fn groups :
  concat (snd <$> groupPush fn groups) ≡ₚ concat (snd <$> groups) ++ [fn].
Proof.
  induction groups as [|[bank symbols] groups IH]; [done|].
  cbn [groupPush]. destruct (decide (bank = s_bank fn)); rewrite !fmap_cons; cbn [snd concat].
  - by rewrite <- !app_assoc, (Permutation_app_comm [fn]).
  - by rewrite IH, app_assoc.
Qed.

Lemma groupByBank_members noiLookup : concat (snd <$> groupByBank noiLookup) ≡ₚ noiLookup.
Proof.
  unfold groupByBank.
  assert (Hgen : ∀ groups,
    concat (snd <$> foldl (λ bankGroups fn, groupPush fn bankGroups) groups noiLookup)
    ≡ₚ concat (snd <$> groups) ++ noiLookup).
  { induction noiLookup as [|fn l IH]; intros groups; simpl.
    - by rewrite app_nil_r.
    - rewrite IH, groupPush_members, <- app_assoc. done. }
  by rewrite Hgen.
Qed.

Lemma generateFunctionRegions_perm noiLookup :
  symbolOfRegion <$> generateFunctionRegions noiLookup ≡ₚ noiLookup.
Proof.
  rewrite <- (groupByBank_members noiLookup) at 2.
  unfold generateFunctionRegions.
  induction (groupByBank noiLookup) as [|g groups IH]; [done|].
  rewrite !fmap_cons. cbn [concat]. rewrite fmap_app, IH.
  unfold regionsOfGroup. by rewrite assignEnds_symbols, sortByAddr_perm.
Qed.

(** X8.  [generateFunctionRegions] makes exactly one region per entry
    of [noiLookup]: stripped of their [end], the regions are a
    permutation of the entries, so no symbol is lost or doubled,
    whatever its bank and address; and every region keeps the symbol,
    the address and the bank of the entry it was made from. *)
Theorem regions_are_the_symbols (noiLookup : list NoiSymbol) :
  symbolOfRegion <$> generateFunctionRegions noiLookup ≡ₚ noiLookup ∧
  length (generateFunctionRegions noiLookup) = length noiLookup ∧
  (∀ r, r ∈ generateFunctionRegions noiLookup →
        mkNoiSymbol (r_symbol r) (r_addr r) (r_bank r) ∈ noiLookup) ∧
  (∀ s, s ∈ noiLookup →
        ∃ r, r ∈ generateFunctionRegions noiLookup ∧
             r_symbol r = s_symbol s ∧ r_addr r = s_addr s ∧ r_bank r = s_bank s).
Proof.
  pose proof (generateFunctionRegions_perm noiLookup) as Hperm.
  split; [done|]. split; [by rewrite <- (Permutation_length Hperm), length_fmap|]. split.
  - intros r Hr. rewrite <- Hperm.
    apply list_elem_of_fmap. by exists r.
  - intros s Hs. rewrite <- Hperm in Hs.
    apply list_elem_of_fmap in Hs as (r & -> & Hr). by exists r.
Qed.

(** The loop of [parseNoi] appends entries with fresh keys; each comes
    from the first line that has its key. *)
Lemma parseLines_structure lines usedAddr result :
  ∃ parsed,
    parseLines lines usedAddr result = result ++ parsed ∧
    NoDup (keyOf <$> parsed) ∧
    (∀ e, e ∈ parsed →
       (keyOf e ∉ usedAddr) ∧
       ∃ (k : nat) line, lines !! k = Some line ∧ parseLine line = Some e ∧
         ∀ (k' : nat) line' e', (k' < k)%nat → lines !! k' = Some line' →
           parseLine line' = Some e' → keyOf e' ≠ keyOf e) ∧
    (∀ line e, line ∈ lines → parseLine line = Some e →
       keyOf e ∈ usedAddr ∨ ∃ e', e' ∈ parsed ∧ keyOf e' = keyOf e).
Proof.
  revert usedAddr result.
  induction lines as [|line lines IH]; intros usedAddr result.
  { exists []. rewrite app_nil_r. split; [done|]. split; [constructor|]. split.
    - intros e He. by apply elem_of_nil in He.
    - intros line e Hl. by apply elem_of_nil in Hl. }
  cbn [parseLines]. destruct (parseLine line) as [entry|] eqn:Hline.
  - fold (keyOf entry). destruct (decide (keyOf entry ∈ usedAddr)) as [Hused|Hfresh].
    + destruct (IH usedAddr result) as (parsed & Heq & Hnd & Hprov & Hcov).
      exists parsed. split; [done|]. split; [done|]. split.
      * intros e He. destruct (Hprov e He) as (Hnot & k & l & Hk & Hl & Hfirst).
        split; [done|]. exists (S k), l. split; [done|]. split; [done|].
        intros k' line' e' Hlt Hk' Hl'. destruct k' as [|k'].
        -- injection Hk' as <-. rewrite Hline in Hl'. injection Hl' as <-.
           intros Heq'. apply Hnot. by rewrite <- Heq'.
        -- apply (Hfirst k' line' e'); [lia|done|done].
      * intros l e Hin Hl. apply elem_of_cons in Hin as [->|Hin].
        -- rewrite Hline in Hl. injection Hl as <-. by left.
        -- by apply (Hcov l e).
    + destruct (IH ({[keyOf entry]} ∪ usedAddr) (result ++ [entry]))
        as (parsed & Heq & Hnd & Hprov & Hcov).
      exists (entry :: parsed). split; [by rewrite Heq, <- app_assoc|]. split; [|split].
      * rewrite fmap_cons. apply NoDup_cons. split; [|done].
        intros Hin. apply list_elem_of_fmap in Hin as (e & Hke & He).
        destruct (Hprov e He) as (Hnot & _). apply Hnot. rewrite <- Hke.
        apply elem_of_union. left. by apply elem_of_singleton.
      * intros e He. apply elem_of_cons in He as [->|He].
        -- split; [done|]. exists 0%nat, line. split; [done|]. split; [done|].
           intros k' ? ? Hlt. lia.
        -- destruct (Hprov e He) as (Hnot & k & l & Hk & Hl & Hfirst).
           split; [intros Hu; apply Hnot; apply elem_of_union; by right|]. exists (S k), l. split; [done|]. split; [done|].
           intros k' line' e' Hlt Hk' Hl'. destruct k' as [|k'].
           ++ injection Hk' as <-. rewrite Hline in Hl'. injection Hl' as <-.
              intros Heq'. apply Hnot. rewrite <- Heq'.
              apply elem_of_union. left. by apply elem_of_singleton.
           ++ apply (Hfirst k' line' e'); [lia|done|done].
      * intros l e Hin Hl. apply elem_of_cons in Hin as [->|Hin].
        -- rewrite Hline in Hl. injection Hl as <-. right. exists entry.
           split; [apply elem_of_cons; by left|done].
        -- destruct (Hcov l e Hin Hl) as [Hu|(e' & He' & Hk)].
           ++ apply elem_of_union in Hu as [Hu|Hu]; [|by left].
              apply elem_of_singleton in Hu. right. exists entry.
              split; [apply elem_of_cons; by left|done].
           ++ right. exists e'. split; [apply elem_of_cons; by right|done].
  - destruct (IH usedAddr result) as (parsed & Heq & Hnd & Hprov & Hcov).
    exists parsed. split; [done|]. split; [done|]. split.
    + intros e He. destruct (Hprov e He) as (Hnot & k & l & Hk & Hl & Hfirst).
      split; [done|]. exists (S k), l. split; [done|]. split; [done|].
      intros k' line' e' Hlt Hk' Hl'. destruct k' as [|k'].
      * injection Hk' as <-. by rewrite Hline in Hl'.
      * apply (Hfirst k' line' e'); [lia|done|done].
    + intros l e Hin Hl. apply elem_of_cons in Hin as [->|Hin].
      * by rewrite Hline in Hl.
      * by apply (Hcov l e).
Qed.

(** X9.  [parseNoi] returns the five interrupt vectors first, then one
    entry per distinct (bank, address) among the accepted lines: no two
    of these entries share bank and address, each is what the first
    accepted line with its bank and address stands for, and every
    accepted line has its bank and address among them. *)
Theorem parseNoi_keeps_first_of_each_address (text : string) :
  ∃ parsed,
    parseNoi text = interruptSymbols ++ parsed ∧
    NoDup (keyOf <$> parsed) ∧
    (∀ e, e ∈ parsed →
       ∃ (k : nat) line, splitLines text !! k = Some line ∧ parseLine line = Some e ∧
         ∀ (k' : nat) line' e', (k' < k)%nat → splitLines text !! k' = Some line' →
           parseLine line' = Some e' → keyOf e' ≠ keyOf e) ∧
    (∀ line e, line ∈ splitLines text → parseLine line = Some e →
       ∃ e', e' ∈ parsed ∧ keyOf e' = keyOf e).
Proof.
  destruct (parseLines_structure (splitLines text) ∅ interruptSymbols)
    as (parsed & Heq & Hnd & Hprov & Hcov).
  exists parsed. split; [done|]. split; [done|]. split.
  - intros e He. by destruct (Hprov e He) as [_ ?].
  - intros line e Hin Hl. destruct (Hcov line e Hin Hl) as [Hu|?]; [|done].
    by apply elem_of_empty in Hu.
Qed.

(** ** The symbols of accepted lines *)

Lemma tokens_clean s t : t ∈ tokens s → hasChar isWhiteSpace t = false.
Proof.
  revert t. induction s as [|c rest IH]; intros t Ht; [by apply elem_of_nil in Ht|].
  cbn [tokens] in Ht. destruct (isWhiteSpace c) eqn:Hc; [by apply IH|].
  destruct rest as [|d rest'].
  { apply list_elem_of_singleton in Ht as ->. cbn [hasChar]. by rewrite Hc. }
  destruct (isWhiteSpace d) eqn:Hd.
  { apply elem_of_cons in Ht as [->|Ht]; [|by apply IH].
    cbn [hasChar]. by rewrite Hc. }
  destruct (tokens (String d rest')) as [|t0 ts] eqn:Htok.
  { apply list_elem_of_singleton in Ht as ->. cbn [hasChar]. by rewrite Hc. }
  apply elem_of_cons in Ht as [->|Ht].
  - cbn [hasChar]. rewrite Hc. cbn [orb]. apply IH. apply elem_of_cons. by left.
  - apply IH. apply elem_of_cons. by right.
Qed.

Lemma tokens_head c rest :
  isWhiteSpace c = false → ∃ t ts, tokens (String c rest) = String c t :: ts.
Proof.
  intros Hc. cbn [tokens]. rewrite Hc. destruct rest as [|d rest']; [by eexists _, _|].
  destruct (isWhiteSpace d); [by eexists _, _|].
  destruct (tokens (String d rest')); by eexists _, _.
Qed.

Lemma tokens_DEF s : tokens ("DEF " ++ s)%string = "DEF" :: tokens s.
Proof. reflexivity. Qed.

Lemma dropPrefix_Some p s rest : dropPrefix p s = Some rest → s = (p ++ rest)%string.
Proof.
  revert s. induction p as [|a p IH]; intros s H; cbn [dropPrefix] in H.
  - by injection H as ->.
  - destruct s as [|b s']; [done|]. destruct (decide (a = b)) as [->|]; [|done].
    by rewrite (IH s' H).
Qed.

Lemma startsWith_head a p c s : startsWith (String a p) (String c s) = true → c = a.
Proof.
  cbn [startsWith]. intros H. apply andb_prop in H as [H _].
  by apply bool_decide_eq_true in H.
Qed.

(** What follows ["DEF "] on a line the first test lets through starts
    with ["_"], ["F"] or ["."]. *)
Lemma isDefLine_shape line :
  isDefLine line = true →
  ∃ c rest, line = ("DEF " ++ String c rest)%string ∧ isWhiteSpace c = false.
Proof.
  unfold isDefLine. destruct (dropPrefix "DEF " line) as [rest|] eqn:Hdrop; [|done].
  apply dropPrefix_Some in Hdrop as ->. intros H.
  destruct rest as [|c rest'].
  { by vm_compute in H. }
  exists c, rest'. split; [done|].
  apply orb_prop in H as [H|H]; [apply orb_prop in H as [H|H]|].
  - by apply startsWith_head in H as ->.
  - by apply startsWith_head in H as ->.
  - cbn [dropPrefix] in H. by destruct (decide ("."%char = c)) as [<-|].
Qed.

Lemma afterFirstDollar_clean (p : ascii → bool) count s rest :
  afterFirstDollar count s = Some rest → hasChar p s = false → hasChar p rest = false.
Proof.
  revert count. induction s as [|c s IH]; intros count H Hs; [done|].
  cbn [hasChar] in Hs. apply orb_false_elim in Hs as [_ Hs].
  cbn [afterFirstDollar] in H.
  destruct (decide (c = "$"%char)) as [->|Hc].
  - destruct count; [done|]. by injection H as <-.
  - assert (H' : afterFirstDollar (S count) s = Some rest).
    { revert H. clear -Hc.
      destruct c as [[] [] [] [] [] [] [] []]; try done. }
    by apply (IH (S count)).
Qed.

Lemma stripFPrefix_clean (p : ascii → bool) symbol :
  hasChar p symbol = false → hasChar p (stripFPrefix symbol) = false.
Proof.
  intros H. unfold stripFPrefix.
  destruct symbol as [|c rest]; [done|].
  assert (Hrest : hasChar p rest = false).
  { cbn [hasChar] in H. by apply orb_false_elim in H as [_ ?]. }
  assert (Hgen : hasChar p (default (String c rest) (afterFirstDollar 0 rest)) = false).
  { destruct (afterFirstDollar 0 rest) as [r|] eqn:Ha; [|done].
    by apply (afterFirstDollar_clean p 0 rest r). }
  destruct c as [[] [] [] [] [] [] [] []]; done.
Qed.

Lemma cutAtDollar_clean (p : ascii → bool) s :
  hasChar p s = false → hasChar p (cutAtDollar s) = false.
Proof.
  induction s as [|c s IH]; [done|]. intros H.
  cbn [hasChar] in H. apply orb_false_elim in H as [Hc Hs].
  assert (Hgen : hasChar p (String c (cutAtDollar s)) = false).
  { cbn [hasChar]. by rewrite Hc, IH. }
  cbn [cutAtDollar]. destruct c as [[] [] [] [] [] [] [] []]; done.
Qed.

Lemma cutAtDollar_no_dollar s : hasChar isDollar (cutAtDollar s) = false.
Proof.
  induction s as [|c s IH]; [done|].
  destruct (decide (c = "$"%char)) as [->|Hc]; [done|].
  assert (Hgen : hasChar isDollar (String c (cutAtDollar s)) = false).
  { cbn [hasChar]. rewrite IH. unfold isDollar. by rewrite bool_decide_eq_false_2. }
  cbn [cutAtDollar]. destruct c as [[] [] [] [] [] [] [] []]; done.
Qed.

Lemma parseLine_symbol line e :
  parseLine line = Some e →
  ∃ symbol, tokens line !! 1%nat = Some symbol ∧
    hasChar isWhiteSpace symbol = false ∧
    s_symbol e = cutAtDollar (stripFPrefix symbol).
Proof.
  unfold parseLine. destruct (isDefLine line) eqn:Hdef; [|done]. cbn [negb].
  destruct (isRejected line); [done|]. intros H. injection H as <-.
  destruct (isDefLine_shape line Hdef) as (c & rest & -> & Hc).
  rewrite tokens_DEF. destruct (tokens_head c rest Hc) as (t & ts & Htok).
  exists (String c t). split; [by rewrite Htok|]. split; [|by rewrite Htok].
  apply (tokens_clean (String c rest)). rewrite Htok. apply elem_of_cons. by left.
Qed.

(** X10.  A line that passes the two tests of [parseNoi] always has a
    second field, so the [replace] calls have a string to work on; the
    symbol they leave holds no white space and no ["$"]. *)
Theorem accepted_line_symbol_is_clean (line : string) (e : NoiSymbol) :
  parseLine line = Some e →
  is_Some (tokens line !! 1%nat) ∧
  hasChar isWhiteSpace (s_symbol e) = false ∧
  hasChar isDollar (s_symbol e) = false.
Proof.
  intros H. destruct (parseLine_symbol line e H) as (symbol & Htok & Hclean & ->).
  split; [by exists symbol|]. split.
  - by apply cutAtDollar_clean, stripFPrefix_clean.
  - apply cutAtDollar_no_dollar.
Qed.

Lemma accepted_line_symbol_is_clean_witness :
  let e := mkNoiSymbol "main" 0x200 0 in
  parseLine "DEF Fmain$main$0$0 0x200" = Some e ∧
  is_Some (tokens "DEF Fmain$main$0$0 0x200" !! 1%nat) ∧
  hasChar isWhiteSpace (s_symbol e) = false ∧
  hasChar isDollar (s_symbol e) = false.
Proof.
  split; [reflexivity|].
  apply (accepted_line_symbol_is_clean "DEF Fmain$main$0$0 0x200"). reflexivity.
Defined.

(** ** The index of frame names *)

(** The key ["__proto__"] never gets an index. *)
Lemma buildNoiIndex_proto i noiLookup index :
  index !! "__proto__" = None → buildNoiIndex i noiLookup index !! "__proto__" = None.
Proof.
  revert i index. induction noiLookup as [|fn rest IH]; intros i index Hnone; [done|].
  cbn [buildNoiIndex]. apply IH. case_decide as Hfn; [done|].
  by rewrite lookup_insert_ne.
Qed.

(** [noiIndex[s]] after the loop of [initialize], for any other key:
    what it was before when no entry is named [s], the position of the
    last such entry otherwise. *)
Lemma buildNoiIndex_lookup i noiLookup index s :
  s ≠ "__proto__" →
  ((∀ e, e ∈ noiLookup → s_symbol e ≠ s) ∧
   buildNoiIndex i noiLookup index !! s = index !! s) ∨
  (∃ l1 e l2, noiLookup = l1 ++ e :: l2 ∧ s_symbol e = s ∧
     (∀ e', e' ∈ l2 → s_symbol e' ≠ s) ∧
     buildNoiIndex i noiLookup index !! s = Some (i + length l1)%nat).
Proof.
  intros Hs. revert i index. induction noiLookup as [|fn rest IH]; intros i index.
  { left. split; [|done]. intros e He. by apply elem_of_nil in He. }
  cbn [buildNoiIndex].
  destruct (IH (S i) (if decide (s_symbol fn = "__proto__") then index
                      else <[s_symbol fn := i]> index))
    as [[Hno Heq]|(l1 & e & l2 & -> & Hse & Hno & Heq)].
  - destruct (decide (s_symbol fn = s)) as [Hfn|Hfn].
    + right. exists [], fn, rest. split; [done|]. split; [done|]. split; [done|].
      rewrite Heq, decide_False by congruence.
      rewrite Hfn, lookup_insert_eq. f_equal. simpl. lia.
    + left. split.
      * intros e He. apply elem_of_cons in He as [->|He]; [done|by apply Hno].
      * rewrite Heq. case_decide; [done|]. by rewrite lookup_insert_ne.
  - right. exists (fn :: l1), e, l2. split; [done|]. split; [done|]. split; [done|].
    rewrite Heq. f_equal. simpl. lia.
Qed.

Lemma index_of_lookup (noiLookup : list NoiSymbol) (s : string) (k : nat) :
  (buildNoiIndex 0 noiLookup ∅ !! s = Some k →
   (s_symbol <$> noiLookup) !! k = Some s ∧ s ≠ "__proto__") ∧
  (s ≠ "__proto__" → (s_symbol <$> noiLookup) !! k = Some s →
   ∃ k', (k ≤ k')%nat ∧ buildNoiIndex 0 noiLookup ∅ !! s = Some k' ∧
         ∀ j, (k' < j)%nat → (s_symbol <$> noiLookup) !! j ≠ Some s).
Proof.
  destruct (decide (s = "__proto__")) as [->|Hs].
  { split; [|done]. by rewrite (buildNoiIndex_proto 0 noiLookup ∅ (lookup_empty _)). }
  destruct (buildNoiIndex_lookup 0 noiLookup ∅ s Hs)
    as [[Hno Heq]|(l1 & e & l2 & Hl & Hse & Hno & Heq)].
  - rewrite Heq, lookup_empty. split; [done|].
    intros _ Hk. rewrite list_lookup_fmap in Hk.
    destruct (noiLookup !! k) as [e|] eqn:He; [|done]. injection Hk as Hk.
    exfalso. apply (Hno e); [|done]. by eapply list_elem_of_lookup_2.
  - rewrite Heq, Hl. cbn [Nat.add]. split.
    + intros Hk. injection Hk as <-. split; [|done].
      rewrite list_lookup_fmap, list_lookup_middle; [|done]. by rewrite <- Hse.
    + intros _ Hk. exists (length l1). split; [|split; [done|]].
      * destruct (decide (k ≤ length l1)%nat) as [|Hgt]; [done|]. exfalso.
        rewrite list_lookup_fmap in Hk.
        destruct ((l1 ++ e :: l2) !! k) as [e'|] eqn:He'; [|done]. injection Hk as Hk.
        rewrite lookup_app_r in He' by lia.
        destruct (k - length l1)%nat as [|n] eqn:Hn; [lia|]. cbn in He'.
        apply (Hno e'); [|done]. by eapply list_elem_of_lookup_2.
      * intros j Hj Hk'. rewrite list_lookup_fmap in Hk'.
        destruct ((l1 ++ e :: l2) !! j) as [e'|] eqn:He'; [|done]. injection Hk' as Hk'.
        rewrite lookup_app_r in He' by lia.
        destruct (j - length l1)%nat as [|n] eqn:Hn; [lia|]. cbn in He'.
        apply (Hno e'); [|done]. by eapply list_elem_of_lookup_2.
Qed.

(** X11.  After [initialize], the index of a symbol is a position of
    [shared.frames] that holds this symbol, whatever the NOI text.  A
    name of [shared.frames] other than ["__proto__"] has an index, which
    is its last position when the name occurs more than once; the name
    ["__proto__"], which a NOI line can give, never has one, since
    [noiIndex] is a plain object and ignores the assignment to that
    key. *)
Theorem index_names_its_frame (noiData : option string) (s : string) (k : nat) :
  let this := initialize noiData in
  (noiIndex this !! s = Some k →
   frames (speedscope this) !! k = Some s ∧ s ≠ "__proto__") ∧
  (s ≠ "__proto__" → frames (speedscope this) !! k = Some s →
   ∃ k', (k ≤ k')%nat ∧ noiIndex this !! s = Some k' ∧
         ∀ j, (k' < j)%nat → frames (speedscope this) !! j ≠ Some s) ∧
  noiIndex this !! "__proto__" = None ∧
  parseLine "DEF __proto__ 0x200" = Some (mkNoiSymbol "__proto__" 0x200 0).
Proof.
  cbn zeta. split; [|split; [|split; [|reflexivity]]].
  - destruct noiData as [[|a text]|]; apply index_of_lookup.
  - destruct noiData as [[|a text]|]; apply index_of_lookup.
  - destruct noiData as [[|a text]|]; by apply buildNoiIndex_proto.
Qed.

Lemma interrupt_symbol_has_space i entry :
  INTERRUPTS !! i = Some entry → hasChar isWhiteSpace (i_symbol entry) = true.
Proof.
  intros H. do 5 (destruct i as [|i]; [by injection H as <-|]). done.
Qed.

(** X12.  For a NOI text that is not empty, the five interrupt vectors
    are frames 0 to 4 of the trace, and the index of an interrupt's symbol
    is its number: no line of the text can take the name of an interrupt,
    so [onInterrupt] opens frame [interrupt]. *)
Theorem interrupt_frames_come_first (text : string) (i : nat) (entry : Interrupt) :
  text ≠ "" →
  INTERRUPTS !! i = Some entry →
  let this := initialize (Some text) in
  noiIndex this !! i_symbol entry = Some i ∧
  frames (speedscope this) !! i = Some (i_symbol entry).
Proof.
  intros Htext Hi. cbn zeta. unfold initialize.
  destruct text as [|a text']; [done|]. set (text := String a text').
  cbn [noiIndex speedscope frames createSpeedscopeTrace].
  destruct (parseLines_structure (splitLines text) ∅ interruptSymbols)
    as (parsed & Heq & _ & Hprov & _).
  fold (parseNoi text) in Heq.
  assert (Hframe : (s_symbol <$> parseNoi text) !! i = Some (i_symbol entry)).
  { rewrite Heq, fmap_app, lookup_app_l.
    - unfold interruptSymbols. rewrite <- list_fmap_compose, list_lookup_fmap, Hi. done.
    - apply lookup_lt_Some in Hi. rewrite !length_fmap. done. }
  split; [|done].
  assert (Hproto : i_symbol entry ≠ "__proto__").
  { intros Hp. pose proof (interrupt_symbol_has_space i entry Hi) as Hws.
    by rewrite Hp in Hws. }
  destruct (buildNoiIndex_lookup 0 (parseNoi text) ∅ (i_symbol entry) Hproto)
    as [[Hno _]|(l1 & e & l2 & Hl & Hs & Hno & Hidx)].
  { exfalso. rewrite list_lookup_fmap in Hframe.
    destruct (parseNoi text !! i) as [e|] eqn:He; [|done]. injection Hframe as Hframe.
    apply (Hno e); [|done]. by eapply list_elem_of_lookup_2. }
  rewrite Hidx. f_equal. cbn [Nat.add].
  assert (Hclean : ∀ e', e' ∈ parsed → s_symbol e' ≠ i_symbol entry).
  { intros e' He' Heq'. destruct (Hprov e' He') as (_ & k & line & _ & Hline & _).
    destruct (parseLine_symbol line e' Hline) as (symbol & _ & Hsym & Hs').
    assert (Hws : hasChar isWhiteSpace (s_symbol e') = false).
    { rewrite Hs'. by apply cutAtDollar_clean, stripFPrefix_clean. }
    rewrite Heq', (interrupt_symbol_has_space i entry Hi) in Hws. done. }
  assert (Hlast : ∀ j e', (i < j)%nat → parseNoi text !! j = Some e' →
                          s_symbol e' ≠ i_symbol entry).
  { intros j e' Hj He'. rewrite Heq in He'.
    apply lookup_app_Some in He' as [He'|[_ He']].
    - clear -Hi Hj He'. unfold interruptSymbols in He'.
      rewrite list_lookup_fmap in He'.
      do 5 (destruct i as [|i]; [injection Hi as <-;
        do 5 (destruct j as [|j]; [first [lia | by injection He' as <-]|]); done|]).
      done.
    - apply Hclean. by eapply list_elem_of_lookup_2. }
  destruct (Nat.lt_total (length l1) i) as [Hlt|[->|Hgt]]; [|done|].
  - exfalso. apply (Hno (mkNoiSymbol (i_symbol entry) (i_addr entry) 0)); [|done].
    apply (list_elem_of_lookup_2 _ (i - S (length l1))).
    assert (Hsrc : parseNoi text !! i = Some (mkNoiSymbol (i_symbol entry) (i_addr entry) 0)).
    { rewrite Heq, lookup_app_l.
      - unfold interruptSymbols. by rewrite list_lookup_fmap, Hi.
      - apply lookup_lt_Some in Hi. unfold interruptSymbols. by rewrite length_fmap. }
    rewrite Hl, lookup_app_r in Hsrc by lia.
    replace (i - length l1)%nat with (S (i - S (length l1))) in Hsrc by lia. done.
  - exfalso. apply (Hlast (length l1) e Hgt); [|done].
    rewrite Hl. by apply list_lookup_middle.
Qed.

Lemma interrupt_frames_come_first_witness :
  let this := initialize (Some sampleNoi) in
  noiIndex this !! i_symbol LCD = Some 1%nat ∧
  frames (speedscope this) !! 1%nat = Some (i_symbol LCD).
Proof.
  apply (interrupt_frames_come_first sampleNoi 1 LCD); [done|reflexivity].
Defined.

Lemma index_names_its_frame_witness :
  let this := initialize (Some sampleNoi) in
  noiIndex this !! "[INTERRUPT] TIM" = Some 2%nat ∧
  frames (speedscope this) !! 2%nat = Some "[INTERRUPT] TIM".
Proof.
  assert (H : noiIndex (initialize (Some sampleNoi)) !! "[INTERRUPT] TIM" = Some 2%nat)
    by (vm_compute; reflexivity).
  split; [exact H|].
  exact (proj1 (proj1 (index_names_its_frame (Some sampleNoi) "[INTERRUPT] TIM" 2) H)).
Defined.

(** ** What the hooks keep *)

Lemma addOpenEvent_append trace idx at_ :
  addOpenEvent trace idx at_ = appendEvents trace [mkEvent TypeO at_ idx None].
Proof. done. Qed.

Lemma onInterrupt_openInterrupt this interrupt clockNow :
  onInterrupt this interrupt clockNow
  = (λ entry, openInterrupt (popInterrupts this clockNow) entry clockNow)
      <$> INTERRUPTS !! interrupt.
Proof. unfold onInterrupt. by destruct (INTERRUPTS !! interrupt). Qed.

(** [popFramesUntil], with or without a function: some frames go from
    the top of the stack, each with a clamped close, and nothing else
    changes. *)
Lemma popFramesUntil_effect `{HasSymbol A} this clockNow (fn : option A) :
  ∃ popped,
    fnStack this = popped ++ fnStack (popFramesUntil this clockNow fn) ∧
    speedscope (popFramesUntil this clockNow fn)
    = appendEvents (speedscope this) (closeClamped (noiIndex this) clockNow <$> popped) ∧
    regionsByBank (popFramesUntil this clockNow fn) = regionsByBank this ∧
    noiIndex (popFramesUntil this clockNow fn) = noiIndex this ∧
    currentFnRegion (popFramesUntil this clockNow fn) = currentFnRegion this ∧
    interruptStack (popFramesUntil this clockNow fn) = interruptStack this.
Proof.
  assert (Hloop : ∀ sym,
    let res := popUntilLoop (noiIndex this) clockNow sym (fnStack this) (speedscope this) in
    ∃ popped,
      fnStack this = popped ++ fst res ∧
      snd res = appendEvents (speedscope this) (closeClamped (noiIndex this) clockNow <$> popped)).
  { intros sym res.
    destruct (popUntilLoop_clamped (noiIndex this) clockNow sym (fnStack this)
                (speedscope this)) as (popped & Hst & Htr & _).
    by exists popped. }
  unfold popFramesUntil. destruct fn as [fn'|].
  - destruct (fnStackContains this fn'); cbn [negb].
    + destruct (Hloop (Some (symbolOf fn'))) as (popped & Hst & Htr).
      exists popped. by destruct (popUntilLoop _ _ _ _ _).
    + exists []. cbn [fmap list_fmap app]. by rewrite appendEvents_nil.
  - destruct (Hloop None) as (popped & Hst & Htr).
    exists popped. by destruct (popUntilLoop _ _ _ _ _).
Qed.

(** The five things a call of [onAfterInstruction] can do. *)
Lemma onAfterInstruction_cases this opcode pc bank clockNow :
  let after := onAfterInstruction this opcode pc bank clockNow in
  after = popInterrupts this clockNow ∨
  after = this ∨
  ∃ newFn, getCurrentFunctionRegion this pc bank = Some newFn ∧
    (after = setCurrentFnRegion (pushFrame this clockNow newFn) (Some newFn) ∨
     (fnStackContains this newFn = true ∧
      after = setCurrentFnRegion (popFramesUntil this clockNow (Some newFn)) (Some newFn)) ∨
     after = setCurrentFnRegion this (Some newFn)).
Proof.
  cbn zeta. unfold onAfterInstruction.
  destruct (decide (opcode = RETI)); [by left|].
  destruct (getCurrentFunctionRegion this pc bank) as [newFn|]; [|by right; left].
  destruct (decide (Some newFn = currentFnRegion this)); [by right; left|].
  destruct (bool_decide (r_symbol newFn ∈ IGNORE_SYMBOLS)); [by right; left|].
  destruct (decide (pc = r_addr newFn)).
  { right; right. exists newFn. split; [done|]. by left. }
  destruct (fnStackContains this newFn) eqn:Hc.
  { right; right. exists newFn. split; [done|]. right; left. done. }
  destruct (decide (0 < length (interruptStack this))%nat); [by right; left|].
  destruct (decide (0x4000 ≤ pc)).
  - right; right. exists newFn. split; [done|]. by left.
  - right; right. exists newFn. split; [done|]. by right; right.
Qed.

(** A property kept by the five operations is kept by the hooks. *)
Lemma callHook_preserves (P : Runner → Prop) (clockNow : Z) :
  (∀ r, P r → P (popInterrupts r clockNow)) →
  (∀ r pc bank newFn,
     P r → getCurrentFunctionRegion r pc bank = Some newFn →
     P (setCurrentFnRegion (pushFrame r clockNow newFn) (Some newFn))) →
  (∀ r pc bank newFn,
     P r → getCurrentFunctionRegion r pc bank = Some newFn →
     P (setCurrentFnRegion (popFramesUntil r clockNow (Some newFn)) (Some newFn))) →
  (∀ r pc bank newFn,
     P r → getCurrentFunctionRegion r pc bank = Some newFn →
     P (setCurrentFnRegion r (Some newFn))) →
  (∀ r entry, P r → entry ∈ INTERRUPTS → P (openInterrupt r entry clockNow)) →
  ∀ this call after, P this → callHook this clockNow call = Some after → P after.
Proof.
  intros P_popInterrupts P_pushFrame P_popFramesUntil P_cache P_openInterrupt.
  intros this call after HP Hcall.
  destruct call as [opcode pc bank|interrupt]; cbn [callHook] in Hcall.
  - injection Hcall as <-.
    destruct (onAfterInstruction_cases this opcode pc bank clockNow)
      as [->|[->|(newFn & Hfn & [->|[[_ ->]| ->]])]]; eauto.
  - rewrite onInterrupt_openInterrupt in Hcall.
    destruct (INTERRUPTS !! interrupt) as [entry|] eqn:Hi; [|done].
    injection Hcall as <-. apply P_openInterrupt; [by apply P_popInterrupts|].
    by eapply list_elem_of_lookup_2.
Qed.

Lemma reachable_callHook init this :
  reachable init this ↔
  this = init ∨ ∃ prev clockNow call,
    reachable init prev ∧ callHook prev clockNow call = Some this.
Proof.
  split.
  - intros [|prev opcode pc bank clockNow Hprev|prev interrupt clockNow after Hprev Hint].
    + by left.
    + right. by exists prev, clockNow, (OnAfterInstruction opcode pc bank).
    + right. by exists prev, clockNow, (OnInterrupt interrupt).
  - intros [->|(prev & clockNow & [opcode pc bank|interrupt] & Hprev & Hcall)].
    + constructor.
    + injection Hcall as <-. by constructor.
    + by econstructor.
Qed.

(** A property kept by the five operations at every clock holds of every
    state the hooks lead to. *)
Lemma reachable_preserves (P : Runner → Prop) init this :
  (∀ clockNow r, P r → P (popInterrupts r clockNow)) →
  (∀ clockNow r pc bank newFn,
     P r → getCurrentFunctionRegion r pc bank = Some newFn →
     P (setCurrentFnRegion (pushFrame r clockNow newFn) (Some newFn))) →
  (∀ clockNow r pc bank newFn,
     P r → getCurrentFunctionRegion r pc bank = Some newFn →
     P (setCurrentFnRegion (popFramesUntil r clockNow (Some newFn)) (Some newFn))) →
  (∀ r pc bank newFn,
     P r → getCurrentFunctionRegion r pc bank = Some newFn →
     P (setCurrentFnRegion r (Some newFn))) →
  (∀ clockNow r entry, P r → entry ∈ INTERRUPTS → P (openInterrupt r entry clockNow)) →
  P init → reachable init this → P this.
Proof.
  intros Hpop Hpush Huntil Hcache Hopen Hinit Hreach.
  induction Hreach as [|prev opcode pc bank clockNow Hprev IH
                        |prev interrupt clockNow after Hprev IH Hint].
  - done.
  - apply (callHook_preserves P clockNow (Hpop clockNow) (Hpush clockNow) (Huntil clockNow)
             Hcache (Hopen clockNow) prev (OnAfterInstruction opcode pc bank)); done.
  - apply (callHook_preserves P clockNow (Hpop clockNow) (Hpush clockNow) (Huntil clockNow)
             Hcache (Hopen clockNow) prev (OnInterrupt interrupt)); done.
Qed.

Lemma runHooks_reachable init calls this :
  runHooks init calls = Some this → reachable init this.
Proof.
  assert (Hgen : ∀ start, reachable init start → runHooks start calls = Some this →
                          reachable init this).
  { induction calls as [|[clockNow call] calls IH]; intros start Hstart Hrun;
      cbn [runHooks] in Hrun.
    - by injection Hrun as <-.
    - destruct (callHook start clockNow call) as [next|] eqn:Hcall; [|done].
      apply (IH next); [|done]. apply reachable_callHook. right. by exists start, clockNow, call. }
  apply Hgen. constructor.
Qed.

Lemma markParent_fmap {B} (g : Frame → B) stack :
  (∀ f, g (mkFrame (f_symbol f) (f_addr f) (f_clock f) true true (f_indent f)) = g f) →
  g <$> markParent stack = g <$> stack.
Proof. intros Hg. destruct stack as [|parent rest]; [done|]. simpl. by rewrite Hg. Qed.

Lemma markParent_Forall (Q : Frame → Prop) stack :
  (∀ f, Q f → Q (mkFrame (f_symbol f) (f_addr f) (f_clock f) true true (f_indent f))) →
  Forall Q stack → Forall Q (markParent stack).
Proof.
  intros HQ Hall. destruct stack as [|parent rest]; [done|].
  apply Forall_cons in Hall as [Hp Hrest]. simpl. constructor; [by apply HQ|done].
Qed.

(** X13.  The hooks only ever append to the event list: whatever state
    they lead to, the events of the starting state are a prefix of its
    events, and the frame names, [endValue], the captures, the region
    lookup and the symbol index are the ones of the starting state. *)
Theorem hooks_only_append_events (init this : Runner) :
  reachable init this →
  (∃ new, events (speedscope this) = events (speedscope init) ++ new) ∧
  frames (speedscope this) = frames (speedscope init) ∧
  endValue (speedscope this) = endValue (speedscope init) ∧
  captures (speedscope this) = captures (speedscope init) ∧
  regionsByBank this = regionsByBank init ∧
  noiIndex this = noiIndex init.
Proof.
  intros Hreach.
  set (P := λ r : Runner,
    (∃ new, speedscope r = appendEvents (speedscope init) new) ∧
    regionsByBank r = regionsByBank init ∧ noiIndex r = noiIndex init).
  assert (Hstep : ∀ r after new, P r →
    speedscope after = appendEvents (speedscope r) new →
    regionsByBank after = regionsByBank r → noiIndex after = noiIndex r → P after).
  { intros r after new ((old & Hold) & Hr & Hi) Hs Hr' Hi'. split; [|split; congruence].
    exists (old ++ new). by rewrite Hs, Hold, appendEvents_app. }
  assert (HP : P this).
  { apply (reachable_preserves P init this); [| | | | | |done].
    - intros clockNow r Hr. destruct (popInterrupts_popped r clockNow) as (popped & [] & _).
      by eapply Hstep.
    - intros clockNow r pc bank newFn Hr _.
      by apply (Hstep r _ [mkEvent TypeO clockNow (noiIndex r !! r_symbol newFn) None]).
    - intros clockNow r pc bank newFn Hr _.
      destruct (popFramesUntil_effect r clockNow (Some newFn))
        as (popped & _ & Htr & Hrg & Hidx & _).
      by eapply Hstep.
    - by intros r pc bank newFn Hr _.
    - intros clockNow r entry Hr _.
      by apply (Hstep r _ [mkEvent TypeO clockNow (noiIndex r !! i_symbol entry) None]).
    - split; [|done]. exists []. by rewrite appendEvents_nil. }
  destruct HP as ((new & Hnew) & Hr & Hi). rewrite Hnew.
  split; [by exists new|done].
Qed.

Lemma hooks_only_append_events_witness :
  ∃ new, events (speedscope simpleCall) = [] ++ new.
Proof.
  set (init := initialize (Some ("DEF _main 0x150" ++ LF ++ "DEF _foo 0x200")%string)).
  assert (Hreach : reachable init simpleCall).
  { unfold simpleCall. repeat constructor. }
  exact (proj1 (hooks_only_append_events init simpleCall Hreach)).
Defined.

Lemma nestWalk_app stack l1 l2 :
  nestWalk stack (l1 ++ l2) = nestWalk stack l1 ≫= λ stack', nestWalk stack' l2.
Proof.
  revert stack. induction l1 as [|e l1 IH]; intros stack; [done|].
  cbn [app nestWalk]. destruct (e_type e); [apply IH|].
  destruct stack as [|top below]; [done|]. case_decide; [apply IH|done].
Qed.

(** Closing the frames of the top of the stack, innermost first, pops
    them. *)
Lemma nestWalk_pops (mk : Frame → Event) (idx : gmap string nat) popped stack :
  (∀ f, e_type (mk f) = TypeC ∧ e_frame (mk f) = idx !! f_symbol f) →
  nestWalk (((λ f, idx !! f_symbol f) <$> popped) ++ stack) (mk <$> popped) = Some stack.
Proof.
  intros Hmk. induction popped as [|f popped IH]; [done|].
  rewrite !fmap_cons. cbn [app nestWalk]. destruct (Hmk f) as [-> ->].
  by rewrite decide_True.
Qed.

Lemma Nested_pops (mk : Frame → Event) r after popped :
  (∀ f, e_type (mk f) = TypeC ∧ e_frame (mk f) = noiIndex r !! f_symbol f) →
  Nested r →
  fnStack r = popped ++ fnStack after →
  speedscope after = appendEvents (speedscope r) (mk <$> popped) →
  noiIndex after = noiIndex r →
  Nested after.
Proof.
  unfold Nested, frameIndexOf. intros Hmk Hr Hst Htr Hidx.
  rewrite Htr, Hidx. cbn [appendEvents withEvents events].
  rewrite nestWalk_app, Hr, Hst, fmap_app. cbn [mbind option_bind].
  by apply nestWalk_pops.
Qed.

Lemma Nested_push r after f stack' clockNow :
  Nested r →
  fnStack after = f :: stack' →
  f_symbol <$> stack' = f_symbol <$> fnStack r →
  speedscope after
  = appendEvents (speedscope r) [mkEvent TypeO clockNow (noiIndex r !! f_symbol f) None] →
  noiIndex after = noiIndex r →
  Nested after.
Proof.
  unfold Nested, frameIndexOf. intros Hr Hst Hsym Htr Hidx.
  rewrite Htr, Hidx, Hst. cbn [appendEvents withEvents events].
  rewrite nestWalk_app, Hr. cbn [mbind option_bind nestWalk e_type e_frame].
  rewrite fmap_cons. do 2 f_equal.
  assert (Hvia : ∀ l : list Frame,
    (λ f, noiIndex r !! f_symbol f) <$> l = (λ s, noiIndex r !! s) <$> (f_symbol <$> l)).
  { intros l. by rewrite <- list_fmap_compose. }
  by rewrite !Hvia, Hsym.
Qed.

Lemma popUntilLoop_all index clockNow stack trace :
  fst (popUntilLoop index clockNow None stack trace) = [].
Proof.
  revert trace. induction stack as [|f stack IH]; intros trace; [done|].
  cbn [popUntilLoop]. by rewrite decide_True.
Qed.

Lemma Nested_reachable noiData this :
  reachable (initialize noiData) this → Nested this.
Proof.
  apply (reachable_preserves Nested).
  - intros clockNow r Hr. destruct (popInterrupts_popped r clockNow) as (popped & [] & _).
    by apply (Nested_pops (closeAt (noiIndex r) clockNow) r _ popped).
  - intros clockNow r pc bank newFn Hr _.
    eapply (Nested_push r _ _ (markParent (fnStack r)) clockNow); try done.
    by apply markParent_fmap.
  - intros clockNow r pc bank newFn Hr _.
    destruct (popFramesUntil_effect r clockNow (Some newFn))
      as (popped & Hst & Htr & _ & Hidx & _).
    by apply (Nested_pops (closeClamped (noiIndex r) clockNow) r _ popped).
  - by intros r pc bank newFn Hr _.
  - intros clockNow r entry Hr _.
    by eapply (Nested_push r _ _ (fnStack r) clockNow).
  - by destruct noiData as [[|]|].
Qed.

(** X14.  In every state the hooks lead to from [initialize], the events
    written so far are well nested in the order they were written: every
    close finds its own frame innermost, and the frames left open are
    those of [fnStack], innermost first.  The final [popFramesUntil()] of
    [run] empties the stack and leaves no frame open. *)
Theorem raw_events_mirror_the_stack (noiData : option string) (this : Runner) :
  reachable (initialize noiData) this →
  nestWalk [] (events (speedscope this)) = Some (frameIndexOf this <$> fnStack this) ∧
  ∀ clockNow,
    fnStack (popFramesUntil (A := Region) this clockNow None) = [] ∧
    nestWalk [] (events (speedscope (popFramesUntil (A := Region) this clockNow None)))
    = Some [].
Proof.
  intros Hreach. pose proof (Nested_reachable noiData this Hreach) as Hnested.
  split; [done|]. intros clockNow.
  assert (Hempty : fnStack (popFramesUntil (A := Region) this clockNow None) = []).
  { unfold popFramesUntil.
    pose proof (popUntilLoop_all (noiIndex this) clockNow (fnStack this) (speedscope this)).
    by destruct (popUntilLoop _ _ _ _ _). }
  split; [done|].
  destruct (popFramesUntil_effect (A := Region) this clockNow None)
    as (popped & Hst & Htr & _ & Hidx & _).
  pose proof (Nested_pops (closeClamped (noiIndex this) clockNow) this _ popped
                (λ f, conj eq_refl eq_refl) Hnested Hst Htr Hidx) as Hafter.
  unfold Nested in Hafter. by rewrite Hempty in Hafter.
Qed.

Lemma raw_events_mirror_the_stack_witness :
  nestWalk [] (events (speedscope simpleCall))
  = Some (frameIndexOf simpleCall <$> fnStack simpleCall).
Proof.
  assert (Hreach : reachable
            (initialize (Some ("DEF _main 0x150" ++ LF ++ "DEF _foo 0x200")%string))
            simpleCall).
  { unfold simpleCall. repeat constructor. }
  exact (proj1 (raw_events_mirror_the_stack _ simpleCall Hreach)).
Defined.

Lemma sorted_append_at t l new :
  StronglySorted atLe l → Forall (λ e, e_at e ≤ t) l → Forall (λ e, e_at e = t) new →
  StronglySorted atLe (l ++ new).
Proof.
  intros Hsorted Hle Hnew. induction l as [|x l IH].
  - cbn [app]. induction new as [|y new IHn]; [constructor|].
    apply Forall_cons in Hnew as [Hy Hnew]. constructor; [by apply IHn|].
    eapply Forall_impl; [exact Hnew|]. intros z Hz. unfold atLe. simpl in *. lia.
  - apply StronglySorted_inv in Hsorted as [Hl Hx].
    apply Forall_cons in Hle as [Hxt Hle]. cbn [app]. constructor; [by apply IH|].
    apply Forall_app. split; [done|].
    eapply Forall_impl; [exact Hnew|]. intros z Hz. unfold atLe. simpl in *. lia.
Qed.

Lemma ClockedBy_mono t t' r : t ≤ t' → ClockedBy t r → ClockedBy t' r.
Proof.
  intros Hle (Hst & Hev & Hsorted & Hok). repeat split; try done.
  - eapply Forall_impl; [exact Hst|]. intros f Hf. simpl in Hf. lia.
  - eapply Forall_impl; [exact Hev|]. intros e He. simpl in He. lia.
Qed.

Lemma ClockedBy_append t r after new :
  ClockedBy t r →
  Forall (λ f, f_clock f ≤ t) (fnStack after) →
  speedscope after = appendEvents (speedscope r) new →
  Forall (λ e, e_at e = t ∧ closeOk e) new →
  ClockedBy t after.
Proof.
  intros (Hst & Hev & Hsorted & Hok) Hst' Htr Hnew. rewrite Forall_and in Hnew.
  destruct Hnew as [Hat Hok']. unfold ClockedBy. rewrite Htr.
  cbn [appendEvents withEvents events]. split; [done|]. split; [|split].
  - apply Forall_app. split; [done|]. eapply Forall_impl; [exact Hat|].
    intros e He. simpl in He. lia.
  - by apply (sorted_append_at t).
  - apply Forall_app. by split.
Qed.

(** Closes written for frames that were pushed no later than the clock. *)
Lemma closes_at_clock (mk : Frame → Event) t popped :
  (∀ f, f_clock f ≤ t →
        e_at (mk f) = t ∧ e_start (mk f) = Some (f_clock f)) →
  Forall (λ f, f_clock f ≤ t) popped →
  Forall (λ e, e_at e = t ∧ closeOk e) (mk <$> popped).
Proof.
  intros Hmk Hall. apply Forall_fmap. eapply Forall_impl; [exact Hall|].
  intros f Hf. simpl in *. destruct (Hmk f Hf) as [Hat Hstart].
  split; [done|]. intros _. exists (f_clock f). split; [done|]. lia.
Qed.

Lemma ClockedBy_callHook t this call after :
  ClockedBy t this → callHook this t call = Some after → ClockedBy t after.
Proof.
  apply (callHook_preserves (ClockedBy t) t).
  - intros r Hr. destruct (popInterrupts_popped r t) as (popped & [Hst Htr _ _ _] & _).
    pose proof Hr as (Hstack & _). rewrite Hst in Hstack.
    apply Forall_app in Hstack as [Hpopped Hrest].
    apply (ClockedBy_append t r _ (closeAt (noiIndex r) t <$> popped)); try done.
    by apply closes_at_clock.
  - intros r pc bank newFn Hr _. pose proof Hr as (Hstack & _).
    apply (ClockedBy_append t r _ [mkEvent TypeO t (noiIndex r !! r_symbol newFn) None]);
      try done.
    + cbn [setCurrentFnRegion pushFrame setStack fnStack]. constructor; [simpl; lia|].
      by apply markParent_Forall.
    + by repeat constructor.
  - intros r pc bank newFn Hr _.
    destruct (popFramesUntil_effect r t (Some newFn)) as (popped & Hst & Htr & _).
    pose proof Hr as (Hstack & _). rewrite Hst in Hstack.
    apply Forall_app in Hstack as [Hpopped Hrest].
    apply (ClockedBy_append t r _ (closeClamped (noiIndex r) t <$> popped)); try done.
    apply closes_at_clock; [|done]. intros f Hf. cbn [closeClamped e_at e_start].
    split; [lia|done].
  - by intros r pc bank newFn Hr _.
  - intros r entry Hr _. pose proof Hr as (Hstack & _).
    apply (ClockedBy_append t r _ [mkEvent TypeO t (noiIndex r !! i_symbol entry) None]);
      try done.
    + cbn [openInterrupt setInterruptStack setStack fnStack]. constructor; [simpl; lia|done].
    + by repeat constructor.
Qed.

Lemma ClockedBy_runHooks calls t0 start this :
  ClockedBy t0 start →
  Forall (λ c, t0 ≤ c) (fst <$> calls) →
  StronglySorted Z.le (fst <$> calls) →
  runHooks start calls = Some this →
  ∃ t, ClockedBy t this ∧ Forall (λ c, c ≤ t) (fst <$> calls).
Proof.
  revert t0 start. induction calls as [|[t call] calls IH]; intros t0 start Hstart Hge Hsorted Hrun.
  - injection Hrun as <-. exists t0. split; [done|constructor].
  - cbn [runHooks] in Hrun. rewrite fmap_cons in Hge, Hsorted. cbn [fst] in Hge, Hsorted.
    apply Forall_cons in Hge as [Ht _].
    apply StronglySorted_inv in Hsorted as [Hsorted Hrest].
    destruct (callHook start t call) as [next|] eqn:Hcall; [|done].
    assert (Hnext : ClockedBy t next).
    { apply (ClockedBy_callHook t start call); [|done]. by apply (ClockedBy_mono t0). }
    destruct (IH t next Hnext Hrest Hsorted Hrun) as (t' & Hthis & Hle).
    exists (Z.max t t'). split; [apply (ClockedBy_mono t'); [lia|done]|].
    rewrite fmap_cons. constructor; [simpl; lia|].
    eapply Forall_impl; [exact Hle|]. intros c Hc. simpl in Hc. lia.
Qed.

(** X15.  When the clock the hooks read never goes back from one call to
    the next, the events are written in the order of their [at], no
    close event ends before it starts, and nothing in the trace or on the
    stack is later than the last clock read: the clamp of
    [popFramesUntil] never acts, and [popFramesIncluding] needs none. *)
Theorem monotone_clock_orders_events
    (noiData : option string) (calls : list (Z * HookCall)) (this : Runner) :
  StronglySorted Z.le (fst <$> calls) →
  runHooks (initialize noiData) calls = Some this →
  StronglySorted atLe (events (speedscope this)) ∧
  Forall closeOk (events (speedscope this)) ∧
  (∀ t, Forall (λ c, c ≤ t) (fst <$> calls) →
     Forall (λ e, e_at e ≤ t) (events (speedscope this)) ∧
     Forall (λ f, f_clock f ≤ t) (fnStack this)).
Proof.
  intros Hsorted Hrun.
  assert (Hinit : ∀ t0, ClockedBy t0 (initialize noiData)).
  { intros t0. destruct noiData as [[|]|]; repeat split; constructor. }
  destruct calls as [|[t call] calls].
  { injection Hrun as <-. destruct (Hinit 0) as (_ & _ & Hs & Hok).
    split; [done|]. split; [done|]. intros t _. by destruct (Hinit t) as (? & ? & _). }
  assert (Hge : Forall (λ c, t ≤ c) (fst <$> (t, call) :: calls)).
  { rewrite fmap_cons in Hsorted |- *. apply StronglySorted_inv in Hsorted as [_ Hrest].
    constructor; [simpl; lia|done]. }
  destruct (ClockedBy_runHooks _ t _ this (Hinit t) Hge Hsorted Hrun)
    as (t' & (_ & _ & Hs & Hok) & _).
  split; [done|]. split; [done|]. intros tmax Hmax.
  assert (Hbound : ∃ t'', t'' ≤ tmax ∧ ClockedBy t'' this).
  { clear Hs Hok t'.
    assert (Hgen : ∀ l t0 start, ClockedBy t0 start → t0 ≤ tmax →
      Forall (λ c, t0 ≤ c) (fst <$> l) → Forall (λ c, c ≤ tmax) (fst <$> l) →
      StronglySorted Z.le (fst <$> l) → runHooks start l = Some this →
      ∃ t'', t'' ≤ tmax ∧ ClockedBy t'' this).
    { induction l as [|[c call'] l IH]; intros t0 start Hstart Ht0 Hlo Hhi Hso Hr.
      - injection Hr as <-. by exists t0.
      - cbn [runHooks] in Hr. rewrite fmap_cons in Hlo, Hhi, Hso. cbn [fst] in Hlo, Hhi, Hso.
        apply Forall_cons in Hlo as [Hc _]. apply Forall_cons in Hhi as [Hcmax Hhi].
        apply StronglySorted_inv in Hso as [Hso Hrest].
        destruct (callHook start c call') as [next|] eqn:Hcall; [|done].
        apply (IH c next); try done.
        apply (ClockedBy_callHook c start call'); [|done]. by apply (ClockedBy_mono t0). }
    apply (Hgen ((t, call) :: calls) t (initialize noiData)); try done.
    rewrite fmap_cons in Hmax. by apply Forall_cons in Hmax as [? _]. }
  destruct Hbound as (t'' & Hle & Hthis).
  by destruct (ClockedBy_mono t'' tmax this Hle Hthis) as (? & ? & _).
Qed.

Lemma monotone_clock_orders_events_witness :
  ∃ this,
    runHooks (initialize (Some "DEF _main 0x150"))
      [(10, OnAfterInstruction 0 0x150 1); (20, OnInterrupt 0);
       (30, OnAfterInstruction RETI 0x41 1)] = Some this ∧
    StronglySorted atLe (events (speedscope this)) ∧
    Forall closeOk (events (speedscope this)).
Proof.
  eexists. split; [vm_compute; reflexivity|].
  assert (Hsorted : StronglySorted Z.le
            (fst <$> [(10, OnAfterInstruction 0 0x150 1); (20, OnInterrupt 0);
                      (30, OnAfterInstruction RETI 0x41 1)])).
  { repeat constructor; simpl; lia. }
  destruct (monotone_clock_orders_events (Some "DEF _main 0x150") _ _ Hsorted eq_refl)
    as (Hs & Hok & _).
  by split.
Defined.

(** ** The cached region and the frame indices *)

Lemma resolver_in_table table this pc bank fn :
  CacheInTable table this →
  getCurrentFunctionRegion this pc bank = Some fn → fn ∈ table.
Proof.
  intros [Htable Hcached]. rewrite getCurrentFunctionRegion_cases.
  assert (Hfind : findInBank this pc bank = Some fn → fn ∈ table).
  { rewrite findInBank_default, Htable, buildRegionsByBank_lookup. intros Hfind.
    apply find_Some in Hfind as [Hin _]. by apply list_elem_of_filter in Hin as [_ ?]. }
  destruct (currentFnRegion this) as [cached|]; [|done].
  destruct (sticky cached pc bank); [|done].
  intros Heq. injection Heq as <-. by apply Hcached.
Qed.

Lemma CacheInTable_reachable noiData this :
  reachable (initialize noiData) this → CacheInTable (tableOf noiData) this.
Proof.
  apply (reachable_preserves (CacheInTable (tableOf noiData))).
  - intros clockNow r [Ht Hc].
    destruct (popInterrupts_popped r clockNow) as (popped & [_ _ Hrg _ Hcur] & _).
    split; [congruence|]. intros fn Hfn. apply Hc. congruence.
  - intros clockNow r pc bank newFn Hr Hres. split; [apply Hr|].
    intros fn Hfn. injection Hfn as <-. by eapply resolver_in_table.
  - intros clockNow r pc bank newFn Hr Hres.
    destruct (popFramesUntil_effect r clockNow (Some newFn)) as (popped & _ & _ & Hrg & _).
    split; [cbn [setCurrentFnRegion regionsByBank]; rewrite Hrg; apply Hr|].
    intros fn Hfn. injection Hfn as <-. by eapply resolver_in_table.
  - intros r pc bank newFn Hr Hres. split; [apply Hr|].
    intros fn Hfn. injection Hfn as <-. by eapply resolver_in_table.
  - intros clockNow r entry [Ht Hc] _. by split.
  - split; [by destruct noiData as [[|]|]|]. by destruct noiData as [[|]|].
Qed.

Lemma table_regions_apart noiData r1 r2 pc :
  r1 ∈ tableOf noiData → r2 ∈ tableOf noiData →
  r_bank r1 = r_bank r2 →
  containsPc pc r1 = true → containsPc pc r2 = true →
  r1 = r2.
Proof.
  destruct noiData as [[|a text]|].
  - intros H1. by apply elem_of_nil in H1.
  - apply regions_same_bank_same_pc.
  - intros H1. by apply elem_of_nil in H1.
Qed.

Lemma table_regions_range noiData r :
  r ∈ tableOf noiData →
  r_end r ≤ bankMax (r_bank r) ∧ (r_addr r < 0x4000 → r_bank r = 0).
Proof.
  destruct noiData as [[|a text]|].
  - intros H1. by apply elem_of_nil in H1.
  - intros Hr. destruct (noi_regions_apart (String a text)) as [Hrange _].
    rewrite Forall_forall in Hrange. by apply Hrange.
  - intros H1. by apply elem_of_nil in H1.
Qed.

(** X16.  The one-entry cache of [getCurrentFunctionRegion] never changes
    an answer: in every state the hooks lead to from [initialize], the
    resolver returns what the plain lookup in [regionsByBank] returns,
    and that is the one region of the table that lies in the target bank
    and holds [pc], when there is one. *)
Theorem sticky_cache_is_transparent
    (noiData : option string) (this : Runner) (pc bank : Z) :
  reachable (initialize noiData) this →
  getCurrentFunctionRegion this pc bank = findInBank this pc bank ∧
  ∀ r, getCurrentFunctionRegion this pc bank = Some r ↔
       r ∈ tableOf noiData ∧ r_bank r = (if decide (pc < 0x4000) then 0 else bank) ∧
       r_addr r ≤ pc ≤ r_end r.
Proof.
  intros Hreach. destruct (CacheInTable_reachable noiData this Hreach) as [Htable Hcached].
  assert (Hfound : ∀ r, findInBank this pc bank = Some r ↔
    r ∈ tableOf noiData ∧ r_bank r = targetBankOf pc bank ∧ r_addr r ≤ pc ≤ r_end r).
  { intros r. rewrite findInBank_default, Htable, buildRegionsByBank_lookup. split.
    - intros Hfind. apply find_Some in Hfind as [Hin Hc].
      apply list_elem_of_filter in Hin as [Hb Hin].
      by apply bool_decide_eq_true in Hc.
    - intros (Hin & Hb & Hpc).
      assert (Hc : containsPc pc r = true) by (by apply bool_decide_eq_true).
      destruct (find_ (containsPc pc) _) as [found|] eqn:Hfind.
      + apply find_Some in Hfind as [Hfound Hc'].
        apply list_elem_of_filter in Hfound as [Hb' Hfound]. f_equal.
        apply (table_regions_apart noiData found r pc); try done. congruence.
      + assert (Hr : r ∈ filter (λ r, r_bank r = targetBankOf pc bank) (tableOf noiData))
          by (by apply list_elem_of_filter).
        pose proof (find_None _ _ Hfind r Hr). congruence. }
  assert (Heq : getCurrentFunctionRegion this pc bank = findInBank this pc bank).
  { rewrite getCurrentFunctionRegion_cases.
    destruct (currentFnRegion this) as [fn|] eqn:Hcur; [|done].
    destruct (sticky fn pc bank) eqn:Hst; [|done].
    specialize (Hcached fn eq_refl).
    apply sticky_true in Hst as [Hpc Hbank].
    destruct (table_regions_range noiData fn Hcached) as [Hend Hlow].
    symmetry. apply Hfound. split; [done|]. split; [|done].
    unfold targetBankOf. case_decide as Hlt.
    - apply Hlow. lia.
    - destruct Hbank as [?|?]; [lia|done]. }
  split; [done|]. intros r. rewrite Heq. apply Hfound.
Qed.

Lemma sticky_cache_is_transparent_witness :
  getCurrentFunctionRegion simpleCall 0x153 1 = findInBank simpleCall 0x153 1.
Proof.
  assert (Hreach : reachable
            (initialize (Some ("DEF _main 0x150" ++ LF ++ "DEF _foo 0x200")%string))
            simpleCall).
  { unfold simpleCall. repeat constructor. }
  exact (proj1 (sticky_cache_is_transparent _ simpleCall 0x153 1 Hreach)).
Defined.

Lemma reachable_by_callHook (P : Runner → Prop) init this :
  (∀ clockNow r call after, P r → callHook r clockNow call = Some after → P after) →
  P init → reachable init this → P this.
Proof.
  intros Hhook Hinit Hreach.
  induction Hreach as [|prev opcode pc bank clockNow Hprev IH
                        |prev interrupt clockNow after Hprev IH Hint].
  - done.
  - by apply (Hhook clockNow prev (OnAfterInstruction opcode pc bank)).
  - by apply (Hhook clockNow prev (OnInterrupt interrupt)).
Qed.

Lemma callHooks_preserves (P : Runner → Prop) this framesElapsed calls after :
  (∀ clockNow r call r', P r → callHook r clockNow call = Some r' → P r') →
  P this → callHooks this framesElapsed calls = Some after → P after.
Proof.
  intros Hhook. revert this.
  induction calls as [|[clock_c call] calls IH]; intros this HP Hrun; cbn [callHooks] in Hrun.
  - by injection Hrun as <-.
  - destruct (callHook this _ call) as [next|] eqn:Hcall; [|done].
    apply (IH next); [|done]. by eapply Hhook.
Qed.

(** A property of the runner that the hooks and [addCapture] keep is
    kept by the frame loop of [run]. *)
Lemma runFrames_preserves (P : Runner → Prop) startFrame totalFrames captureMode
    inputs i st st' :
  (∀ clockNow r call r', P r → callHook r clockNow call = Some r' → P r') →
  (∀ r src at_ frameNumber,
     P r → P (withTrace r (addCapture (speedscope r) src at_ frameNumber))) →
  P (rs_runner st) →
  runFrames startFrame totalFrames captureMode i inputs st = Some st' →
  P (rs_runner st').
Proof.
  intros Hhook Hcap. revert i st.
  induction inputs as [|input inputs IH]; intros i st HP Hrun; cbn [runFrames] in Hrun.
  - by injection Hrun as <-.
  - destruct (runFrame startFrame totalFrames captureMode i input st) as [next|] eqn:Hframe;
      [|done].
    apply (IH (S i) next); [|done]. clear Hrun IH.
    unfold runFrame in Hframe.
    destruct (callHooks (rs_runner st) (rs_framesElapsed st) (fi_calls input))
      as [this|] eqn:Hcalls; [|done].
    pose proof (callHooks_preserves P _ _ _ _ Hhook HP Hcalls) as Hthis.
    destruct (decide (startFrame ≤ i)%nat); [|by injection Hframe as <-].
    destruct captureMode, (fi_capture input) as [src|];
      try (by injection Hframe as <-).
    + injection Hframe as <-. by apply Hcap.
    + destruct (decide (i = totalFrames - 1)%nat); by injection Hframe as <-.
Qed.

Lemma IndexedBy_pops init table (mk : Frame → Event) r after popped :
  IndexedBy init table r →
  (∀ f, e_frame (mk f) = noiIndex r !! f_symbol f) →
  fnStack r = popped ++ fnStack after →
  speedscope after = appendEvents (speedscope r) (mk <$> popped) →
  regionsByBank after = regionsByBank r →
  noiIndex after = noiIndex r →
  currentFnRegion after = currentFnRegion r →
  IndexedBy init table after.
Proof.
  intros ([Htable Hcached] & Hidx & Hnames & Hstack & Hevents) Hmk Hst Htr Hrg Hi Hcur.
  rewrite Hst in Hstack. apply Forall_app in Hstack as [Hpopped Hrest].
  unfold IndexedBy, CacheInTable, FramesIndexed, frameIndexOf.
  rewrite Hrg, Hi, Hcur, Htr. cbn [appendEvents withEvents events frames].
  repeat split; try done.
  apply Forall_app. split; [done|]. apply Forall_fmap.
  eapply Forall_impl; [exact Hpopped|]. intros f [k Hk]. simpl.
  exists (f_symbol f), k. by rewrite Hmk.
Qed.

Lemma IndexedBy_push init table r after f stack' clockNow :
  IndexedBy init table r →
  is_Some (noiIndex r !! f_symbol f) →
  fnStack after = f :: stack' →
  Forall (λ f, is_Some (frameIndexOf r f)) stack' →
  speedscope after
  = appendEvents (speedscope r) [mkEvent TypeO clockNow (noiIndex r !! f_symbol f) None] →
  regionsByBank after = regionsByBank r →
  noiIndex after = noiIndex r →
  currentFnRegion after = currentFnRegion r →
  IndexedBy init table after.
Proof.
  intros ([Htable Hcached] & Hidx & Hnames & Hstack & Hevents) [k Hk] Hst Hst' Htr Hrg Hi Hcur.
  unfold IndexedBy, CacheInTable, FramesIndexed, frameIndexOf.
  rewrite Hrg, Hi, Hcur, Htr, Hst. cbn [appendEvents withEvents events frames].
  repeat split; try done.
  - constructor; [by exists k|done].
  - apply Forall_app. split; [done|]. constructor; [|constructor].
    exists (f_symbol f), k. by rewrite Hk.
Qed.

Lemma IndexedBy_cache init table r fn :
  IndexedBy init table r → fn ∈ table → IndexedBy init table (setCurrentFnRegion r (Some fn)).
Proof.
  intros ([Htable Hcached] & Hidx & Hnames & Hstack & Hevents) Hfn.
  repeat split; try done. intros fn' Heq. cbn in Heq. by injection Heq as <-.
Qed.

Lemma index_complete noiLookup s :
  s ≠ "__proto__" →
  s ∈ s_symbol <$> noiLookup → is_Some (buildNoiIndex 0 noiLookup ∅ !! s).
Proof.
  intros Hproto Hs. apply list_elem_of_lookup in Hs as [k Hk].
  destruct (proj2 (index_of_lookup noiLookup s k) Hproto Hk) as (k' & _ & Hk' & _).
  by exists k'.
Qed.

Lemma IndexedBy_callHook text clockNow this call after :
  text ≠ "" →
  "__proto__" ∉ s_symbol <$> parseNoi text →
  IndexedBy (initialize (Some text)) (tableOf (Some text)) this →
  callHook this clockNow call = Some after →
  IndexedBy (initialize (Some text)) (tableOf (Some text)) after.
Proof.
  intros Htext. destruct text as [|a text']; [done|]. set (text := String a text').
  intros Hproto.
  assert (Hregion : ∀ fn, fn ∈ tableOf (Some text) →
                          is_Some (noiIndex (initialize (Some text)) !! r_symbol fn)).
  { intros fn Hfn.
    change (is_Some (buildNoiIndex 0 (parseNoi text) ∅ !! r_symbol fn)).
    change (fn ∈ generateFunctionRegions (parseNoi text)) in Hfn.
    assert (Hin : r_symbol fn ∈ s_symbol <$> parseNoi text).
    { apply list_elem_of_fmap. exists (symbolOfRegion fn). split; [done|].
      rewrite <- (generateFunctionRegions_perm (parseNoi text)).
      apply list_elem_of_fmap. by exists fn. }
    apply index_complete; [|done]. intros Heq. apply Hproto. by rewrite <- Heq. }
  assert (Hinterrupt : ∀ entry, entry ∈ INTERRUPTS →
                          is_Some (noiIndex (initialize (Some text)) !! i_symbol entry)).
  { intros entry Hentry.
    change (is_Some (buildNoiIndex 0 (parseNoi text) ∅ !! i_symbol entry)).
    assert (Hin : i_symbol entry ∈ s_symbol <$> parseNoi text).
    { destruct (parseLines_structure (splitLines text) ∅ interruptSymbols)
        as (parsed & Heq & _).
      fold (parseNoi text) in Heq. rewrite Heq, fmap_app. apply elem_of_app. left.
      unfold interruptSymbols. rewrite <- list_fmap_compose.
      apply list_elem_of_fmap. by exists entry. }
    apply index_complete; [|done]. intros Heq. apply Hproto. by rewrite <- Heq. }
  apply (callHook_preserves (IndexedBy (initialize (Some text)) (tableOf (Some text)))).
  - intros r Hr. destruct (popInterrupts_popped r clockNow) as (popped & [] & _).
    by apply (IndexedBy_pops _ _ (closeAt (noiIndex r) clockNow) r _ popped).
  - intros r pc bank newFn Hr Hres.
    pose proof Hr as (Hcache & Hidx & _ & Hstack & _).
    pose proof (resolver_in_table _ _ _ _ _ Hcache Hres) as Hin.
    apply IndexedBy_cache; [|done].
    eapply (IndexedBy_push _ _ r _ _ (markParent (fnStack r)) clockNow); try done.
    + cbn [f_symbol]. rewrite Hidx. by apply Hregion.
    + by apply markParent_Forall.
  - intros r pc bank newFn Hr Hres.
    pose proof Hr as (Hcache & _).
    pose proof (resolver_in_table _ _ _ _ _ Hcache Hres) as Hin.
    apply IndexedBy_cache; [|done].
    destruct (popFramesUntil_effect r clockNow (Some newFn))
      as (popped & Hst & Htr & Hrg & Hi & Hcur & _).
    by apply (IndexedBy_pops _ _ (closeClamped (noiIndex r) clockNow) r _ popped).
  - intros r pc bank newFn Hr Hres. pose proof Hr as (Hcache & _).
    apply IndexedBy_cache; [done|]. by eapply resolver_in_table.
  - intros r entry Hr Hentry. pose proof Hr as (_ & Hidx & _ & Hstack & _).
    eapply (IndexedBy_push _ _ r _ _ (fnStack r) clockNow); try done.
    cbn [f_symbol]. rewrite Hidx. by apply Hinterrupt.
Qed.

Lemma IndexedBy_initialize noiData :
  IndexedBy (initialize noiData) (tableOf noiData) (initialize noiData).
Proof.
  split; [|split; [done|split; [done|]]].
  - split; [by destruct noiData as [[|]|]|]. by destruct noiData as [[|]|].
  - split; destruct noiData as [[|]|]; constructor.
Qed.

(** X17.  When [run] is given a NOI text none of whose symbols is
    ["__proto__"] and returns, every event of the trace it returns
    carries a frame index, and this index is a position of
    [shared.frames]; the frames are the symbols of [parseNoi], in its
    order.  (A function named ["__proto__"] has no index: its events
    carry [Object.prototype].) *)
Theorem run_events_name_frames
    (text : string) (startFrame frames_ : nat) (captureMode : CaptureMode)
    (emulator : nat → FrameInput) (finalClock : Z) (trace : Trace) (caps : list string) :
  text ≠ "" →
  "__proto__" ∉ s_symbol <$> parseNoi text →
  run (Some text) startFrame frames_ captureMode emulator finalClock = Some (trace, caps) →
  frames trace = s_symbol <$> parseNoi text ∧
  Forall (λ e, ∃ k name, e_frame e = Some k ∧ frames trace !! k = Some name)
         (events trace).
Proof.
  intros Htext Hproto Hrun. unfold run in Hrun.
  destruct (runFrames _ _ _ _ _ _) as [st|] eqn:Hframes; [|done].
  set (init := initialize (Some text)) in *.
  assert (Hst : IndexedBy init (tableOf (Some text)) (rs_runner st)).
  { eapply (runFrames_preserves (IndexedBy init (tableOf (Some text))));
      [| | |exact Hframes].
    - intros clockNow r call r'. by apply IndexedBy_callHook.
    - by intros r src at_ frameNumber H.
    - apply IndexedBy_initialize. }
  set (clockNow := getGBTime finalClock (rs_framesElapsed st)) in *.
  destruct (popFramesUntil_effect (A := Region) (rs_runner st) clockNow None)
    as (popped & Hstack & Htr & Hrg & Hi & Hcur & _).
  pose proof (IndexedBy_pops _ _ (closeClamped (noiIndex (rs_runner st)) clockNow)
                (rs_runner st) _ popped Hst (λ f, eq_refl) Hstack Htr Hrg Hi Hcur)
    as (_ & Hidx & Hnames & _ & Hevents).
  set (final := popFramesUntil (A := Region) (rs_runner st) clockNow None) in *.
  assert (Htrace : trace = finalizeTrace (speedscope final) (Some (rs_captureStartTime st)))
    by congruence.
  rewrite Htrace. cbn [finalizeTrace frames events]. rewrite Hnames.
  assert (Hinit : frames (speedscope init) = s_symbol <$> parseNoi text).
  { unfold init. by destruct text. }
  split; [done|].
  apply Forall_forall. intros e He.
  assert (He' : e ∈ events (speedscope final)).
  { unfold finalizeEvents in He. apply keepIncluded_elem in He.
    by rewrite (sortEvents_perm _) in He. }
  rewrite Forall_forall in Hevents. destruct (Hevents e He') as (s & k & Hk & Hs).
  exists k, s. split; [done|]. rewrite Hidx in Hs.
  by apply (proj1 (index_of_lookup (noiLookupOf (Some text)) s k)).
Qed.

(** X18.  Without NOI data (none, or the empty text) the symbol index
    and the region lookup stay empty: [onAfterInstruction] does nothing
    for any opcode but RETI, only interrupts are ever on the stack, and
    every event is written with an [undefined] frame while
    [shared.frames] is empty. *)
Theorem without_noi_only_interrupts_are_traced (noiData : option string) (this : Runner) :
  noiData = None ∨ noiData = Some "" →
  reachable (initialize noiData) this →
  (∀ opcode pc bank clockNow,
     opcode ≠ RETI → onAfterInstruction this opcode pc bank clockNow = this) ∧
  Forall (λ f, ∃ entry, entry ∈ INTERRUPTS ∧ f_symbol f = i_symbol entry) (fnStack this) ∧
  Forall (λ e, e_frame e = None) (events (speedscope this)) ∧
  frames (speedscope this) = [].
Proof.
  intros Hnone Hreach.
  set (P := λ r : Runner,
    (regionsByBank r = ∅ ∧ noiIndex r = ∅ ∧ currentFnRegion r = None) ∧
    Forall (λ f, ∃ entry, entry ∈ INTERRUPTS ∧ f_symbol f = i_symbol entry) (fnStack r) ∧
    Forall (λ e, e_frame e = None) (events (speedscope r)) ∧
    frames (speedscope r) = []).
  assert (Hresolve : ∀ r pc bank, P r → getCurrentFunctionRegion r pc bank = None).
  { intros r pc bank ((Hrg & _ & Hcur) & _). unfold getCurrentFunctionRegion.
    by rewrite Hcur, Hrg, lookup_empty. }
  assert (Hpops : ∀ (mk : Frame → Event) r after popped, P r →
    (∀ f, e_frame (mk f) = noiIndex r !! f_symbol f) →
    fnStack r = popped ++ fnStack after →
    speedscope after = appendEvents (speedscope r) (mk <$> popped) →
    regionsByBank after = regionsByBank r → noiIndex after = noiIndex r →
    currentFnRegion after = currentFnRegion r → P after).
  { intros mk r after popped ((Hrg & Hidx & Hcur) & Hstack & Hev & Hfr) Hmk Hst Htr Hrg' Hi' Hc'.
    rewrite Hst in Hstack. apply Forall_app in Hstack as [_ Hrest].
    unfold P. rewrite Hrg', Hi', Hc', Htr. cbn [appendEvents withEvents events frames].
    repeat split; try done. apply Forall_app. split; [done|].
    apply Forall_fmap, Forall_forall. intros f _. simpl. by rewrite Hmk, Hidx, lookup_empty. }
  assert (HP : P this).
  { apply (reachable_preserves P (initialize noiData) this); [| | | | | |done].
    - intros clockNow r Hr. destruct (popInterrupts_popped r clockNow) as (popped & [] & _).
      by apply (Hpops (closeAt (noiIndex r) clockNow) r _ popped).
    - intros clockNow r pc bank newFn Hr Hres. by rewrite (Hresolve r pc bank Hr) in Hres.
    - intros clockNow r pc bank newFn Hr Hres. by rewrite (Hresolve r pc bank Hr) in Hres.
    - intros r pc bank newFn Hr Hres. by rewrite (Hresolve r pc bank Hr) in Hres.
    - intros clockNow r entry ((Hrg & Hidx & Hcur) & Hstack & Hev & Hfr) Hentry.
      unfold P. cbn [openInterrupt setInterruptStack setStack regionsByBank noiIndex
                     currentFnRegion fnStack speedscope addOpenEvent withEvents events frames].
      repeat split; try done.
      + constructor; [by exists entry|done].
      + apply Forall_app. split; [done|]. constructor; [|constructor].
        cbn [e_frame]. by rewrite Hidx, lookup_empty.
    - destruct Hnone as [-> | ->]; repeat split; constructor. }
  destruct HP as (Htables & Hstack & Hev & Hfr).
  repeat split; try done.
  intros opcode pc bank clockNow Hop. unfold onAfterInstruction.
  rewrite decide_False by done.
  by rewrite (Hresolve this pc bank (conj Htables (conj Hstack (conj Hev Hfr)))).
Qed.

Lemma without_noi_only_interrupts_are_traced_witness :
  let this := openInterrupt (popInterrupts (initialize None) 500) LCD 500 in
  onAfterInstruction this 0 0x150 1 600 = this ∧
  Forall (λ e, e_frame e = None) (events (speedscope this)).
Proof.
  cbn zeta.
  assert (Hreach : reachable (initialize None)
                     (openInterrupt (popInterrupts (initialize None) 500) LCD 500)).
  { apply (reach_interrupt _ (initialize None) 1 500); [constructor|reflexivity]. }
  destruct (without_noi_only_interrupts_are_traced None _ (or_introl eq_refl) Hreach)
    as (Hnoop & _ & Hev & _).
  split; [by apply Hnoop|exact Hev].
Defined.

(** X19.  A dispatch leaves exactly the dispatched interrupt in flight,
    whatever was in flight before, with its frame on top of the stack;
    it fails only for a number that is not one of the five vectors.  So
    in every state the hooks lead to from [initialize] at most one
    interrupt is in flight. *)
Theorem dispatch_leaves_one_interrupt_in_flight (noiData : option string) (this : Runner) :
  reachable (initialize noiData) this →
  (length (interruptStack this) ≤ 1)%nat ∧
  ∀ interrupt clockNow,
    match onInterrupt this interrupt clockNow with
    | Some after =>
        ∃ entry rest,
          INTERRUPTS !! interrupt = Some entry ∧
          interruptStack after = [entry] ∧
          fnStack after
          = mkFrame (i_symbol entry) (i_addr entry) clockNow false false (length rest) :: rest ∧
          ∃ popped, fnStack this = popped ++ rest
    | None => (5 ≤ interrupt)%nat
    end.
Proof.
  intros Hreach. split.
  { apply (reachable_one_interrupt (initialize noiData)); [|done].
    by destruct noiData as [[|]|]. }
  intros interrupt clockNow. rewrite onInterrupt_openInterrupt.
  destruct (INTERRUPTS !! interrupt) as [entry|] eqn:Hi; cbn [fmap option_fmap option_map].
  - destruct (popInterrupts_popped this clockNow) as (popped & [Hst _ _ _ _] & Hint).
    exists entry, (fnStack (popInterrupts this clockNow)).
    split; [done|]. split; [|split; [done|by exists popped]].
    cbn [openInterrupt setInterruptStack setStack interruptStack]. by rewrite Hint.
  - apply lookup_ge_None in Hi. exact Hi.
Qed.

Lemma dispatch_leaves_one_interrupt_in_flight_witness :
  (length (interruptStack simpleCall) ≤ 1)%nat.
Proof.
  assert (Hreach : reachable
            (initialize (Some ("DEF _main 0x150" ++ LF ++ "DEF _foo 0x200")%string))
            simpleCall).
  { unfold simpleCall. repeat constructor. }
  exact (proj1 (dispatch_leaves_one_interrupt_in_flight _ simpleCall Hreach)).
Defined.

Lemma run_events_name_frames_witness :
  ∃ trace caps,
    run (Some "DEF _main 0x150") 0 2 CaptureAll sampleEmulator 100 = Some (trace, caps) ∧
    Forall (λ e, ∃ k name, e_frame e = Some k ∧ frames trace !! k = Some name)
           (events trace).
Proof.
  destruct (run (Some "DEF _main 0x150") 0 2 CaptureAll sampleEmulator 100)
    as [[trace caps]|] eqn:Hrun; [|by vm_compute in Hrun].
  exists trace, caps. split; [done|].
  assert (Hproto : "__proto__" ∉ s_symbol <$> parseNoi "DEF _main 0x150").
  { apply (bool_decide_eq_false_1 (_ ∈ _)). vm_compute. reflexivity. }
  by destruct (run_events_name_frames "DEF _main 0x150" 0 2 CaptureAll sampleEmulator 100
                 trace caps ltac:(done) Hproto Hrun).
Defined.

(** ** The frame loop of [run] *)

Lemma filter_seq_below (a i n : nat) :
  (i + n ≤ a)%nat → filter (λ j, (a ≤ j)%nat) (seq i n) = [].
Proof.
  revert i. induction n as [|n IH]; intros i Hle; [done|].
  cbn [seq]. rewrite filter_cons_False by lia. apply IH. lia.
Qed.

Lemma filter_seq_above (a i n : nat) :
  (a ≤ i)%nat → filter (λ j, (a ≤ j)%nat) (seq i n) = seq i n.
Proof.
  revert i. induction n as [|n IH]; intros i Hle; [done|].
  cbn [seq]. rewrite filter_cons_True by lia. f_equal. apply IH. lia.
Qed.

Lemma filter_seq_recorded (startFrame frames_ : nat) :
  filter (λ j, (startFrame ≤ j)%nat) (seq 0 (startFrame + frames_)) = seq startFrame frames_.
Proof.
  rewrite seq_app, filter_app, filter_seq_below, filter_seq_above by lia. done.
Qed.

Lemma firstNonZero_cons t l :
  firstNonZero (t :: l) = if decide (t = 0) then firstNonZero l else t.
Proof.
  unfold firstNonZero. destruct (decide (t = 0)) as [->|Hne].
  - by rewrite filter_cons_False by (intros H; by apply H).
  - by rewrite filter_cons_True.
Qed.

Lemma callHook_captures this clockNow call after :
  callHook this clockNow call = Some after →
  captures (speedscope after) = captures (speedscope this).
Proof.
  intros Hcall.
  apply (callHook_preserves
           (λ r, captures (speedscope r) = captures (speedscope this)) clockNow)
    with (this := this) (call := call); [| | | | |done|done].
  - intros r Hr. destruct (popInterrupts_popped r clockNow) as (popped & [_ Htr _ _ _] & _).
    by rewrite Htr.
  - by intros r pc bank newFn Hr _.
  - intros r pc bank newFn Hr _.
    destruct (popFramesUntil_effect r clockNow (Some newFn)) as (popped & _ & Htr & _).
    cbn [setCurrentFnRegion speedscope]. by rewrite Htr.
  - by intros r pc bank newFn Hr _.
  - by intros r entry Hr _.
Qed.

(** The loop variables after the turns [i] to [i + n - 1]. *)
Lemma runFrames_variables startFrame totalFrames captureMode emulator n i st st' :
  rs_framesElapsed st = Z.of_nat i →
  runFrames startFrame totalFrames captureMode i (emulator <$> seq i n) st = Some st' →
  let recorded := filter (λ j, (startFrame ≤ j)%nat) (seq i n) in
  rs_framesElapsed st' = Z.of_nat (i + n) ∧
  rs_captureStartTime st'
  = firstNonZero (rs_captureStartTime st :: (frameStartOf emulator <$> recorded)) ∧
  captures (speedscope (rs_runner st'))
  = captures (speedscope (rs_runner st)) ++ omap (traceCaptureOf captureMode emulator) recorded ∧
  rs_captures st'
  = rs_captures st ++ omap (hostCaptureOf captureMode totalFrames emulator) recorded.
Proof.
  revert i st. induction n as [|n IH]; intros i st Hfe Hrun.
  { injection Hrun as <-. cbn zeta. cbn [seq filter list_filter fmap list_fmap omap list_omap].
    rewrite firstNonZero_cons, !app_nil_r, Nat.add_0_r.
    repeat split; try done. unfold firstNonZero. cbn. by case_decide. }
  cbn [seq fmap list_fmap runFrames] in Hrun.
  destruct (runFrame startFrame totalFrames captureMode i (emulator i) st)
    as [next|] eqn:Hframe; [|done].
  assert (Hnext : rs_framesElapsed next = Z.of_nat (S i) ∧
    let recorded := filter (λ j, (startFrame ≤ j)%nat) [i] in
    rs_captureStartTime next
    = firstNonZero (rs_captureStartTime st :: (frameStartOf emulator <$> recorded)) ∧
    captures (speedscope (rs_runner next))
    = captures (speedscope (rs_runner st)) ++ omap (traceCaptureOf captureMode emulator) recorded ∧
    rs_captures next
    = rs_captures st ++ omap (hostCaptureOf captureMode totalFrames emulator) recorded).
  { clear Hrun IH. unfold runFrame in Hframe.
    destruct (callHooks (rs_runner st) (rs_framesElapsed st) (fi_calls (emulator i)))
      as [this|] eqn:Hcalls; [|done].
    assert (Hcap : captures (speedscope this) = captures (speedscope (rs_runner st))).
    { apply (callHooks_preserves
               (λ r, captures (speedscope r) = captures (speedscope (rs_runner st)))
               _ _ _ _ (λ clockNow r call r' Hr Hcall,
                          eq_trans (callHook_captures r clockNow call r' Hcall) Hr)
               eq_refl Hcalls). }
    cbn zeta. destruct (decide (startFrame ≤ i)%nat) as [Hrec|Hrec].
    - rewrite filter_cons_True by done. rewrite filter_nil.
      cbn [fmap list_fmap omap list_omap]. rewrite firstNonZero_cons.
      unfold traceCaptureOf, hostCaptureOf, frameStartOf.
      assert (Hstart : ∀ cst t : Z,
        (if decide (cst = 0) then t else cst)
        = (if decide (cst = 0) then firstNonZero [t] else cst)).
      { intros cst t. destruct (decide (cst = 0)) as [_|_]; [|done].
        rewrite firstNonZero_cons. by destruct (decide (t = 0)) as [->|_]. }
      destruct captureMode, (fi_capture (emulator i)) as [src|];
        try (injection Hframe as <-; cbn; rewrite ?app_nil_r, ?Hfe, Hcap, <- Hstart;
             repeat split; (done || lia)).
      all: destruct (decide (i = totalFrames - 1)%nat);
        injection Hframe as <-; cbn; rewrite ?app_nil_r, ?Hfe, Hcap, <- Hstart;
        repeat split; (done || lia).
    - rewrite filter_cons_False by done. rewrite filter_nil.
      cbn [fmap list_fmap omap list_omap]. rewrite firstNonZero_cons, !app_nil_r.
      injection Hframe as <-. cbn. rewrite ?Hfe, Hcap.
      repeat split; try (done || lia). unfold firstNonZero. cbn. by case_decide. }
  destruct Hnext as (Hfe' & Hcst & Hcaps & Hhost).
  destruct (IH (S i) next Hfe' Hrun) as (Hfe'' & Hcst' & Hcaps' & Hhost').
  cbn zeta in *. rewrite Hfe'', Hcst', Hcaps', Hhost', Hcst, Hcaps, Hhost.
  replace (S i + n)%nat with (i + S n)%nat by lia.
  split; [done|]. cbn [seq].
  change (firstNonZero []) with 0 in *.
  destruct (decide (startFrame ≤ i)%nat) as [Hrec|Hrec].
  - rewrite !filter_cons_True by done. rewrite filter_nil.
    cbn [fmap list_fmap omap list_omap]. rewrite !firstNonZero_cons.
    split; [|split].
    + destruct (decide (rs_captureStartTime st = 0)) as [Hz|Hnz].
      * destruct (decide (frameStartOf emulator i = 0)) as [Hz'|Hnz'].
        -- by rewrite decide_True.
        -- by rewrite decide_False.
      * by rewrite decide_False.
    + rewrite <- app_assoc. f_equal.
      by destruct (traceCaptureOf captureMode emulator i).
    + rewrite <- app_assoc. f_equal.
      by destruct (hostCaptureOf captureMode totalFrames emulator i).
  - rewrite !filter_cons_False by done. rewrite filter_nil.
    cbn [fmap list_fmap omap list_omap]. rewrite !firstNonZero_cons, !app_nil_r.
    split; [|done].
    destruct (decide (rs_captureStartTime st = 0)) as [Hz|Hnz].
    + by rewrite decide_True.
    + by rewrite decide_False.
Qed.

(** X20.  [run] closes the frames still open at [finalClock] plus
    [startFrame + frames] whole frames, and filters the trace from the
    start time of the first recorded frame whose start time is not [0].
    This is the start of frame [startFrame] unless that start is cycle
    0; then it is the start of a later frame, or [0] when there is
    none. *)
Theorem run_filters_from_first_nonzero_start
    (noiData : option string) (startFrame frames_ : nat) (captureMode : CaptureMode)
    (emulator : nat → FrameInput) (finalClock : Z) :
  let threshold := firstNonZero (frameStartOf emulator <$> seq startFrame frames_) in
  run noiData startFrame frames_ captureMode emulator finalClock
  = (λ st,
       (finalizeTrace
          (speedscope
             (popFramesUntil (A := Region) (rs_runner st)
                (finalClock + Z.of_nat (startFrame + frames_) * CYCLES_PER_FRAME) None))
          (Some threshold),
        rs_captures st))
    <$> runFrames startFrame (startFrame + frames_) captureMode 0
          (emulator <$> seq 0 (startFrame + frames_))
          (mkRunState (initialize noiData) 0 0 []) ∧
  (∀ n, frames_ = S n →
     threshold
     = if decide (frameStartOf emulator startFrame = 0)
       then firstNonZero (frameStartOf emulator <$> seq (S startFrame) n)
       else frameStartOf emulator startFrame) ∧
  (frames_ = 0%nat → threshold = 0).
Proof.
  cbn zeta. split; [|split].
  - unfold run. destruct (runFrames _ _ _ _ _ _) as [st|] eqn:Hframes; [|done].
    destruct (runFrames_variables startFrame (startFrame + frames_) captureMode emulator
                (startFrame + frames_) 0 (mkRunState (initialize noiData) 0 0 []) st
                eq_refl Hframes) as (Hfe & Hcst & _).
    cbn zeta in *. rewrite filter_seq_recorded in Hcst.
    cbn [rs_captureStartTime] in Hcst.
    rewrite firstNonZero_cons, decide_True in Hcst by done.
    cbn [fmap option_fmap option_map]. by rewrite Hfe, Hcst.
  - intros n ->. cbn [seq fmap list_fmap]. by rewrite firstNonZero_cons.
  - by intros ->.
Qed.

Lemma omap_all_None {A B} (f : A → option B) (l : list A) :
  Forall (λ x, f x = None) l → omap f l = [].
Proof.
  induction 1 as [|x l Hx _ IH]; [done|]. cbn [omap list_omap]. by rewrite Hx.
Qed.

(** X21.  The captures of [run].  In mode ["all"] every recorded frame
    for which the host returns a capture adds it to the returned
    captures and to [trace.captures], stamped with the start time and
    the number of its frame, in frame order.  In mode ["exit"] only the
    capture of the last frame is returned and [trace.captures] stays
    empty.  The hooks and [finalizeTrace] never touch the captures. *)
Theorem run_captures_by_mode
    (noiData : option string) (startFrame frames_ : nat) (captureMode : CaptureMode)
    (emulator : nat → FrameInput) (finalClock : Z) (trace : Trace) (caps : list string) :
  run noiData startFrame frames_ captureMode emulator finalClock = Some (trace, caps) →
  match captureMode with
  | CaptureAll =>
      captures trace
      = omap (λ i, (λ src, mkCapture src (frameStartOf emulator i) (Z.of_nat i))
                     <$> fi_capture (emulator i))
             (seq startFrame frames_) ∧
      caps = c_src <$> captures trace
  | CaptureExit =>
      captures trace = [] ∧
      caps = match frames_ with
             | 0%nat => []
             | S n => option_list (fi_capture (emulator (startFrame + n)%nat))
             end
  | CaptureNone => captures trace = [] ∧ caps = []
  end.
Proof.
  intros Hrun. unfold run in Hrun.
  destruct (runFrames _ _ _ _ _ _) as [st|] eqn:Hframes; [|done].
  destruct (runFrames_variables startFrame (startFrame + frames_) captureMode emulator
                (startFrame + frames_) 0 (mkRunState (initialize noiData) 0 0 []) st
                eq_refl Hframes)
    as (_ & _ & Hcaps & Hhost).
  cbn zeta in *. rewrite filter_seq_recorded in Hcaps, Hhost.
  assert (Hinit : captures (speedscope (initialize noiData)) = [])
    by (by destruct noiData as [[|]|]).
  cbn [rs_runner rs_captures app] in Hcaps, Hhost. rewrite Hinit in Hcaps.
  cbn [app] in Hcaps.
  destruct (popFramesUntil_effect (A := Region) (rs_runner st)
              (getGBTime finalClock (rs_framesElapsed st)) None)
    as (popped & _ & Htr & _).
  set (final := popFramesUntil (A := Region) (rs_runner st) _ None) in *.
  assert (Htrace : captures trace = captures (speedscope (rs_runner st))).
  { assert (trace = finalizeTrace (speedscope final) (Some (rs_captureStartTime st)))
      as -> by congruence.
    cbn [finalizeTrace captures]. by rewrite Htr. }
  assert (Hcapsv : caps = rs_captures st) by congruence.
  rewrite Htrace, Hcapsv, Hcaps, Hhost. clear.
  destruct captureMode.
  - split; [done|]. unfold traceCaptureOf, hostCaptureOf.
    induction (seq startFrame frames_) as [|i l IH]; [done|].
    cbn [omap list_omap]. destruct (fi_capture (emulator i)) as [src|]; [|done].
    cbn [fmap option_fmap option_map]. rewrite fmap_cons. by f_equal.
  - split; [by apply omap_all_None, Forall_forall|].
    destruct frames_ as [|n]; [done|].
    rewrite seq_S, omap_app. rewrite omap_all_None.
    + cbn [omap list_omap app hostCaptureOf].
      rewrite decide_True by lia. by destruct (fi_capture _).
    + apply Forall_forall. intros i Hi. apply elem_of_seq in Hi.
      cbn [hostCaptureOf]. rewrite decide_False by lia. done.
  - split; by apply omap_all_None, Forall_forall.
Qed.

Lemma run_captures_by_mode_witness :
  ∃ trace caps,
    run (Some "DEF _main 0x150") 0 2 CaptureAll sampleEmulator 100 = Some (trace, caps) ∧
    caps = c_src <$> captures trace.
Proof.
  destruct (run (Some "DEF _main 0x150") 0 2 CaptureAll sampleEmulator 100)
    as [[trace caps]|] eqn:Hrun; [|by vm_compute in Hrun].
  exists trace, caps. split; [done|].
  by destruct (run_captures_by_mode (Some "DEF _main 0x150") 0 2 CaptureAll sampleEmulator
                 100 trace caps Hrun).
Defined.

(** ** The ignored symbols *)

(** What [onAfterInstruction] knows of the region it acts on. *)
Lemma onAfterInstruction_acts_on this opcode pc bank clockNow :
  let after := onAfterInstruction this opcode pc bank clockNow in
  after = popInterrupts this clockNow ∨
  after = this ∨
  ∃ newFn, getCurrentFunctionRegion this pc bank = Some newFn ∧
    (r_symbol newFn ∉ IGNORE_SYMBOLS) ∧
    (after = setCurrentFnRegion (pushFrame this clockNow newFn) (Some newFn) ∨
     after = setCurrentFnRegion (popFramesUntil this clockNow (Some newFn)) (Some newFn) ∨
     after = setCurrentFnRegion this (Some newFn)).
Proof.
  cbn zeta. unfold onAfterInstruction.
  destruct (decide (opcode = RETI)); [by left|].
  destruct (getCurrentFunctionRegion this pc bank) as [newFn|]; [|by right; left].
  destruct (decide (Some newFn = currentFnRegion this)); [by right; left|].
  destruct (bool_decide (r_symbol newFn ∈ IGNORE_SYMBOLS)) eqn:Hign; [by right; left|].
  apply bool_decide_eq_false in Hign.
  destruct (decide (pc = r_addr newFn)).
  { right; right. exists newFn. split; [done|]. split; [done|]. by left. }
  destruct (fnStackContains this newFn).
  { right; right. exists newFn. split; [done|]. split; [done|]. by right; left. }
  destruct (decide (0 < length (interruptStack this))%nat); [by right; left|].
  right; right. exists newFn. split; [done|]. split; [done|].
  destruct (decide (0x4000 ≤ pc)); [by left|by right; right].
Qed.

(** X22.  The symbols of [IGNORE_SYMBOLS] never get a frame: in every
    state the hooks lead to from [initialize], no frame of the stack and
    no cached region carries one of them, so no event is written for
    them and they are never popped to. *)
Theorem ignored_symbols_never_get_a_frame (noiData : option string) (this : Runner) :
  reachable (initialize noiData) this →
  Forall (λ f, f_symbol f ∉ IGNORE_SYMBOLS) (fnStack this) ∧
  (∀ fn, currentFnRegion this = Some fn → r_symbol fn ∉ IGNORE_SYMBOLS).
Proof.
  set (P := λ r : Runner,
    Forall (λ f, f_symbol f ∉ IGNORE_SYMBOLS) (fnStack r) ∧
    (∀ fn, currentFnRegion r = Some fn → r_symbol fn ∉ IGNORE_SYMBOLS)).
  assert (Hpops : ∀ r after popped, P r →
    fnStack r = popped ++ fnStack after →
    currentFnRegion after = currentFnRegion r → P after).
  { intros r after popped [Hstack Hcur] Hst Hc. split; [|by rewrite Hc].
    rewrite Hst in Hstack. by apply Forall_app in Hstack as [_ ?]. }
  assert (Hcache : ∀ r fn, P r → r_symbol fn ∉ IGNORE_SYMBOLS →
                           P (setCurrentFnRegion r (Some fn))).
  { intros r fn [Hstack Hcur] Hfn. split; [done|].
    intros fn' Heq. cbn in Heq. by injection Heq as <-. }
  assert (HpopInt : ∀ r clockNow, P r → P (popInterrupts r clockNow)).
  { intros r clockNow Hr.
    destruct (popInterrupts_popped r clockNow) as (popped & [Hst _ _ _ Hc] & _).
    by apply (Hpops r _ popped). }
  apply (reachable_by_callHook P).
  - intros clockNow r [opcode pc bank|interrupt] after Hr Hcall; cbn [callHook] in Hcall.
    + injection Hcall as <-.
      destruct (onAfterInstruction_acts_on r opcode pc bank clockNow)
        as [->|[->|(newFn & _ & Hign & [->|[->| ->]])]]; [by apply HpopInt|done| | |].
      * apply Hcache; [|done]. destruct Hr as [Hstack Hcur]. split; [|done].
        cbn [pushFrame setStack fnStack]. constructor; [done|].
        by apply markParent_Forall.
      * apply Hcache; [|done].
        destruct (popFramesUntil_effect r clockNow (Some newFn))
          as (popped & Hst & _ & _ & _ & Hc & _).
        by apply (Hpops r _ popped).
      * by apply Hcache.
    + rewrite onInterrupt_openInterrupt in Hcall.
      destruct (INTERRUPTS !! interrupt) as [entry|] eqn:Hi; [|done].
      injection Hcall as <-. destruct (HpopInt r clockNow Hr) as [Hstack Hcur].
      split; [|done]. cbn [openInterrupt setInterruptStack setStack fnStack].
      constructor; [|done]. cbn [f_symbol].
      do 5 (destruct interrupt as [|interrupt];
            [injection Hi as <-; by apply (bool_decide_eq_false_1 (_ ∈ IGNORE_SYMBOLS))|]).
      done.
  - split; [by destruct noiData as [[|]|]; constructor|]. by destruct noiData as [[|]|].
Qed.

Lemma ignored_symbols_never_get_a_frame_witness :
  Forall (λ f, f_symbol f ∉ IGNORE_SYMBOLS) (fnStack simpleCall).
Proof.
  assert (Hreach : reachable
            (initialize (Some ("DEF _main 0x150" ++ LF ++ "DEF _foo 0x200")%string))
            simpleCall).
  { unfold simpleCall. repeat constructor. }
  exact (proj1 (ignored_symbols_never_get_a_frame _ simpleCall Hreach)).
Defined.
